(** * eDEX-UI observability subsystem: logger, error tracker,
      performance monitor and health-check registry.

    The JavaScript sources under [src/shared] are embedded as Rocq functions
    over explicit state:

    - [Js]: the few JavaScript notions the four classes rely on (values and
      truthiness, objects as insertion-ordered key/value lists with spread,
      completions with [throw]/[try]/[catch], [Array.prototype.sort]).
    - [Logger]: [src/shared/logger/index.js], class [Logger].
    - [ErrorTracker]: class [ErrorTracker] of the same file.
    - [PerformanceMonitor]: [src/shared/monitoring/performance-monitor.js].
    - [HealthCheck]: [src/shared/monitoring/health-check.js]. *)

From Stdlib Require Import QArith Qcanon Qround.
From stdpp Require Import gmap strings list fin_maps numbers pretty sorting.

Local Open Scope string_scope.
Local Open Scope list_scope.
Local Open Scope nat_scope.

(* ===================================================================== *)
(** ** JavaScript notions shared by the four classes                      *)
(* ===================================================================== *)

Module Js.

(** Values that travel in metadata bags and error objects: primitives.
    Nested objects are not needed by the classes embedded here; a bag of
    these values has no cycle and no [BigInt], the two things
    [JSON.stringify] throws on. *)
Inductive JsVal : Type :=
  | VUndef
  | VNull
  | VBool (b : bool)
  | VNum (z : Z)
  | VStr (s : string).

#[global] Instance JsVal_eq_dec : EqDecision JsVal.
Proof. solve_decision. Defined.

(** [ToBoolean]: what [x || d], [if (x)] and [!x] test. *)
Definition truthy (v : JsVal) : bool :=
  match v with
  | VUndef | VNull => false
  | VBool b => b
  | VNum z => negb (z =? 0)%Z
  | VStr s => negb (String.eqb s EmptyString)
  end.

(** [a || b] on values. *)
Definition or_else (a b : JsVal) : JsVal := if truthy a then a else b.

(** [String(v)], also the coercion done by template literals. *)
Definition toDisplay (v : JsVal) : string :=
  match v with
  | VUndef => "undefined"
  | VNull => "null"
  | VBool true => "true"
  | VBool false => "false"
  | VNum z => pretty z
  | VStr s => s
  end.

(** [n || d] for an optional number: [undefined] and [0] select [d]. *)
Definition num_or (o : option nat) (d : nat) : nat :=
  match o with
  | Some (S n) => S n
  | _ => d
  end.

(** [s || d] for an optional string: [undefined] and the empty string
    select [d]. *)
Definition str_or (o : option string) (d : string) : string :=
  match o with
  | Some s => if String.eqb s EmptyString then d else s
  | None => d
  end.

(** [a || d] for an optional array: every array is truthy, also [[]]. *)
Definition arr_or {A} (o : option (list A)) (d : list A) : list A :=
  match o with
  | Some l => l
  | None => d
  end.

(** *** [Map] and objects

    A [Map] iterates in insertion order; [set] on a present key keeps its
    position and replaces its value. *)
Section JsMap.
Context {K V : Type} `{EqDecision K}.

Fixpoint Map_set (k : K) (v : V) (m : list (K * V)) : list (K * V) :=
  match m with
  | [] => [(k, v)]
  | (k', v') :: m' =>
      if decide (k' = k) then (k, v) :: m' else (k', v') :: Map_set k v m'
  end.

Fixpoint Map_get (k : K) (m : list (K * V)) : option V :=
  match m with
  | [] => None
  | (k', v') :: m' => if decide (k' = k) then Some v' else Map_get k m'
  end.

Definition Map_delete (k : K) (m : list (K * V)) : list (K * V) :=
  filter (λ kv, kv.1 ≠ k) m.
End JsMap.

(** An object literal behaves the same way on its string keys. *)
Definition JsObj : Type := list (string * JsVal).

Definition obj_set (k : string) (v : JsVal) (o : JsObj) : JsObj :=
  Map_set k v o.

(** [o.k] / [o[k]]: a missing key reads as [undefined]. *)
Definition obj_get (k : string) (o : JsObj) : JsVal :=
  default VUndef (Map_get k o).

(** [{...base, ...ext}]. *)
Definition obj_spread (base ext : JsObj) : JsObj :=
  fold_left (λ o kv, obj_set kv.1 kv.2 o) ext base.

(** [delete o.k]. *)
Definition obj_delete (k : string) (o : JsObj) : JsObj := Map_delete k o.

(** [Object.keys(o)]. *)
Definition obj_keys (o : JsObj) : list string := o.*1.

(** The property names a plain object inherits from [Object.prototype]:
    on an object used as a map, [o[k]] finds a function (an object for
    [__proto__]) under each of them although the key was never set. *)
Definition inheritedNames : list string :=
  ["constructor"; "__defineGetter__"; "__defineSetter__"; "hasOwnProperty";
   "__lookupGetter__"; "__lookupSetter__"; "isPrototypeOf";
   "propertyIsEnumerable"; "toString"; "valueOf"; "__proto__";
   "toLocaleString"].

(** An error the engine raises, not the program: calling what is not a
    function, or reading a property of [undefined] or [null], is a
    [TypeError]. *)
Inductive EngineError : Type := TypeError.

(** *** Completions: a call either returns or throws. *)
Inductive Completion (E A : Type) : Type :=
  | Normal (a : A)
  | Throw (e : E).
Arguments Normal {E A} a.
Arguments Throw {E A} e.

#[global] Instance Completion_ret {E} : MRet (Completion E) := λ A a, Normal a.
#[global] Instance Completion_bind {E} : MBind (Completion E) := λ A B f c,
  match c with
  | Normal a => f a
  | Throw e => Throw e
  end.

(** [try { c } catch (e) { h e }]. *)
Definition try_catch {E A} (c : Completion E A) (h : E → Completion E A)
  : Completion E A :=
  match c with
  | Normal a => Normal a
  | Throw e => h e
  end.

(** *** [Array.prototype.sort(cmp)]

    The standard requires the sort to be stable; with a consistent
    comparator the result is the stable insertion of every element.  [le a b]
    stands for [cmp(a, b) <= 0]. *)
Section Sort.
Context {A : Type} (le : A → A → bool).

Fixpoint sort_insert (x : A) (l : list A) : list A :=
  match l with
  | [] => [x]
  | y :: l' => if le x y then x :: y :: l' else y :: sort_insert x l'
  end.

Definition array_sort (l : list A) : list A := foldr sort_insert [] l.
End Sort.

(** [a.slice(-n)]: the last [n] elements. *)
Definition slice_last {A} (n : nat) (l : list A) : list A :=
  drop (length l - n) l.

(** [a.shift()]: drops the first element. *)
Definition shift {A} (l : list A) : list A := tail l.

End Js.

(* ===================================================================== *)
(** ** [src/shared/logger/index.js]: class [Logger]                       *)
(* ===================================================================== *)

Module Logger.
Import Js.

(** [LogLevel] and [LogLevelNames]. *)
Definition ERROR : nat := 0.
Definition WARN : nat := 1.
Definition INFO : nat := 2.
Definition DEBUG : nat := 3.
Definition TRACE : nat := 4.

Definition LogLevelNames : list string :=
  ["ERROR"; "WARN"; "INFO"; "DEBUG"; "TRACE"].

(** *** The world a logger acts on

    One log directory ([this.logDir], shared by a logger and its children):
    it may not exist yet; when it does it holds the active file
    [edex-ui.log] and the generation files [edex-ui.log.i], indexed here by
    [i].  A file remembers the order in which the file system created it
    ([born]), which is how its age is told; [data] is its content in bytes.
    The console is the list of calls made on it so far, and [clock] is what
    [Date] reads. *)
Record File : Type := { born : nat; data : string }.

Record LogDir : Type := {
  active : option File;
  gens : gmap nat File;
  nextBorn : nat
}.

Inductive ConsoleMethod : Type := ConsoleError | ConsoleWarn | ConsoleLog.

Record ConsoleCall : Type := { method : ConsoleMethod; args : list string }.

Record World : Type := {
  logdir : option LogDir;
  console : list ConsoleCall;
  clock : nat
}.

(** [stats.size]. *)
Definition size_of (f : File) : nat := String.length (data f).

Definition emptyDir : LogDir := {| active := None; gens := ∅; nextBorn := 0 |}.

(** What the platform supplies: [JSON.stringify] (on a bag of primitive
    values, where it returns), [Date.prototype.toISOString], the directory
    [getDefaultLogDir] resolves to, and the text an inherited property
    ([String(Object.prototype[k])]) prints as. *)
Record Host : Type := {
  JSON_stringify : JsObj → string;
  toISOString : nat → string;
  defaultLogDir : string;
  inheritedText : string → string
}.

(** The [config] argument of the constructor; [None] is an absent key. *)
Record Config : Type := {
  cfg_level : option nat;
  cfg_module : option string;
  cfg_outputs : option (list string);
  cfg_logDir : option string;
  cfg_maxLogSize : option nat;
  cfg_maxLogFiles : option nat
}.

Record Logger : Type := {
  level : nat;
  module : string;
  outputs : list string;
  logDir : string;
  maxLogSize : nat;
  maxLogFiles : nat
}.

(** An I/O call of [fs] either succeeds or throws an error with a message;
    [Some msg] is the fault the operating system answers the call with. *)
Definition Fault : Type := option string.

(** [call fault effect]: the call throws the fault, or has its effect. *)
Definition fsCall {A} (fault : Fault) (effect : A) : Completion string A :=
  match fault with
  | Some msg => Throw msg
  | None => Normal effect
  end.

(** What the operating system answers the calls of one rotation check
    with.  A fault stands for every call of its kind during the check, so
    the first [statSync], [unlinkSync] or [renameSync] reached is the one
    that throws.  The world is not followed past a throw. *)
Record RotationFaults : Type := {
  statSync_fault : Fault;
  unlinkSync_fault : Fault;
  renameSync_fault : Fault
}.

Definition noFaults : RotationFaults :=
  {| statSync_fault := None; unlinkSync_fault := None;
     renameSync_fault := None |}.

Section WithHost.
Context (host : Host).

(** The field initialisers of the constructor. *)
Definition Logger_fields (config : Config) : Logger :=
  {| level := num_or (cfg_level config) INFO;
     module := str_or (cfg_module config) "app";
     outputs := arr_or (cfg_outputs config) ["console"];
     logDir := str_or (cfg_logDir config) (defaultLogDir host);
     maxLogSize := num_or (cfg_maxLogSize config) (10 * 1024 * 1024);
     maxLogFiles := num_or (cfg_maxLogFiles config) 5 |}.

(** [fs.mkdirSync(this.logDir, { recursive: true })]. *)
Definition mkdirSync (fault : Fault) (w : World) : Completion string World :=
  match fault with
  | Some msg => Throw msg
  | None =>
      Normal {| logdir := Some (default emptyDir (logdir w));
                console := console w; clock := clock w |}
  end.

Definition ensureLogDirectory (mkdir_fault : Fault) (w : World)
  : Completion string World :=
  match logdir w with
  | Some _ => Normal w
  | None => mkdirSync mkdir_fault w
  end.

(** The [for] loop of [rotateLogs], entered with [i = maxLogFiles - 1] and
    left when [i > 0] fails.  [unlinkSync] removes a file; [renameSync]
    moves it, replacing whatever held the new name; either may throw. *)
Fixpoint rotate_files (rf : RotationFaults) (maxFiles i : nat)
    (g : gmap nat File) : Completion string (gmap nat File) :=
  match i with
  | 0 => Normal g
  | S j =>
      g' ← match g !! i with
           | Some oldFile =>
               if decide (i = maxFiles - 1)
               then fsCall (unlinkSync_fault rf) (delete i g)
               else fsCall (renameSync_fault rf)
                      (<[i + 1 := oldFile]> (delete i g))
           | None => Normal g
           end;
      rotate_files rf maxFiles j g'
  end.

Definition rotateLogs (rf : RotationFaults) (lg : Logger) (w : World)
  : Completion string World :=
  match logdir w with
  | Some d =>
      match active d with
      | Some logFile =>
          stats_size ← fsCall (statSync_fault rf) (size_of logFile);
          if decide (maxLogSize lg < stats_size) then
            g ← rotate_files rf (maxLogFiles lg) (maxLogFiles lg - 1) (gens d);
            g1 ← fsCall (renameSync_fault rf) (<[1 := logFile]> g);
            mret {| logdir := Some {| active := None; gens := g1;
                                      nextBorn := nextBorn d |};
                    console := console w; clock := clock w |}
          else mret w
      | None => mret w
      end
  | None => mret w
  end.

(** *** A rotation check that meets no fault

    [rotate_loop], [rotateDir] and [rotateWorld] are what the loop, the
    check and the world come to when every call succeeds; a check that
    returns has returned exactly this ([rotateLogs_returns] below). *)
Fixpoint rotate_loop (maxFiles i : nat) (g : gmap nat File) : gmap nat File :=
  match i with
  | 0 => g
  | S j =>
      let g' :=
        match g !! i with
        | Some oldFile =>
            if decide (i = maxFiles - 1) then delete i g
            else <[i + 1 := oldFile]> (delete i g)
        | None => g
        end in
      rotate_loop maxFiles j g'
  end.

Definition rotateDir (lg : Logger) (d : LogDir) : LogDir :=
  match active d with
  | Some logFile =>
      if decide (maxLogSize lg < size_of logFile) then
        let g := rotate_loop (maxLogFiles lg) (maxLogFiles lg - 1) (gens d) in
        {| active := None; gens := <[1 := logFile]> g; nextBorn := nextBorn d |}
      else d
  | None => d
  end.

Definition rotateWorld (lg : Logger) (w : World) : World :=
  match logdir w with
  | Some d =>
      {| logdir := Some (rotateDir lg d); console := console w;
         clock := clock w |}
  | None => w
  end.

(** [new Logger(config)]. *)
Definition Logger_new (mkdir_fault : Fault) (rf : RotationFaults)
    (config : Config) (w : World) : Completion string (Logger * World) :=
  let this := Logger_fields config in
  w1 ← ensureLogDirectory mkdir_fault w;
  w2 ← rotateLogs rf this w1;
  mret (this, w2).

Definition formatMessage (lg : Logger) (lvl : nat) (message : string)
    (meta : JsObj) (w : World) : JsObj :=
  let timestamp := toISOString host (clock w) in
  let levelName := from_option VStr VUndef (LogLevelNames !! lvl) in
  obj_spread
    [("timestamp", VStr timestamp); ("level", levelName);
     ("module", VStr (module lg)); ("message", VStr message)]
    meta.

(** The characters [\x1b] and [\n]. *)
Definition esc : string := String (Ascii.ascii_of_nat 27) EmptyString.
Definition newline : string := String (Ascii.ascii_of_nat 10) EmptyString.

Definition colors : list (string * string) :=
  [("ERROR", esc +:+ "[31m"); ("WARN", esc +:+ "[33m");
   ("INFO", esc +:+ "[36m"); ("DEBUG", esc +:+ "[90m");
   ("TRACE", esc +:+ "[37m")].

Fixpoint assoc (k : string) (l : list (string * string)) : option string :=
  match l with
  | [] => None
  | (k', v) :: l' => if decide (k' = k) then Some v else assoc k l'
  end.

(** [colors[level]]: a key of the literal, else a property the literal
    inherits, else [undefined]. *)
Definition colorOf (level : JsVal) : option string :=
  let key := toDisplay level in
  match assoc key colors with
  | Some code => Some code
  | None =>
      if decide (key ∈ inheritedNames) then Some (inheritedText host key)
      else None
  end.

Definition formatForConsole (logEntry : JsObj) : string :=
  let reset := esc +:+ "[0m" in
  let color := str_or (colorOf (obj_get "level" logEntry)) EmptyString in
  let output :=
    color +:+ "[" +:+ toDisplay (obj_get "timestamp" logEntry) +:+ "] ["
      +:+ toDisplay (obj_get "level" logEntry) +:+ "] ["
      +:+ toDisplay (obj_get "module" logEntry) +:+ "]" +:+ reset +:+ " "
      +:+ toDisplay (obj_get "message" logEntry) in
  if decide (4 < length (obj_keys logEntry)) then
    let meta :=
      obj_delete "message" (obj_delete "module"
        (obj_delete "level" (obj_delete "timestamp" logEntry))) in
    if decide (0 < length (obj_keys meta))
    then output +:+ " " +:+ JSON_stringify host meta
    else output
  else output.

Definition formatForFile (logEntry : JsObj) : string :=
  JSON_stringify host logEntry.

Definition console_call (m : ConsoleMethod) (a : list string) (w : World)
  : World :=
  {| logdir := logdir w; console := console w ++ [{| method := m; args := a |}];
     clock := clock w |}.

(** What a successful append does to the directory: the active file grows
    by [text], and is created first when it is missing. *)
Definition appendActive (text : string) (d : LogDir) : LogDir :=
  match active d with
  | Some f =>
      {| active := Some {| born := born f; data := data f +:+ text |};
         gens := gens d; nextBorn := nextBorn d |}
  | None =>
      {| active := Some {| born := nextBorn d; data := text |};
         gens := gens d; nextBorn := S (nextBorn d) |}
  end.

(** [fs.appendFileSync(logFile, text, 'utf8')]: fails when the operating
    system says so or when the directory is not there. *)
Definition appendFileSync (fault : Fault) (text : string) (w : World)
  : Completion string World :=
  match fault, logdir w with
  | Some msg, _ => Throw msg
  | None, None => Throw "ENOENT: no such file or directory"
  | None, Some d =>
      Normal {| logdir := Some (appendActive text d); console := console w;
                clock := clock w |}
  end.

Definition includes (x : string) (l : list string) : bool := bool_decide (x ∈ l).

Definition write (append_fault : Fault) (lg : Logger) (lvl : nat)
    (message : string) (meta : JsObj) (w : World) : Completion string World :=
  if decide (level lg < lvl) then Normal w
  else
    let logEntry := formatMessage lg lvl message meta w in
    let w1 :=
      if includes "console" (outputs lg) then
        let formatted := formatForConsole logEntry in
        if decide (lvl = ERROR) then console_call ConsoleError [formatted] w
        else if decide (lvl = WARN) then console_call ConsoleWarn [formatted] w
        else console_call ConsoleLog [formatted] w
      else w in
    if includes "file" (outputs lg) then
      let formatted := formatForFile logEntry +:+ newline in
      try_catch (appendFileSync append_fault formatted w1)
        (λ e, Normal (console_call ConsoleError
                        ["Failed to write to log file:"; e] w1))
    else Normal w1.

(** The convenience methods; an omitted [meta] is [{}]. *)
Definition error (af : Fault) (lg : Logger) (message : string) (meta : JsObj) :=
  write af lg ERROR message meta.
Definition warn (af : Fault) (lg : Logger) (message : string) (meta : JsObj) :=
  write af lg WARN message meta.
Definition info (af : Fault) (lg : Logger) (message : string) (meta : JsObj) :=
  write af lg INFO message meta.
Definition debug (af : Fault) (lg : Logger) (message : string) (meta : JsObj) :=
  write af lg DEBUG message meta.
Definition trace (af : Fault) (lg : Logger) (message : string) (meta : JsObj) :=
  write af lg TRACE message meta.

(** [child(moduleName)]. *)
Definition child (mkdir_fault : Fault) (rf : RotationFaults) (lg : Logger)
    (moduleName : string) (w : World) : Completion string (Logger * World) :=
  Logger_new mkdir_fault rf
    {| cfg_level := Some (level lg); cfg_module := Some moduleName;
       cfg_outputs := Some (outputs lg); cfg_logDir := Some (logDir lg);
       cfg_maxLogSize := Some (maxLogSize lg);
       cfg_maxLogFiles := Some (maxLogFiles lg) |}
    w.

(** *** Vocabulary of the statements about the logger *)

(** The console call that carries a record of level [lvl]. *)
Definition consoleRecord (lvl : nat) (logEntry : JsObj) : ConsoleCall :=
  {| method :=
       if decide (lvl = ERROR) then ConsoleError
       else if decide (lvl = WARN) then ConsoleWarn else ConsoleLog;
     args := [formatForConsole logEntry] |}.

(** The line a record occupies in the log file. *)
Definition fileRecord (logEntry : JsObj) : string :=
  formatForFile logEntry +:+ newline.

(** The notice printed in place of a record the file refused. *)
Definition fallbackNotice (e : string) : ConsoleCall :=
  {| method := ConsoleError; args := ["Failed to write to log file:"; e] |}.

(** [w'] is [w] after [logEntry] went out once to every destination in
    [outs]: one console call when the console is a destination; one line
    appended to the active file when the file is a destination and the
    append succeeds, and the fallback notice on the console when it does
    not. *)
Definition EmittedOnce (af : Fault) (outs : list string) (lvl : nat)
    (logEntry : JsObj) (w w' : World) : Prop :=
  let onConsole :=
    if bool_decide ("console" ∈ outs) then [consoleRecord lvl logEntry] else [] in
  clock w' = clock w ∧
  match bool_decide ("file" ∈ outs), af, logdir w with
  | false, _, _ =>
      logdir w' = logdir w ∧ console w' = console w ++ onConsole
  | true, None, Some d =>
      logdir w' = Some (appendActive (fileRecord logEntry) d) ∧
      console w' = console w ++ onConsole
  | true, Some e, _ =>
      logdir w' = logdir w ∧
      console w' = console w ++ onConsole ++ [fallbackNotice e]
  | true, None, None =>
      logdir w' = logdir w ∧
      console w' =
        console w ++ onConsole
          ++ [fallbackNotice "ENOENT: no such file or directory"]
  end.

(** What happens to a running logger: a call of [write], the construction
    of a logger on the same directory ([new Logger], [child],
    [createLogger]: the directory is created when missing, then the rotation
    check runs), or time passing. *)
Inductive Op : Type :=
  | OpWrite (af : Fault) (lvl : nat) (message : string) (meta : JsObj)
  | OpRotate (mkdir_fault : Fault) (rf : RotationFaults)
  | OpTick (dt : nat).

Definition step (lg : Logger) (op : Op) (w : World) : Completion string World :=
  match op with
  | OpWrite af lvl message meta => write af lg lvl message meta w
  | OpRotate mkdir_fault rf =>
      w1 ← ensureLogDirectory mkdir_fault w; rotateLogs rf lg w1
  | OpTick dt =>
      Normal {| logdir := logdir w; console := console w; clock := clock w + dt |}
  end.

Fixpoint run (lg : Logger) (ops : list Op) (w : World)
  : Completion string World :=
  match ops with
  | [] => Normal w
  | op :: ops' => w1 ← step lg op w; run lg ops' w1
  end.

(** Steps taken by several loggers on the one directory, each by the
    logger named with it. *)
Fixpoint runAll (steps : list (Logger * Op)) (w : World)
  : Completion string World :=
  match steps with
  | [] => Normal w
  | s :: steps' => w1 ← step s.1 s.2 w; runAll steps' w1
  end.

End WithHost.

(** A machine on which the log directory has not been created yet. *)
Definition freshWorld (t : nat) : World :=
  {| logdir := None; console := []; clock := t |}.

(** The highest generation number a logger configured with [maxFiles]
    leaves on disk. *)
Definition genCap (maxFiles : nat) : nat := Nat.max 1 (maxFiles - 1).

(** Number of log files in the directory: generations plus the active
    file. *)
Definition fileCount (d : LogDir) : nat :=
  size (gens d) + (if active d is Some _ then 1 else 0).

(** The generations are numbered by increasing age: a higher number was
    created earlier, every generation is older than the active file, and
    no number beyond [cap] is in use. *)
Record Aged (cap : nat) (d : LogDir) : Prop := {
  aged_slots : ∀ i f, gens d !! i = Some f → 1 ≤ i ≤ cap;
  aged_gen_born : ∀ i f, gens d !! i = Some f → born f < nextBorn d;
  aged_active_born : ∀ f, active d = Some f → born f < nextBorn d;
  aged_order :
    ∀ i j fi fj, i < j → gens d !! i = Some fi → gens d !! j = Some fj →
                 born fj < born fi;
  aged_active :
    ∀ i fi fa, gens d !! i = Some fi → active d = Some fa → born fi < born fa
}.


(** A stand-in platform for running the definitions on concrete inputs:
    [JSON.stringify] prints [key=value;] pairs, the time stamp is the
    clock reading in decimal, an inherited property prints as its name in
    brackets. *)
Definition exampleHost : Host :=
  {| JSON_stringify :=
       foldr (λ kv acc, kv.1 +:+ "=" +:+ toDisplay kv.2 +:+ ";" +:+ acc)
         EmptyString;
     toISOString := λ t, pretty t;
     defaultLogDir := "/var/log/edex";
     inheritedText := λ k, "[inherited " +:+ k +:+ "]" |}.

Definition exampleConfig (lvl : option nat) (outs : list string)
    (maxSize maxFiles : nat) : Config :=
  {| cfg_level := lvl; cfg_module := None; cfg_outputs := Some outs;
     cfg_logDir := None; cfg_maxLogSize := Some maxSize;
     cfg_maxLogFiles := Some maxFiles |}.

(** Three rounds of three [info] calls followed by a rotation check. *)
Definition exampleRound : list Op :=
  [OpWrite None INFO "terminal ready" []; OpTick 5;
   OpWrite None INFO "terminal resized" []; OpTick 5;
   OpWrite None INFO "terminal closed" []; OpRotate None noFaults].

Definition exampleOps : list Op := exampleRound ++ exampleRound ++ exampleRound.


End Logger.

(** A call to one of the logger's convenience methods, as the other
    classes issue them: level, message, metadata.  [Logger.write] returns
    nothing, so a class is described by its own state change together with
    the log calls it makes. *)
Definition LogCall : Type := nat * string * Js.JsObj.

(* ===================================================================== *)
(** ** [src/shared/logger/index.js]: class [ErrorTracker]                 *)
(* ===================================================================== *)

Module ErrorTracker.
Import Js.

(** The [error] argument of [trackError]: the three properties read from
    it, and what [String(error)] gives. *)
Record ErrorArg : Type := {
  err_message : JsVal;
  err_stack : JsVal;
  err_type : JsVal;
  err_toString : string
}.

Record Config : Type := {
  cfg_enabled : JsVal;
  cfg_maxErrors : option nat
}.

Record Tracker : Type := {
  enabled : bool;
  maxErrors : nat;
  errors : list JsObj;
  errorCounts : list (JsVal * nat)
}.

Definition ErrorTracker_new (config : Config) : Tracker :=
  {| enabled := negb (bool_decide (cfg_enabled config = VBool false));
     maxErrors := num_or (cfg_maxErrors config) 100;
     errors := [];
     errorCounts := [] |}.

(** The record [trackError] builds; [now] is [Date.now()]. *)
Definition errorRecord (now : nat) (error : ErrorArg) (context : JsObj) : JsObj :=
  obj_spread
    [("timestamp", VNum (Z.of_nat now));
     ("message", or_else (err_message error) (VStr (err_toString error)));
     ("stack", err_stack error);
     ("type", or_else (err_type error) (VStr "error"))]
    context.

Definition trackError (now : nat) (error : ErrorArg) (context : JsObj)
    (t : Tracker) : Tracker * list LogCall :=
  if negb (enabled t) then (t, [])
  else
    let record := errorRecord now error context in
    let pushed := errors t ++ [record] in
    let kept :=
      if decide (maxErrors t < length pushed) then shift pushed else pushed in
    let errorKey := obj_get "message" record in
    let count := default 0 (Map_get errorKey (errorCounts t)) + 1 in
    let counts := Map_set errorKey count (errorCounts t) in
    ({| enabled := enabled t; maxErrors := maxErrors t;
        errors := kept; errorCounts := counts |},
     [(Logger.ERROR, "Error tracked",
       [("type", obj_get "type" record); ("message", obj_get "message" record);
        ("count", VNum (Z.of_nat count))])]).

Record Summary : Type := {
  totalErrors : nat;
  recentErrors : list JsObj;
  topErrors : list (JsVal * nat)
}.

(** The comparator [(a, b) => b[1] - a[1]] is non-positive exactly when
    [b]'s count is at most [a]'s. *)
Definition byCountDesc (a b : JsVal * nat) : bool := bool_decide (b.2 ≤ a.2)%nat.

Definition getErrorSummary (t : Tracker) : Summary :=
  let sorted := take 5 (array_sort byCountDesc (errorCounts t)) in
  {| totalErrors := length (errors t);
     recentErrors := slice_last 10 (errors t);
     topErrors := sorted |}.

Definition clearErrors (t : Tracker) : Tracker * list LogCall :=
  ({| enabled := enabled t; maxErrors := maxErrors t;
      errors := []; errorCounts := [] |},
   [(Logger.INFO, "Error history cleared", [])]).

(** A run of [trackError] calls, each at its own reading of the clock. *)
Definition Call : Type := nat * ErrorArg * JsObj.

Definition trackAll (calls : list Call) (t : Tracker) : Tracker :=
  foldl (λ t c, (trackError c.1.1 c.1.2 c.2 t).1) t calls.

(** *** Vocabulary of the statements about the tracker *)

(** The record a call stores and the message it is counted under. *)
Definition recordOf (c : Call) : JsObj := errorRecord c.1.1 c.1.2 c.2.
Definition keyOf (c : Call) : JsVal := obj_get "message" (recordOf c).

(** How many of the calls carry the message [msg]. *)
Definition occurrences (msg : JsVal) (calls : list Call) : nat :=
  length (filter (λ c, keyOf c = msg) calls).

(** The distinct messages in the order in which each first occurred. *)
Definition firstSeen (keys : list JsVal) : list JsVal :=
  foldl (λ seen k, if decide (k ∈ seen) then seen else seen ++ [k]) [] keys.

(** After [calls] on a tracker built from [cfg]: the history is the most
    recent [maxErrors] records, in the order of the calls. *)
Definition HistoryMostRecent (cfg : Config) (calls : list Call) : Prop :=
  let t := trackAll calls (ErrorTracker_new cfg) in
  errors t = slice_last (maxErrors t) (recordOf <$> calls).

(** After [calls] on a tracker built from [cfg]: the message [msg] is
    counted as often as it was tracked, and the summary lists it with that
    count. *)
Definition CountedAndListed (cfg : Config) (calls : list Call) (msg : JsVal)
  : Prop :=
  let t := trackAll calls (ErrorTracker_new cfg) in
  Map_get msg (errorCounts t) = Some (occurrences msg calls) ∧
  (msg, occurrences msg calls) ∈ topErrors (getErrorSummary t).

Definition exampleConfig (on : JsVal) (cap : nat) : Config :=
  {| cfg_enabled := on; cfg_maxErrors := Some cap |}.

Definition exampleError (msg : string) : ErrorArg :=
  {| err_message := VStr msg; err_stack := VUndef; err_type := VUndef;
     err_toString := "Error: " +:+ msg |}.

Definition exampleCalls : list Call :=
  [(1, exampleError "boom", []); (2, exampleError "bang", []);
   (3, exampleError "boom", [("module", VStr "terminal")])].

End ErrorTracker.

(* ===================================================================== *)
(** ** [src/shared/monitoring/performance-monitor.js]                     *)
(* ===================================================================== *)

Module PerformanceMonitor.
Import Js.

(** A stored sample [{ timestamp, value, ...metadata }].  [timestamp] and
    [value] are the two fields as the call computes them and [metadata] the
    bag spread after them; a [timestamp] or [value] key in that bag replaces
    the field in the stored object.  The wrappers of this class pass [{}] or
    [{ error: true }]. *)
Record Sample : Type := {
  timestamp : nat;
  value : Qc;
  metadata : JsObj
}.

Record Config : Type := {
  cfg_enabled : JsVal;
  cfg_sampleInterval : option nat;
  cfg_maxSamples : option nat
}.

(** [metrics] holds the series kept as arrays in [this.metrics] ([fps],
    [memory], ...) by name, and [custom] the series kept in
    [this.metrics.custom], by metric name.  Both are plain objects used as
    maps: the own properties are the maps here, and a read also finds the
    properties every object inherits ([inheritedNames]). *)
Record Monitor : Type := {
  enabled : bool;
  sampleInterval : nat;
  maxSamples : nat;
  metrics : gmap string (list Sample);
  custom : gmap string (list Sample)
}.

Definition builtinSeries : gmap string (list Sample) :=
  list_to_map
    [("fps", []); ("memory", []); ("cpu", []); ("renderTime", []);
     ("inputLatency", [])].

Definition PerformanceMonitor_new (config : Config) : Monitor :=
  {| enabled := negb (bool_decide (cfg_enabled config = VBool false));
     sampleInterval := num_or (cfg_sampleInterval config) 1000;
     maxSamples := num_or (cfg_maxSamples config) 300;
     metrics := builtinSeries;
     custom := ∅ |}.

(** [series.push(sample)] followed by the size check and [shift()]. *)
Definition push_bounded (cap : nat) (sample : Sample) (series : list Sample)
  : list Sample :=
  let pushed := series ++ [sample] in
  if decide (cap < length pushed) then shift pushed else pushed.

(** [recordSample(metricName, value)].  [this.metrics[metricName]] is truthy
    and no array for ['custom'], which is the object of the custom series,
    and for every inherited name: no array is created then, and calling
    [.push] on what is found throws a [TypeError] before anything is
    stored. *)
Definition recordSample (now : nat) (metricName : string) (v : Qc)
    (m : Monitor) : Completion EngineError Monitor :=
  if decide (metricName = "custom" ∨ metricName ∈ inheritedNames) then
    Throw TypeError
  else
    let series := default [] (metrics m !! metricName) in
    let sample := {| timestamp := now; value := v; metadata := [] |} in
    Normal
      {| enabled := enabled m; sampleInterval := sampleInterval m;
         maxSamples := maxSamples m;
         metrics := <[metricName := push_bounded (maxSamples m) sample series]>
                      (metrics m);
         custom := custom m |}.

(** [recordMetric(name, value, metadata = {})].  After the [enabled] gate,
    [this.metrics.custom[name]] is truthy and no array for every inherited
    name, and [.push] on it throws a [TypeError] before anything is
    stored. *)
Definition recordMetric (now : nat) (name : string) (v : Qc)
    (meta : JsObj) (m : Monitor) : Completion EngineError Monitor :=
  if negb (enabled m) then Normal m
  else if decide (name ∈ inheritedNames) then Throw TypeError
  else
    let series := default [] (custom m !! name) in
    let sample := {| timestamp := now; value := v; metadata := meta |} in
    Normal
      {| enabled := enabled m; sampleInterval := sampleInterval m;
         maxSamples := maxSamples m;
         metrics := metrics m;
         custom := <[name := push_bounded (maxSamples m) sample series]>
                     (custom m) |}.

(** What [calculateStats] returns; an index past the end of [sorted] reads
    as [undefined], here [None].  The values are rationals: [min], [max],
    the percentiles and [count] are computed by comparisons and indexing
    alone and are exact; [avg] is the exact quotient, which the code's
    floating-point sum and division round. *)
Record Stats : Type := {
  min : Qc;
  max : Qc;
  avg : Qc;
  median : option Qc;
  p95 : option Qc;
  p99 : option Qc;
  count : nat
}.

Definition Qc_min (a b : Qc) : Qc := if decide (a ≤ b)%Qc then a else b.
Definition Qc_max (a b : Qc) : Qc := if decide (a ≤ b)%Qc then b else a.
Definition Qc_of_nat (n : nat) : Qc := Qc_of_Z (Z.of_nat n).

(** The comparator [(a, b) => a - b] is non-positive exactly when
    [a <= b]. *)
Definition ascending (a b : Qc) : bool := bool_decide (a ≤ b)%Qc.

(** [Math.floor(length * p)] for [p] given in hundredths.  On every array
    length the double-precision product rounds to the same integer part as
    the exact one, so the index is computed on integers. *)
Definition percentileIndex (len hundredths : nat) : nat :=
  (len * hundredths) `div` 100.

Definition calculateStats (samples : option (list Sample)) : option Stats :=
  match samples with
  | None | Some [] => None
  | Some (s :: rest) =>
      let values := value <$> (s :: rest) in
      let sorted := array_sort ascending values in
      Some {| min := foldl Qc_min (value s) (value <$> rest);
              max := foldl Qc_max (value s) (value <$> rest);
              avg := (foldl Qcplus 0%Qc values / Qc_of_nat (length values))%Qc;
              median := sorted !! (length sorted `div` 2);
              p95 := sorted !! percentileIndex (length sorted) 95;
              p99 := sorted !! percentileIndex (length sorted) 99;
              count := length values |}
  end.

(** *** Timing

    One clock, counted in microseconds, backs both [Date.now()] (whole
    milliseconds) and [performance.now()] (fractional milliseconds); it never
    runs backwards, so the time a piece of work takes is a natural number of
    ticks. *)
Definition Date_now (t : nat) : nat := t `div` 1000.
Definition performance_now (t : nat) : Qc := (Qc_of_nat t / Qc_of_nat 1000)%Qc.

(** One execution of the measured function: how it settles and how long it
    ran.  For [measureAsync] the outcome is that of the awaited promise.  The
    function itself is taken not to call into the monitor. *)
Record Run (E A : Type) : Type := {
  outcome : Completion E A;
  took : nat
}.
Arguments outcome {E A} r.
Arguments took {E A} r.

Section Measure.
Context (toFixed : nat → Qc → string).
Context {E A : Type}.

Definition slowWarning (name : string) (duration : Qc) : list LogCall :=
  if decide (Qc_of_nat 100 < duration)%Qc then
    [(Logger.WARN, "Slow operation detected",
      [("name", VStr name); ("durationMs", VStr (toFixed 2 duration))])]
  else [].

(** The [catch (error)] block of both wrappers, entered with the monitor
    as [m]: it records the failure and throws [error] again, unless
    [recordMetric] throws first.  What reaches the caller is the value the
    measured function failed with, or an error of the engine's own. *)
Definition rethrow (name : string) (now : nat) (duration : Qc) (error : E + EngineError)
    (m : Monitor) : Completion (E + EngineError) A * Monitor * list LogCall :=
  match recordMetric now name duration [("error", VBool true)] m with
  | Normal m' => (Throw error, m', [])
  | Throw e => (Throw (inr e), m, [])
  end.

(** [measure(name, fn)], entered when the clock reads [t].  What
    [recordMetric] throws inside the [try] is caught by the [catch] like a
    failure of [fn]. *)
Definition measure (name : string) (fn : Run E A) (t : nat) (m : Monitor)
  : Completion (E + EngineError) A * Monitor * list LogCall :=
  let start := performance_now t in
  match outcome fn with
  | Normal result =>
      let duration := (performance_now (t + took fn) - start)%Qc in
      match recordMetric (Date_now (t + took fn)) name duration [] m with
      | Normal m' => (Normal result, m', slowWarning name duration)
      | Throw e =>
          let duration := (performance_now (t + took fn) - start)%Qc in
          rethrow name (Date_now (t + took fn)) duration (inr e) m
      end
  | Throw error =>
      let duration := (performance_now (t + took fn) - start)%Qc in
      rethrow name (Date_now (t + took fn)) duration (inl error) m
  end.

(** [measureAsync(name, fn)]: [m] is the monitor as it stands when the
    awaited promise settles; the completion describes the promise the async
    method returns (fulfilled or rejected). *)
Definition measureAsync (name : string) (fn : Run E A) (t : nat) (m : Monitor)
  : Completion (E + EngineError) A * Monitor * list LogCall :=
  let start := performance_now t in
  match outcome fn with
  | Normal result =>
      let duration := (performance_now (t + took fn) - start)%Qc in
      match recordMetric (Date_now (t + took fn)) name duration [] m with
      | Normal m' => (Normal result, m', slowWarning name duration)
      | Throw e =>
          let duration := (performance_now (t + took fn) - start)%Qc in
          rethrow name (Date_now (t + took fn)) duration (inr e) m
      end
  | Throw error =>
      let duration := (performance_now (t + took fn) - start)%Qc in
      rethrow name (Date_now (t + took fn)) duration (inl error) m
  end.

(** The outcome of the measured function as the caller of a wrapper sees
    it when the wrapper passes it on. *)
Definition passed (c : Completion E A) : Completion (E + EngineError) A :=
  match c with
  | Normal result => Normal result
  | Throw error => Throw (inl error)
  end.

End Measure.

(** A run of [recordMetric] calls on one monitor: time, name, value and
    metadata.  A call that throws has stored nothing, and the run goes on
    with the monitor as it was. *)
Definition MetricCall : Type := nat * string * Qc * JsObj.

Definition recordAll (calls : list MetricCall) (m : Monitor) : Monitor :=
  foldl (λ m c, match recordMetric c.1.1.1 c.1.1.2 c.1.2 c.2 m with
                | Normal m' => m'
                | Throw _ => m
                end) m calls.

Definition sampleOf (c : MetricCall) : Sample :=
  {| timestamp := c.1.1.1; value := c.1.2; metadata := c.2 |}.

(** *** Vocabulary of the statements about the monitor *)

Definition nameOf (c : MetricCall) : string := c.1.1.2.

(** The calls made under [name], in order. *)
Definition namedCalls (name : string) (calls : list MetricCall) : list MetricCall :=
  filter (λ c, nameOf c = name) calls.

(** The series stored under [name]; a name never recorded has none. *)
Definition seriesOf (name : string) (m : Monitor) : list Sample :=
  default [] (custom m !! name).

(** After [calls] on a monitor built from [cfg]: the series of [name] is the
    most recent [maxSamples] samples recorded under it, in the order of the
    calls. *)
Definition HoldsMostRecent (cfg : Config) (name : string)
    (calls : list MetricCall) : Prop :=
  let m := recordAll calls (PerformanceMonitor_new cfg) in
  seriesOf name m = slice_last (maxSamples m) (sampleOf <$> namedCalls name calls).

(** What a measuring wrapper entered at clock reading [t] owes: the caller
    gets the function's own outcome (its result, or the very value it
    threw), and the series of [name] has gained, at its end, one sample
    whose value is the time the function ran, which is not negative, flagged
    [error: true] exactly when the function failed. *)
Definition RecordsAndPasses {E A : Type}
    (result : Completion (E + EngineError) A * Monitor * list LogCall)
    (name : string) (fn : Run E A) (t : nat) (before : Monitor) : Prop :=
  result.1.1 = passed (outcome fn) ∧
  ∃ s, seriesOf name result.1.2 =
         slice_last (maxSamples before) (seriesOf name before ++ [s]) ∧
       last (seriesOf name result.1.2) = Some s ∧
       value s = (performance_now (t + took fn) - performance_now t)%Qc ∧
       (0 ≤ value s)%Qc ∧
       obj_get "error" (metadata s) =
         match outcome fn with Throw _ => VBool true | Normal _ => VUndef end.

Definition exampleToFixed (digits : nat) (q : Qc) : string :=
  pretty (Qnum (this q)) +:+ "/" +:+ pretty (Z.pos (Qden (this q))).

Definition exampleConfig (on : JsVal) (cap : nat) : Config :=
  {| cfg_enabled := on; cfg_sampleInterval := None; cfg_maxSamples := Some cap |}.

Definition exampleMetricCalls : list MetricCall :=
  [(10, "render", Qc_of_nat 1, []); (20, "render", Qc_of_nat 2, []);
   (30, "render", Qc_of_nat 3, [])].

(** A function that throws ["boom"] after 5000 ticks, and one that returns
    [7] after 250. *)
Definition exampleThrowing : Run string nat :=
  {| outcome := Throw "boom"; took := 5000 |}.
Definition exampleReturning : Run string nat :=
  {| outcome := Normal 7; took := 250 |}.

End PerformanceMonitor.

(* ===================================================================== *)
(** ** [src/shared/monitoring/health-check.js]                            *)
(* ===================================================================== *)

Module HealthCheck.
Import Js.

(** What a module's [check] resolves to: the three properties
    [checkModule] reads, [VUndef] / [None] when the property is missing. *)
Record CheckResult : Type := {
  res_healthy : JsVal;
  res_metrics : option JsObj;
  res_message : JsVal
}.

(** What a check can throw, or its promise be rejected with: any value at
    all, an object (as a rule an [Error]) or a primitive; [Promise.reject()]
    rejects with [undefined]. *)
Inductive Thrown : Type :=
  | ThrownObject (o : JsObj)
  | ThrownValue (v : JsVal).

(** [error.message] on the caught value: the property of an object;
    [undefined] on a boolean, a number or a string, whose wrappers have no
    such property; and a [TypeError] on [undefined] and [null], which have
    no properties to read. *)
Definition error_message (error : Thrown) : Completion EngineError JsVal :=
  match error with
  | ThrownObject o => Normal (obj_get "message" o)
  | ThrownValue VUndef | ThrownValue VNull => Throw TypeError
  | ThrownValue _ => Normal VUndef
  end.

(** One invocation of [check], as the [try] block of [checkModule] sees it,
    after [took] milliseconds: the awaited promise is fulfilled with a
    result object, or control passes to the [catch] with a thrown value.
    That is the value [check] threw or rejected with, or the error object
    of the engine when [check] is no function or its promise is fulfilled
    with [undefined] or [null], whose [healthy] cannot be read. *)
Record CheckRun : Type := {
  settled : Completion Thrown CheckResult;
  took : nat
}.

(** The status objects the registry hands out. *)
Inductive Status : Type :=
  | Checked (name : string) (timestamp : nat) (healthy : bool)
      (metrics : JsObj) (message : JsVal) (checkDuration : nat)
  | Failed (name : string) (timestamp : nat) (error : JsVal)
      (consecutiveFailures : nat)
  | NotYetChecked (name : string).

(** The [healthy] property of a status object. *)
Definition healthyOf (s : Status) : JsVal :=
  match s with
  | Checked _ _ h _ _ _ => VBool h
  | Failed _ _ _ _ => VBool false
  | NotYetChecked _ => VNull
  end.

(** The [message] property. *)
Definition messageOf (s : Status) : JsVal :=
  match s with
  | Checked _ _ _ _ msg _ => msg
  | Failed _ _ _ _ => VUndef
  | NotYetChecked _ => VStr "Not yet checked"
  end.

Section WithEnv.
(** [Env] is the state of the application the health predicates look at. *)
Context {Env : Type}.

Record ModuleEntry : Type := {
  name : string;
  check : Env → CheckRun;
  lastCheck : option nat;
  lastStatus : option Status;
  consecutiveFailures : nat
}.

Record System : Type := {
  modules : list (string * ModuleEntry);
  checkInterval : nat
}.

Definition HealthCheckSystem_new (checkInterval : option nat) : System :=
  {| modules := []; checkInterval := num_or checkInterval 60000 |}.

Definition registerModule (nm : string) (chk : Env → CheckRun) (sys : System)
  : System * list LogCall :=
  let warning :=
    match Map_get nm (modules sys) with
    | Some _ =>
        [(Logger.WARN, "Module already registered, overwriting",
          [("name", VStr nm)])]
    | None => []
    end in
  ({| modules :=
        Map_set nm {| name := nm; check := chk; lastCheck := None;
                      lastStatus := None; consecutiveFailures := 0 |}
          (modules sys);
      checkInterval := checkInterval sys |},
   warning ++ [(Logger.INFO, "Module registered for health checks",
                [("name", VStr nm)])]).

Definition update (nm : string) (e : ModuleEntry) (sys : System) : System :=
  {| modules := Map_set nm e (modules sys);
     checkInterval := checkInterval sys |}.

(** [checkModule(name)], entered when [Date.now()] reads [now].  The check
    takes [took] milliseconds, and the readings of the clock after it all
    give [now + took]; no other call on the registry runs while the check
    is awaited.  The object [module] is the entry stored in the map, so
    assignments to its properties are updates of that entry.

    The result is how the promise of the method settles, fulfilled with a
    status or [null], or rejected, together with the registry and the calls
    of the logger as they stand then.  The [catch] block starts by reading
    [error.message] for the logger; when that read throws, the method
    rejects before it has logged, counted or built a status. *)
Definition checkModule (nm : string) (env : Env) (now : nat) (sys : System)
  : Completion EngineError (option Status) * System * list LogCall :=
  match Map_get nm (modules sys) with
  | None =>
      (Normal None, sys,
       [(Logger.ERROR, "Module not found", [("name", VStr nm)])])
  | Some module =>
      let run := check module env in
      let later := now + took run in
      match settled run with
      | Normal result =>
          let status :=
            Checked nm later
              (negb (bool_decide (res_healthy result = VBool false)))
              (default [] (res_metrics result))
              (res_message result)
              (later - now) in
          if negb (bool_decide (res_healthy result = VBool false)) then
            (Normal (Some status),
             update nm {| name := name module; check := check module;
                          lastCheck := Some later; lastStatus := Some status;
                          consecutiveFailures := 0 |} sys,
             [])
          else
            (Normal (Some status),
             update nm {| name := name module; check := check module;
                          lastCheck := Some later; lastStatus := Some status;
                          consecutiveFailures := consecutiveFailures module + 1 |}
               sys,
             [(Logger.WARN, "Module health check failed",
               [("name", VStr nm);
                ("consecutiveFailures",
                 VNum (Z.of_nat (consecutiveFailures module + 1)));
                ("message", res_message result)])])
      | Throw error =>
          match error_message error with
          | Normal message =>
              (Normal (Some (Failed nm later message
                               (consecutiveFailures module + 1))),
               update nm {| name := name module; check := check module;
                            lastCheck := lastCheck module;
                            lastStatus := lastStatus module;
                            consecutiveFailures :=
                              consecutiveFailures module + 1 |}
                 sys,
               [(Logger.ERROR, "Health check error",
                 [("name", VStr nm); ("error", message)])])
          | Throw e => (Throw e, sys, [])
          end
      end
  end.

Record LastStatus : Type := {
  ls_timestamp : nat;
  ls_overall : string;
  ls_modules : list Status;
  ls_totalModules : nat
}.

Definition getLastStatus (now : nat) (sys : System) : LastStatus :=
  let statuses :=
    (λ kv, match lastStatus kv.2 with
           | Some s => s
           | None => NotYetChecked kv.1
           end) <$> modules sys in
  {| ls_timestamp := now;
     ls_overall :=
       if forallb (λ s, bool_decide (healthyOf s = VBool true)) statuses
       then "healthy"
       else if existsb (λ s, bool_decide (healthyOf s = VBool false)) statuses
       then "degraded" else "unknown";
     ls_modules := statuses;
     ls_totalModules := length (modules sys) |}.

Definition unregisterModule (nm : string) (sys : System)
  : System * list LogCall :=
  match Map_get nm (modules sys) with
  | Some _ =>
      ({| modules := Map_delete nm (modules sys);
          checkInterval := checkInterval sys |},
       [(Logger.INFO, "Module unregistered from health checks",
         [("name", VStr nm)])])
  | None => (sys, [])
  end.

(** *** Vocabulary of the statements about the registry *)

Definition failuresOf (nm : string) (sys : System) : option nat :=
  consecutiveFailures <$> Map_get nm (modules sys).

(** The check of [nm] run once for each state of the application in
    [envs], each at its own time. *)
Definition checkRepeatedly (nm : string) (envs : list (Env * nat))
    (sys : System) : System :=
  foldl (λ s en, (checkModule nm en.1 en.2 s).1.2) sys envs.

(** The check answers with an object whose [healthy] property is [h]. *)
Definition answers (chk : Env → CheckRun) (h : JsVal) (env : Env) : Prop :=
  ∃ r, settled (chk env) = Normal r ∧ res_healthy r = h.

(** The check throws, or its promise is rejected, with [error]. *)
Definition fails (chk : Env → CheckRun) (error : Thrown) (env : Env) : Prop :=
  settled (chk env) = Throw error.

(** The status [getLastStatus] reports for an entry. *)
Definition cachedStatus (nm : string) (e : ModuleEntry) : Status :=
  default (NotYetChecked nm) (lastStatus e).

(** What the registry goes through: registrations, removals and checks. *)
Inductive Reachable : System → Prop :=
  | reach_new interval : Reachable (HealthCheckSystem_new interval)
  | reach_register nm chk sys :
      Reachable sys → Reachable (registerModule nm chk sys).1
  | reach_unregister nm sys :
      Reachable sys → Reachable (unregisterModule nm sys).1
  | reach_check nm env now sys :
      Reachable sys → Reachable (checkModule nm env now sys).1.2.

End WithEnv.
Arguments ModuleEntry : clear implicits.
Arguments System : clear implicits.

(** A failure status, as [checkModule] returns it from its [catch]. *)
Definition isFailure (s : Status) : Prop :=
  match s with Failed _ _ _ _ => True | _ => False end.

(** An application whose state is a number; the example check is unhealthy
    below 3, healthy from 3 on, throws an error object at 99 and rejects
    with no reason, as [Promise.reject()] does, at 98. *)
Definition exampleCheck (env : nat) : CheckRun :=
  {| settled :=
       if decide (env = 99) then
         Throw (ThrownObject [("message", VStr "unreachable")])
       else if decide (env = 98) then Throw (ThrownValue VUndef)
       else Normal {| res_healthy := VBool (bool_decide (3 ≤ env));
                      res_metrics := None; res_message := VUndef |};
     took := 4 |}.

Definition exampleSystem : System nat :=
  (registerModule "terminal" exampleCheck (HealthCheckSystem_new None)).1.

End HealthCheck.

(* ===================================================================== *)
(** ** [src/shared/logger/index.js]: the process-wide logger              *)
(* ===================================================================== *)

Module LoggerGlobal.
Import Js Logger.

(** The object [LogLevel], read by name. *)
Definition LogLevel : list (string * nat) :=
  [("ERROR", ERROR); ("WARN", WARN); ("INFO", INFO); ("DEBUG", DEBUG);
   ("TRACE", TRACE)].

(** The two variables read from [process.env]; [None] is an unset
    variable. *)
Record ProcessEnv : Type := {
  LOG_LEVEL : option string;
  NODE_ENV : option string
}.

(** The module-level variable [globalLogger] together with the world. *)
Record Process : Type := {
  globalLogger : option Logger;
  world : World
}.

Section WithHost.
Context (host : Host).
(** [String.prototype.toUpperCase]. *)
Context (toUpperCase : string → string).

(** The configuration [getLogger] builds from the environment. *)
Definition envConfig (env : ProcessEnv) : Config :=
  {| cfg_level :=
       match LOG_LEVEL env with
       | Some s =>
           if String.eqb s EmptyString then Some INFO
           else Map_get (toUpperCase s) LogLevel
       | None => Some INFO
       end;
     cfg_module := None;
     cfg_outputs :=
       Some (if decide (NODE_ENV env = Some "production") then ["file"]
             else ["console"; "file"]);
     cfg_logDir := None;
     cfg_maxLogSize := None;
     cfg_maxLogFiles := None |}.

(** [initialize(config)]: the assignment happens only when the constructor
    returns. *)
Definition initialize (mkdir_fault : Fault) (rf : RotationFaults)
    (config : Config) (p : Process) : Completion string (Logger * Process) :=
  r ← Logger_new host mkdir_fault rf config (world p);
  mret (r.1, {| globalLogger := Some r.1; world := r.2 |}).

Definition getLogger (env : ProcessEnv) (mkdir_fault : Fault)
    (rf : RotationFaults) (p : Process) : Completion string (Logger * Process) :=
  match globalLogger p with
  | Some lg => Normal (lg, p)
  | None =>
      r ← Logger_new host mkdir_fault rf (envConfig env) (world p);
      mret (r.1, {| globalLogger := Some r.1; world := r.2 |})
  end.

(** [createLogger(moduleName)] is [getLogger().child(moduleName)]. *)
Definition createLogger (env : ProcessEnv) (mkdir_fault : Fault)
    (rf : RotationFaults) (moduleName : string) (p : Process)
  : Completion string (Logger * Process) :=
  g ← getLogger env mkdir_fault rf p;
  c ← child host mkdir_fault rf g.1 moduleName (world g.2);
  mret (c.1, {| globalLogger := globalLogger g.2; world := c.2 |}).

End WithHost.

(** The four fields every record starts with. *)
Definition standardKeys : list string :=
  ["timestamp"; "level"; "module"; "message"].

Definition idleProcess (t : nat) : Process :=
  {| globalLogger := None; world := freshWorld t |}.

(** An upper-casing of the letters a to z, for running examples. *)
Definition asciiUpper (s : string) : string :=
  String.string_of_list_ascii
    ((λ c, let n := Ascii.nat_of_ascii c in
           if decide (97 ≤ n ∧ n ≤ 122) then Ascii.ascii_of_nat (n - 32) else c)
       <$> String.list_ascii_of_string s).

End LoggerGlobal.

(* ===================================================================== *)
(** ** [ErrorTracker]: global handlers and queries                        *)
(* ===================================================================== *)

Module ErrorTrackerOps.
Import Js ErrorTracker.

(** The places uncaught failures come from: the [error] and
    [unhandledrejection] events of [window], the [uncaughtException] and
    [unhandledRejection] events of [process]. *)
Inductive Surface : Type :=
  | WindowError
  | WindowRejection
  | ProcessException
  | ProcessRejection.

#[global] Instance Surface_eq_dec : EqDecision Surface.
Proof. solve_decision. Defined.

(** Which of [window] and [process] exist. *)
Record Platform : Type := { hasWindow : bool; hasProcess : bool }.

(** What each surface delivers; objects ([event.promise], a rejection
    reason) are carried by whatever value stands for them. *)
Inductive Event : Type :=
  | ErrorEvent (message filename lineno colno stack : JsVal)
  | RejectionEvent (reason promise : JsVal)
  | UncaughtException (message stack code : JsVal)
  | UnhandledRejection (reason promise : JsVal).

Definition surfaceOf (ev : Event) : Surface :=
  match ev with
  | ErrorEvent _ _ _ _ _ => WindowError
  | RejectionEvent _ _ => WindowRejection
  | UncaughtException _ _ _ => ProcessException
  | UnhandledRejection _ _ => ProcessRejection
  end.

(** The object each listener passes to [handleGlobalError]. *)
Definition errorInfoOf (ev : Event) : JsObj :=
  match ev with
  | ErrorEvent message filename lineno colno stack =>
      [("type", VStr "uncaught-error"); ("message", message);
       ("filename", filename); ("line", lineno); ("column", colno);
       ("stack", stack)]
  | RejectionEvent reason promise =>
      [("type", VStr "unhandled-promise"); ("reason", reason);
       ("promise", promise)]
  | UncaughtException message stack code =>
      [("type", VStr "uncaught-exception"); ("message", message);
       ("stack", stack); ("code", code)]
  | UnhandledRejection reason promise =>
      [("type", VStr "unhandled-rejection"); ("reason", reason);
       ("promise", promise)]
  end.

(** [start()]: [listeners] are the listeners installed so far, in order of
    installation. *)
Definition start (pf : Platform) (t : Tracker) (listeners : list Surface)
  : list Surface * list LogCall :=
  if negb (enabled t) then
    (listeners, [(Logger.INFO, "Error tracking disabled", [])])
  else
    (listeners
       ++ (if hasWindow pf then [WindowError; WindowRejection] else [])
       ++ (if hasProcess pf then [ProcessException; ProcessRejection] else []),
     [(Logger.INFO, "Starting error tracking", [])]).

(** How [trackError] reads the plain object [handleGlobalError] hands it;
    [String] of a plain object is ["[object Object]"]. *)
Definition argOfObject (error : JsObj) : ErrorArg :=
  {| err_message := obj_get "message" error;
     err_stack := obj_get "stack" error;
     err_type := obj_get "type" error;
     err_toString := "[object Object]" |}.

(** [handleGlobalError(errorInfo)] reads the clock once, and [trackError]
    reads it again at [later]. *)
Definition handleGlobalError (now later : nat) (errorInfo : JsObj) (t : Tracker)
  : Tracker * list LogCall :=
  let error := obj_spread [("timestamp", VNum (Z.of_nat now))] errorInfo in
  let tracked := trackError later (argOfObject error) [] t in
  (tracked.1,
   tracked.2 ++ [(Logger.ERROR, "Global error caught", error)]).




(** The message an event is counted under. *)
Definition eventKey (ev : Event) : JsVal :=
  or_else (obj_get "message" (errorInfoOf ev)) (VStr "[object Object]").

(** The [filter] argument of [getErrors]; [VUndef] / [None] is an absent
    key. *)
Record Filter : Type := {
  flt_type : JsVal;
  flt_since : option nat;
  flt_limit : option nat
}.

Section Numbers.
(** [ToNumber] on strings; [None] is [NaN]. *)
Context (stringToNumber : string → option Z).

Definition ToNumber (v : JsVal) : option Z :=
  match v with
  | VUndef => None
  | VNull => Some 0%Z
  | VBool b => Some (if b then 1%Z else 0%Z)
  | VNum z => Some z
  | VStr s => stringToNumber s
  end.

(** [v >= n] for a number [n]. *)
Definition ge_number (v : JsVal) (n : nat) : bool :=
  match ToNumber v with
  | Some z => bool_decide (Z.of_nat n ≤ z)%Z
  | None => false
  end.

Definition getErrors (flt : Filter) (t : Tracker) : list JsObj :=
  let filtered := errors t in
  let filtered :=
    if truthy (flt_type flt)
    then filter (λ e, obj_get "type" e = flt_type flt) filtered
    else filtered in
  let filtered :=
    match flt_since flt with
    | Some (S n) =>
        filter (λ e, ge_number (obj_get "timestamp" e) (S n) = true) filtered
    | _ => filtered
    end in
  match flt_limit flt with
  | Some (S n) => slice_last (S n) filtered
  | _ => filtered
  end.

(** *** Vocabulary of the statements about [getErrors] *)

(** A record passes the [type] and [since] criteria that are in force: a
    falsy [type], and a [since] that is absent or 0, are no criteria. *)
Definition selected (flt : Filter) (e : JsObj) : Prop :=
  (truthy (flt_type flt) = true → obj_get "type" e = flt_type flt) ∧
  (∀ n, flt_since flt = Some (S n) →
        ge_number (obj_get "timestamp" e) (S n) = true).

#[global] Instance selected_dec flt e : Decision (selected flt e).
Proof.
  unfold selected.
  destruct (truthy (flt_type flt)) eqn:Ht;
    destruct (flt_since flt) as [[|n]|] eqn:Hs;
    destruct (decide (obj_get "type" e = flt_type flt));
    try destruct (decide (ge_number (obj_get "timestamp" e) (S n) = true));
    first [ left; split; [done | by intros ? [= <-] ]
          | left; split; [done | by intros ? [=] ]
          | right; intros [H1 H2]; auto; (by apply H1) || (by eapply H2; eauto)
          | idtac ].
Defined.

End Numbers.

End ErrorTrackerOps.

(* ===================================================================== *)
(** ** Timers of the platform                                             *)
(* ===================================================================== *)

Module Timers.

(** The live [setInterval] handles, the pending [requestAnimationFrame]
    requests and the next handle the platform gives out; handles are
    positive numbers. *)
Record Timers : Type := {
  intervals : gset nat;
  frames : gset nat;
  nextHandle : nat
}.

Definition idle : Timers := {| intervals := ∅; frames := ∅; nextHandle := 1 |}.

Definition setInterval (tm : Timers) : nat * Timers :=
  (nextHandle tm,
   {| intervals := {[nextHandle tm]} ∪ intervals tm; frames := frames tm;
      nextHandle := S (nextHandle tm) |}).

Definition clearInterval (h : nat) (tm : Timers) : Timers :=
  {| intervals := intervals tm ∖ {[h]}; frames := frames tm;
     nextHandle := nextHandle tm |}.

Definition requestAnimationFrame (tm : Timers) : nat * Timers :=
  (nextHandle tm,
   {| intervals := intervals tm; frames := {[nextHandle tm]} ∪ frames tm;
      nextHandle := S (nextHandle tm) |}).

Definition cancelAnimationFrame (h : nat) (tm : Timers) : Timers :=
  {| intervals := intervals tm; frames := frames tm ∖ {[h]};
     nextHandle := nextHandle tm |}.

(** Handles are positive, and the platform never gives out a handle that is
    still in use. *)
Definition wf (tm : Timers) : Prop :=
  1 ≤ nextHandle tm ∧
  ∀ h, h ∈ intervals tm ∪ frames tm → h < nextHandle tm.

(** A handle is truthy unless it is 0 or absent. *)
Definition live (h : option nat) : bool :=
  match h with
  | Some (S _) => true
  | _ => false
  end.

End Timers.

(* ===================================================================== *)
(** ** [PerformanceMonitor]: sampling, reports and timers                 *)
(* ===================================================================== *)

Module MonitorOps.
Import Js PerformanceMonitor.

(** [Math.round]: the nearest integer, halves going up. *)
Definition Math_round (q : Qc) : Qc :=
  Qc_of_Z (Qfloor (q + Q2Qc (1 # 2))%Qc).

(** [lastFrameTime] (a reading of the clock, in ticks) and [frameCount]. *)
Record FrameClock : Type := {
  lastFrameTime : nat;
  frameCount : nat
}.

(** The body of [measureFPS], run when the clock reads [t], up to the
    request for the next frame. *)
Definition measureFPS (t : nat) (fc : FrameClock) (m : Monitor)
  : Completion EngineError (FrameClock * Monitor) :=
  let now := performance_now t in
  let delta := (now - performance_now (lastFrameTime fc))%Qc in
  let count := S (frameCount fc) in
  if decide (Qc_of_nat 1000 ≤ delta)%Qc then
    let fps := Math_round (Qc_of_nat count * Qc_of_nat 1000 / delta)%Qc in
    m' ← recordSample (Date_now t) "fps" fps m;
    mret ({| lastFrameTime := t; frameCount := 0 |}, m')
  else
    mret ({| lastFrameTime := lastFrameTime fc; frameCount := count |}, m).

(** A run of [recordSample] calls on one monitor: time, series, value.  A
    call that throws has stored nothing, and the run goes on with the
    monitor as it was. *)
Definition SampleCall : Type := nat * string * Qc.

Definition sampleAll (calls : list SampleCall) (m : Monitor) : Monitor :=
  foldl (λ m c, match recordSample c.1.1 c.1.2 c.2 m with
                | Normal m' => m'
                | Throw _ => m
                end) m calls.

(** The sample a call stores, and the calls made on the series [name]. *)
Definition storedSample (c : SampleCall) : Sample :=
  {| timestamp := c.1.1; value := c.2; metadata := [] |}.
Definition seriesCalls (name : string) (calls : list SampleCall)
  : list SampleCall :=
  filter (λ c, c.1.2 = name) calls.

(** What [getMetrics] returns. *)
Record Report : Type := {
  rep_timestamp : nat;
  rep_fps : option Stats;
  rep_memory : option Stats;
  rep_cpu : option Stats;
  rep_renderTime : option Stats;
  rep_inputLatency : option Stats;
  rep_custom : gmap string (option Stats)
}.

Definition getMetrics (now : nat) (m : Monitor) : Report :=
  {| rep_timestamp := now;
     rep_fps := calculateStats (metrics m !! "fps");
     rep_memory := calculateStats (metrics m !! "memory");
     rep_cpu := calculateStats (metrics m !! "cpu");
     rep_renderTime := calculateStats (metrics m !! "renderTime");
     rep_inputLatency := calculateStats (metrics m !! "inputLatency");
     rep_custom := (λ samples, calculateStats (Some samples)) <$> custom m |}.

Record Issue : Type := {
  issue_type : string;
  issue_severity : string;
  issue_message : string;
  issue_value : string
}.

Record Health : Type := {
  healthy : bool;
  issues : list Issue;
  health_fps : option Qc;
  health_memory : option Qc
}.

Section Reports.
(** [Number.prototype.toFixed]. *)
Context (toFixed : nat → Qc → string).

Definition getHealthStatus (now : nat) (m : Monitor) : Health :=
  let report := getMetrics now m in
  let fpsIssue :=
    match rep_fps report with
    | Some st =>
        if decide (avg st < Qc_of_nat 30)%Qc then
          [{| issue_type := "performance"; issue_severity := "warning";
              issue_message := "Low FPS detected";
              issue_value := toFixed 1 (avg st) |}]
        else []
    | None => []
    end in
  let memoryIssue :=
    match rep_memory report with
    | Some st =>
        if decide (Qc_of_nat 500 < avg st)%Qc then
          [{| issue_type := "memory"; issue_severity := "warning";
              issue_message := "High memory usage";
              issue_value := toFixed 0 (avg st) +:+ "MB" |}]
        else []
    | None => []
    end in
  let found := fpsIssue ++ memoryIssue in
  {| healthy := bool_decide (length found = 0);
     issues := found;
     health_fps := avg <$> rep_fps report;
     health_memory := avg <$> rep_memory report |}.

(** [logCurrentMetrics]: an optional chain that ends in [undefined] prints
    as such when ['MB'] is appended to it. *)
Definition logCurrentMetrics (now : nat) (m : Monitor) : list LogCall :=
  let report := getMetrics now m in
  let fixed (digits : nat) (st : option Stats) : JsVal :=
    from_option (λ s, VStr (toFixed digits (avg s))) VUndef st in
  [(Logger.INFO, "Performance metrics",
    [("fps", fixed 1 (rep_fps report));
     ("memory", VStr (toDisplay (fixed 0 (rep_memory report)) +:+ "MB"));
     ("customMetrics", VNum (Z.of_nat (size (rep_custom report))))])].

End Reports.

(** *** [start] and [stop]

    The monitor with what [start] adds to it: the frame clock, the handles
    kept in [this.intervals] and [this.rafId]. *)
Record Running : Type := {
  monitor : Monitor;
  frameClock : FrameClock;
  handles : list nat;
  rafId : option nat
}.

(** A monitor as the constructor leaves it, the clock reading [t]. *)
Definition constructed (m : Monitor) (t : nat) : Running :=
  {| monitor := m; frameClock := {| lastFrameTime := t; frameCount := 0 |};
     handles := []; rafId := None |}.

(** [start()]; [hasMemory] tells whether [performance.memory] exists. *)
Definition start (hasMemory : bool) (r : Running) (tm : Timers.Timers)
  : Running * Timers.Timers * list LogCall :=
  if negb (enabled (monitor r)) then
    (r, tm, [(Logger.INFO, "Performance monitoring disabled", [])])
  else
    let frame := Timers.requestAnimationFrame tm in
    let memory :=
      if hasMemory then
        let i := Timers.setInterval frame.2 in ([i.1], i.2)
      else ([], frame.2) in
    let logging := Timers.setInterval memory.2 in
    ({| monitor := monitor r; frameClock := frameClock r;
        handles := handles r ++ memory.1 ++ [logging.1];
        rafId := Some frame.1 |},
     logging.2,
     [(Logger.INFO, "Starting performance monitoring", [])]).

Definition stop (r : Running) (tm : Timers.Timers)
  : Running * Timers.Timers * list LogCall :=
  let cleared := foldl (λ tm h, Timers.clearInterval h tm) tm (handles r) in
  let cancelled :=
    if Timers.live (rafId r)
    then Timers.cancelAnimationFrame (default 0 (rafId r)) cleared
    else cleared in
  ({| monitor := monitor r; frameClock := frameClock r; handles := [];
      rafId := if Timers.live (rafId r) then None else rafId r |},
   cancelled,
   [(Logger.INFO, "Stopping performance monitoring", [])]).

(** The platform runs the frame callback requested under handle [h], the
    clock reading [t]: the request is used up, [measureFPS] runs and asks
    for the next frame.  Should [recordSample] throw, the callback ends
    there, the frame counted and no further frame requested.  A handle that
    is not pending runs nothing. *)
Definition runFrame (h t : nat) (s : Running * Timers.Timers)
  : Running * Timers.Timers :=
  if decide (h ∈ Timers.frames s.2) then
    let used := Timers.cancelAnimationFrame h s.2 in
    match measureFPS t (frameClock s.1) (monitor s.1) with
    | Normal measured =>
        let next := Timers.requestAnimationFrame used in
        ({| monitor := measured.2; frameClock := measured.1;
            handles := handles s.1; rafId := Some next.1 |},
         next.2)
    | Throw _ =>
        ({| monitor := monitor s.1;
            frameClock := {| lastFrameTime := lastFrameTime (frameClock s.1);
                             frameCount := S (frameCount (frameClock s.1)) |};
            handles := handles s.1; rafId := rafId s.1 |},
         used)
    end
  else s.

(** Frame callbacks running one after the other, each given by its handle
    and the reading of the clock. *)
Definition runFrames (fs : list (nat * nat)) (s : Running * Timers.Timers)
  : Running * Timers.Timers :=
  foldl (λ s f, runFrame f.1 f.2 s) s fs.

End MonitorOps.

(* ===================================================================== *)
(** ** [HealthCheckSystem]: whole-registry operations                     *)
(* ===================================================================== *)

Module RegistryOps.
Import Js HealthCheck.

(** The [timestamp] property of a status a check produced. *)
Definition timestampOf (s : Status) (otherwise : nat) : nat :=
  match s with
  | Checked _ t _ _ _ _ => t
  | Failed _ t _ _ => t
  | NotYetChecked _ => otherwise
  end.

(** The [name] property of a status. *)
Definition statusName (s : Status) : string :=
  match s with
  | Checked nm _ _ _ _ _ => nm
  | Failed nm _ _ _ => nm
  | NotYetChecked nm => nm
  end.

(** A run of a check comes back healthy: the promise is fulfilled with a
    result whose [healthy] is not [false]. *)
Definition healthyRun (run : CheckRun) : bool :=
  match settled run with
  | Normal result => negb (bool_decide (res_healthy result = VBool false))
  | Throw _ => false
  end.

(** A run of a check ends in a value whose [message] cannot be read: the
    check threw, or its promise was rejected with, [undefined] or
    [null]. *)
Definition rejectsNullish (run : CheckRun) : bool :=
  match settled run with
  | Normal _ => false
  | Throw error =>
      match error_message error with
      | Normal _ => false
      | Throw _ => true
      end
  end.

(** [c.healthy] used as a condition. *)
Definition isHealthy (s : Status) : bool := truthy (healthyOf s).

Section WithEnv.
Context {Env : Type}.

(** The loop of [checkAll] over the names of the registry, in the order of
    the map; each check starts when the one before it has settled.  The
    application is in state [env] throughout.  A [checkModule] that rejects
    ends the loop: [checkAll] rejects with the same error, the modules
    checked until then keeping what their checks stored. *)
Fixpoint checkEach (names : list string) (env : Env) (now : nat)
    (sys : System Env)
  : Completion EngineError (list Status) * System Env * list LogCall :=
  match names with
  | [] => (Normal [], sys, [])
  | nm :: rest =>
      let one := checkModule nm env now sys in
      match one.1.1 with
      | Normal status =>
          let later := from_option (λ s, timestampOf s now) now status in
          let others := checkEach rest env later one.1.2 in
          (match others.1.1 with
           | Normal results => Normal (option_list status ++ results)
           | Throw e => Throw e
           end,
           others.1.2, one.2 ++ others.2)
      | Throw e => (Throw e, one.1.2, one.2)
      end
  end.

Definition checkAll (env : Env) (now : nat) (sys : System Env)
  : Completion EngineError (list Status) * System Env * list LogCall :=
  checkEach (modules sys).*1 env now sys.

Record StatusSummary : Type := {
  sum_timestamp : nat;
  sum_overall : string;
  sum_modules : list Status;
  sum_totalModules : nat;
  sum_healthyModules : nat;
  sum_unhealthyModules : nat
}.

Definition summarize (stamp : nat) (checks : list Status) (total : nat)
  : StatusSummary :=
  {| sum_timestamp := stamp;
     sum_overall := if forallb isHealthy checks then "healthy" else "degraded";
     sum_modules := checks;
     sum_totalModules := total;
     sum_healthyModules := length (filter (λ c, isHealthy c = true) checks);
     sum_unhealthyModules := length (filter (λ c, isHealthy c = false) checks) |}.

(** [getStatus()]; it rejects when [checkAll] does. *)
Definition getStatus (env : Env) (now : nat) (sys : System Env)
  : Completion EngineError StatusSummary * System Env * list LogCall :=
  let all := checkAll env now sys in
  match all.1.1 with
  | Normal checks =>
      let stamp := from_option (λ s, timestampOf s now) now (last checks) in
      (Normal (summarize stamp checks (length (modules all.1.2))),
       all.1.2, all.2)
  | Throw e => (Throw e, all.1.2, all.2)
  end.

End WithEnv.

(** [startPeriodicChecks] and [stopPeriodicChecks] on [this.intervalId]. *)
Definition startPeriodicChecks (checkInterval : nat) (intervalId : option nat)
    (tm : Timers.Timers) : option nat * Timers.Timers * list LogCall :=
  if Timers.live intervalId then
    (intervalId, tm, [(Logger.WARN, "Periodic checks already running", [])])
  else
    let i := Timers.setInterval tm in
    (Some i.1, i.2,
     [(Logger.INFO, "Starting periodic health checks",
       [("interval", VNum (Z.of_nat checkInterval))])]).

Definition stopPeriodicChecks (intervalId : option nat) (tm : Timers.Timers)
  : option nat * Timers.Timers * list LogCall :=
  if Timers.live intervalId then
    (None, Timers.clearInterval (default 0 intervalId) tm,
     [(Logger.INFO, "Stopped periodic health checks", [])])
  else (intervalId, tm, []).

(** A check that always throws an error object. *)
Definition alwaysThrows (env : nat) : CheckRun :=
  {| settled := Throw (ThrownObject [("message", VStr "down")]); took := 2 |}.

End RegistryOps.

(* ===================================================================== *)
(** ** Facts about [Js]                                                   *)
(* ===================================================================== *)

Module JsFacts.
Import Js.

(** [n || d] is positive as soon as the default is. *)
Lemma num_or_pos (o : option nat) (d : nat) : 1 ≤ d → 1 ≤ num_or o d.
Proof. intros. destruct o as [[|n]|]; simpl; lia. Qed.

Section MapFacts.
Context {K V : Type} `{EqDecision K}.
Implicit Types (m : list (K * V)) (k : K) (v : V).

Lemma Map_get_set m k k' v :
  Map_get k (Map_set k' v m) = if decide (k' = k) then Some v else Map_get k m.
Proof.
  induction m as [|[k0 v0] m IH]; simpl.
  - by destruct (decide (k' = k)).
  - destruct (decide (k0 = k')) as [->|Hne]; simpl.
    + by destruct (decide (k' = k)).
    + rewrite IH. destruct (decide (k0 = k)) as [->|]; [|done].
      by rewrite decide_False.
Qed.

Lemma Map_get_set_eq m k v : Map_get k (Map_set k v m) = Some v.
Proof. by rewrite Map_get_set, decide_True. Qed.

Lemma Map_get_set_ne m k k' v :
  k' ≠ k → Map_get k (Map_set k' v m) = Map_get k m.
Proof. intros. by rewrite Map_get_set, decide_False. Qed.

Lemma Map_get_None m k : Map_get k m = None ↔ k ∉ m.*1.
Proof.
  induction m as [|[k0 v0] m IH]; simpl.
  - split; [intros _; apply not_elem_of_nil | done].
  - rewrite not_elem_of_cons. destruct (decide (k0 = k)) as [->|Hne].
    + split; [done | intros [? _]; done].
    + rewrite IH. split; [intros ?; split; done | intros [_ ?]; done].
Qed.

Lemma Map_get_Some_elem m k v : Map_get k m = Some v → (k, v) ∈ m.
Proof.
  induction m as [|[k0 v0] m IH]; simpl; [done|].
  destruct (decide (k0 = k)) as [->|Hne].
  - intros [= ->]. apply list_elem_of_here.
  - intros. apply list_elem_of_further. auto.
Qed.

(** The keys after [set]: unchanged when the key was there, the key added
    at the end when it was not. *)
Lemma Map_set_keys m k v :
  (Map_set k v m).*1 = if decide (k ∈ m.*1) then m.*1 else m.*1 ++ [k].
Proof.
  induction m as [|[k0 v0] m IH].
  - destruct (decide (k ∈ ([] : list (K * V)).*1)) as [Hin|]; [|done].
    by apply elem_of_nil in Hin.
  - cbn [Map_set]. destruct (decide (k0 = k)) as [->|Hne].
    + destruct (decide (k ∈ ((k, v0) :: m).*1)) as [|Hnin]; [done|].
      exfalso. apply Hnin. apply list_elem_of_here.
    + rewrite fmap_cons, IH. cbn [fst].
      destruct (decide (k ∈ m.*1)) as [Hin|Hnin];
        destruct (decide (k ∈ ((k0, v0) :: m).*1)) as [Hin'|Hnin']; try done.
      * exfalso. apply Hnin'. by apply list_elem_of_further.
      * exfalso. rewrite fmap_cons in Hin'. cbn [fst] in Hin'.
        apply elem_of_cons in Hin' as [->|]; done.
Qed.

Lemma Map_set_NoDup m k v : NoDup m.*1 → NoDup (Map_set k v m).*1.
Proof.
  intros Hnd. rewrite Map_set_keys. case_decide; [done|].
  apply NoDup_app. split_and!; [done | | apply NoDup_singleton].
  intros x Hx ->%list_elem_of_singleton. done.
Qed.
End MapFacts.

Lemma obj_get_set o k k' v :
  obj_get k (obj_set k' v o) = if decide (k' = k) then v else obj_get k o.
Proof. unfold obj_get, obj_set. rewrite Map_get_set. by case_decide. Qed.

(** A spread leaves alone the keys the spread object does not have. *)
Lemma obj_get_spread_other base ext k :
  Map_get k ext = None → obj_get k (obj_spread base ext) = obj_get k base.
Proof.
  unfold obj_spread. revert base.
  induction ext as [|[k0 v0] ext IH]; intros base Hk; simpl in *; [done|].
  destruct (decide (k0 = k)) as [|Hne]; [done|].
  rewrite IH by done. rewrite obj_get_set. by rewrite decide_False.
Qed.

(** ... and takes the others from it. *)
Lemma obj_get_spread_in base ext k v :
  NoDup ext.*1 → Map_get k ext = Some v → obj_get k (obj_spread base ext) = v.
Proof.
  unfold obj_spread. revert base.
  induction ext as [|[k0 v0] ext IH]; intros base Hnd Hk; simpl in *; [done|].
  apply NoDup_cons in Hnd as [Hk0 Hnd].
  destruct (decide (k0 = k)) as [->|Hne].
  - injection Hk as ->.
    change (fold_left _ ext ?b) with (obj_spread b ext).
    rewrite obj_get_spread_other; [| by apply Map_get_None].
    by rewrite obj_get_set, decide_True.
  - by apply IH.
Qed.

(** *** Bounded pushes *)

Lemma shift_drop {A} (l : list A) : shift l = drop 1 l.
Proof. by destruct l. Qed.

Lemma length_slice_last {A} (n : nat) (l : list A) :
  length (slice_last n l) = n `min` length l.
Proof. unfold slice_last. rewrite length_drop. lia. Qed.

(** Pushing onto a list within its cap and dropping the first element when
    the cap is passed leaves the last [cap] elements. *)
Lemma push_shift_within {A} (cap : nat) (x : A) (l : list A) :
  length l ≤ cap →
  (if decide (cap < length (l ++ [x])) then shift (l ++ [x]) else l ++ [x])
  = slice_last cap (l ++ [x]).
Proof.
  intros Hlen. unfold slice_last. rewrite length_app. simpl.
  case_decide.
  - rewrite shift_drop. f_equal. lia.
  - replace (length l + 1 - cap) with 0 by lia. done.
Qed.

Lemma slice_last_snoc {A} (cap : nat) (x : A) (l : list A) :
  slice_last cap (slice_last cap l ++ [x]) = slice_last cap (l ++ [x]).
Proof.
  unfold slice_last. rewrite !length_app, length_drop. simpl.
  rewrite <-(drop_app_le l [x] (length l - cap)) by lia.
  rewrite drop_drop. f_equal. lia.
Qed.

(** The same on the last [cap] elements of a longer history: the result is
    the last [cap] elements of the history with the new element. *)
Lemma push_shift_slice {A} (cap : nat) (x : A) (l : list A) :
  (if decide (cap < length (slice_last cap l ++ [x]))
   then shift (slice_last cap l ++ [x]) else slice_last cap l ++ [x])
  = slice_last cap (l ++ [x]).
Proof.
  rewrite push_shift_within by (rewrite length_slice_last; lia).
  apply slice_last_snoc.
Qed.

Lemma last_slice_last_snoc {A} (cap : nat) (x : A) (l : list A) :
  1 ≤ cap → last (slice_last cap (l ++ [x])) = Some x.
Proof.
  intros Hcap. unfold slice_last. rewrite length_app. simpl.
  rewrite drop_app_le by lia. apply last_snoc.
Qed.

(** *** [Array.prototype.sort] *)
Section SortFacts.
Context {A : Type} (le : A → A → bool).

Lemma sort_insert_Permutation (x : A) (l : list A) : sort_insert le x l ≡ₚ x :: l.
Proof.
  induction l as [|y l IH]; simpl; [done|].
  destruct (le x y); [done|]. rewrite IH. apply Permutation_swap.
Qed.

Lemma array_sort_Permutation (l : list A) : array_sort le l ≡ₚ l.
Proof.
  induction l as [|x l IH]; simpl; [done|].
  by rewrite sort_insert_Permutation, IH.
Qed.

Lemma array_sort_length (l : list A) : length (array_sort le l) = length l.
Proof. by rewrite array_sort_Permutation. Qed.

Section Sorted.
Context (R : relation A) `{!Total R, !Transitive R}.
Context (Hle : ∀ x y, le x y = true ↔ R x y).

Lemma sort_insert_sorted (x : A) (l : list A) :
  StronglySorted R l → StronglySorted R (sort_insert le x l).
Proof.
  induction 1 as [|y l Hsorted IH Hall]; simpl.
  - repeat constructor.
  - destruct (le x y) eqn:Hxy.
    + apply Hle in Hxy. constructor; [by constructor|].
      constructor; [done|]. eapply Forall_impl; [exact Hall|].
      intros z Hz. by trans y.
    + constructor; [done|]. rewrite sort_insert_Permutation.
      constructor; [|done].
      destruct (total R x y) as [Hx|]; [|done].
      apply Hle in Hx. congruence.
Qed.

Lemma array_sort_sorted (l : list A) : StronglySorted R (array_sort le l).
Proof.
  induction l as [|x l IH]; simpl; [constructor|]. by apply sort_insert_sorted.
Qed.
End Sorted.

(** Stability: elements that the comparator ties with one another keep
    their order. *)
Lemma sort_insert_stable (P : A → Prop) `{!∀ x, Decision (P x)} (x : A) (l : list A) :
  (∀ a b, P a → P b → le a b = true) →
  filter P (sort_insert le x l) = filter P (x :: l).
Proof.
  intros Htie. induction l as [|y l IH]; simpl; [done|].
  destruct (le x y) eqn:Hxy; [done|].
  rewrite filter_cons, IH, !filter_cons.
  destruct (decide (P y)), (decide (P x)); try done.
  rewrite Htie in Hxy by done. done.
Qed.

Lemma array_sort_stable (P : A → Prop) `{!∀ x, Decision (P x)} (l : list A) :
  (∀ a b, P a → P b → le a b = true) →
  filter P (array_sort le l) = filter P l.
Proof.
  intros Htie. induction l as [|x l IH]; simpl; [done|].
  rewrite sort_insert_stable by done. by rewrite !filter_cons, IH.
Qed.
End SortFacts.

(** *** More on maps and objects *)

Lemma Map_set_fresh {K V} `{EqDecision K} (k : K) (v : V) (m : list (K * V)) :
  k ∉ m.*1 → Map_set k v m = m ++ [(k, v)].
Proof.
  induction m as [|[k0 v0] m IH]; simpl; [done|].
  rewrite not_elem_of_cons. intros [Hne Hnin].
  rewrite decide_False by done. by rewrite IH.
Qed.

Lemma Map_get_app_l {K V} `{EqDecision K} (k : K) (v : V) (m m' : list (K * V)) :
  Map_get k m = Some v → Map_get k (m ++ m') = Some v.
Proof.
  induction m as [|[k0 v0] m IH]; simpl; [done|].
  by destruct (decide (k0 = k)).
Qed.

Lemma Map_get_app_r {K V} `{EqDecision K} (k : K) (m m' : list (K * V)) :
  k ∉ m.*1 → Map_get k (m ++ m') = Map_get k m'.
Proof.
  induction m as [|[k0 v0] m IH]; simpl; [done|].
  rewrite not_elem_of_cons. intros [Hne Hnin].
  rewrite decide_False by done. by apply IH.
Qed.

Lemma Map_delete_set {K V} `{EqDecision K} (k : K) (v : V) (m : list (K * V)) :
  k ∉ m.*1 → Map_delete k (Map_set k v m) = m.
Proof.
  intros Hnin. rewrite Map_set_fresh by done. unfold Map_delete.
  rewrite filter_app, filter_cons_False, filter_nil, app_nil_r by (simpl; tauto).
  induction m as [|[k0 v0] m IH]; [done|].
  simpl in Hnin. apply not_elem_of_cons in Hnin as [Hne Hnin].
  rewrite filter_cons_True by (simpl; congruence). by rewrite IH.
Qed.

Lemma Map_delete_keys {K V} `{EqDecision K} (k : K) (m : list (K * V)) :
  (Map_delete k m).*1 = filter (λ k', k' ≠ k) m.*1.
Proof.
  unfold Map_delete. induction m as [|[k0 v0] m IH]; [done|].
  rewrite fmap_cons. cbn [fst]. destruct (decide (k0 = k)) as [->|Hne].
  - rewrite !filter_cons_False by (simpl; tauto). done.
  - rewrite !filter_cons_True by done. rewrite fmap_cons. by rewrite IH.
Qed.

Lemma Map_get_delete {K V} `{EqDecision K} (k k' : K) (m : list (K * V)) :
  Map_get k' (Map_delete k m) = if decide (k = k') then None else Map_get k' m.
Proof.
  unfold Map_delete. induction m as [|[k0 v0] m IH].
  - simpl. by case_decide.
  - destruct (decide (k0 = k)) as [->|Hne].
    + rewrite filter_cons_False by (simpl; tauto). rewrite IH. simpl.
      destruct (decide (k = k')); done.
    + rewrite filter_cons_True by done. simpl. rewrite IH.
      destruct (decide (k0 = k')) as [->|]; [|done].
      by rewrite decide_False by congruence.
Qed.

(** Spreading an object whose keys are new appends its entries. *)
Lemma obj_spread_fresh (base ext : JsObj) :
  NoDup ext.*1 → (∀ k, k ∈ ext.*1 → k ∉ base.*1) →
  obj_spread base ext = base ++ ext.
Proof.
  unfold obj_spread. revert base.
  induction ext as [|[k v] ext IH]; intros base Hnd Hfresh; simpl.
  - by rewrite app_nil_r.
  - apply NoDup_cons in Hnd as [Hk Hnd].
    unfold obj_set. rewrite Map_set_fresh
      by (apply Hfresh; simpl; apply list_elem_of_here).
    rewrite IH; [by rewrite <-app_assoc | done |].
    intros k' Hk'. rewrite fmap_app, elem_of_app. simpl.
    intros [Hin|Hin%list_elem_of_singleton].
    + eapply Hfresh; [|exact Hin]. simpl. by apply list_elem_of_further.
    + by subst k'.
Qed.

End JsFacts.

(* ===================================================================== *)
(** ** The logger: level gate, faults, construction                       *)
(* ===================================================================== *)

Module LoggerFacts.
Import Js JsFacts Logger.

Section WithHost.
Context (host : Host).

(** [write] returns whatever the file system does; a failed append ends as
    one [console.error] call. *)
Lemma write_returns af lg lvl message meta w :
  ∃ w', write host af lg lvl message meta w = Normal w'.
Proof.
  unfold write. case_decide; [by eexists|].
  destruct (includes "file" (outputs lg)); [|by eexists].
  unfold try_catch.
  match goal with |- ∃ _, match ?c with _ => _ end = _ => destruct c end;
    by eexists.
Qed.

(** Above the threshold nothing happens. *)
Lemma write_skips af lg lvl message meta w :
  level lg < lvl → write host af lg lvl message meta w = Normal w.
Proof. intros. unfold write. by rewrite decide_True. Qed.

(** Within the threshold the record goes out once per destination. *)
Lemma write_emits af lg lvl message meta w :
  lvl ≤ level lg →
  ∃ w', write host af lg lvl message meta w = Normal w' ∧
        EmittedOnce host af (outputs lg) lvl
          (formatMessage host lg lvl message meta w) w w'.
Proof.
  intros Hle. unfold write, EmittedOnce, includes.
  rewrite decide_False by lia.
  set (entry := formatMessage host lg lvl message meta w).
  assert (Hcall : ∀ w0,
    (if decide (lvl = ERROR)
     then console_call ConsoleError [formatForConsole host entry] w0
     else if decide (lvl = WARN)
          then console_call ConsoleWarn [formatForConsole host entry] w0
          else console_call ConsoleLog [formatForConsole host entry] w0)
    = {| logdir := logdir w0;
         console := console w0 ++ [consoleRecord host lvl entry];
         clock := clock w0 |}).
  { intros w0. unfold consoleRecord, console_call.
    by repeat case_decide. }
  rewrite Hcall. clear Hcall.
  destruct (bool_decide ("file" ∈ outputs lg)) eqn:Hfile.
  - unfold appendFileSync, try_catch, fileRecord, formatForFile.
    destruct (bool_decide ("console" ∈ outputs lg)), af as [e|],
      (logdir w) as [d|] eqn:Hd; simpl; rewrite ?Hd; simpl;
      eexists; (split; [reflexivity|]); simpl;
      rewrite ?app_nil_r, <-?app_assoc; done.
  - destruct (bool_decide ("console" ∈ outputs lg)); simpl;
      eexists; (split; [reflexivity|]); simpl;
      destruct af, (logdir w); rewrite ?app_nil_r; done.
Qed.

(** *** Rotation checks and faults *)

(** A loop that returns has done what the loop does when no call fails. *)
Lemma rotate_files_returns rf N i g g' :
  rotate_files rf N i g = Normal g' → g' = rotate_loop N i g.
Proof.
  revert g. induction i as [|j IH]; intros g; cbn [rotate_files rotate_loop].
  - by intros [= <-].
  - destruct (g !! S j) as [oldFile|]; [|apply IH].
    destruct (decide (S j = N - 1)).
    + destruct (unlinkSync_fault rf); [done|]. apply IH.
    + destruct (renameSync_fault rf); [done|]. apply IH.
Qed.

Lemma rotate_files_noFaults N i g :
  rotate_files noFaults N i g = Normal (rotate_loop N i g).
Proof.
  revert g. induction i as [|j IH]; intros g; cbn [rotate_files rotate_loop];
    [done|].
  destruct (g !! S j) as [oldFile|]; [|apply IH].
  destruct (decide (S j = N - 1)); apply IH.
Qed.

(** A rotation check that returns has left the world [rotateWorld]
    describes, whatever the faults were. *)
Lemma rotateLogs_returns rf lg w w' :
  rotateLogs rf lg w = Normal w' → w' = rotateWorld lg w.
Proof.
  unfold rotateLogs, rotateWorld, rotateDir.
  destruct (logdir w) as [d|] eqn:Hd; [|by intros [= <-]].
  destruct (active d) as [logFile|] eqn:Hact.
  - destruct (statSync_fault rf); [done|]. cbn [fsCall mbind Completion_bind].
    case_decide.
    + destruct (rotate_files rf (maxLogFiles lg) (maxLogFiles lg - 1) (gens d))
        as [g|e] eqn:Hloop; [|done].
      apply rotate_files_returns in Hloop as ->.
      cbn [mbind Completion_bind]. destruct (renameSync_fault rf); [done|].
      by intros [= <-].
    + intros [= <-]. destruct w. simpl in *. by rewrite Hd.
  - intros [= <-]. destruct w. simpl in *. by rewrite Hd.
Qed.

(** With no fault the check returns. *)
Lemma rotateLogs_noFaults lg w :
  rotateLogs noFaults lg w = Normal (rotateWorld lg w).
Proof.
  unfold rotateLogs, rotateWorld, rotateDir.
  destruct (logdir w) as [d|] eqn:Hd; [|done].
  destruct (active d) as [logFile|] eqn:Hact.
  - cbn [noFaults statSync_fault fsCall mbind Completion_bind].
    case_decide.
    + rewrite rotate_files_noFaults. done.
    + destruct w. simpl in *. by rewrite Hd.
  - destruct w. simpl in *. by rewrite Hd.
Qed.

(** A check that finds no active file makes no call that can fail. *)
Lemma rotateLogs_no_active rf lg w :
  (∀ d, logdir w = Some d → active d = None) → rotateLogs rf lg w = Normal w.
Proof.
  intros Hnone. unfold rotateLogs. destruct (logdir w) as [d|]; [|done].
  by rewrite (Hnone d).
Qed.

(** With the directory there or creatable, and no fault in the rotation
    check, the constructor returns. *)
Lemma Logger_new_returns cfg w :
  ∃ w', Logger_new host None noFaults cfg w = Normal (Logger_fields host cfg, w').
Proof.
  unfold Logger_new, ensureLogDirectory, mkdirSync.
  destruct (logdir w); cbn [mbind Completion_bind];
    rewrite rotateLogs_noFaults; by eexists.
Qed.

(** The [level] field of a record is the name of the level when the
    metadata bag has no [level] key ... *)
Lemma formatMessage_level lg lvl name message meta w :
  LogLevelNames !! lvl = Some name →
  Map_get "level" meta = None →
  obj_get "level" (formatMessage host lg lvl message meta w) = VStr name.
Proof.
  intros Hname Hmeta. unfold formatMessage.
  rewrite obj_get_spread_other by done. by rewrite Hname.
Qed.

(** ... unless the bag has its own [level] key, which the spread lets
    replace the name. *)
Lemma formatMessage_level_override lg lvl message meta v w :
  NoDup meta.*1 →
  Map_get "level" meta = Some v →
  obj_get "level" (formatMessage host lg lvl message meta w) = v.
Proof. intros Hnd Hmeta. unfold formatMessage. by apply obj_get_spread_in. Qed.

(** C6, as amended.  A log call reaches the configured destinations exactly
    when its level is within the threshold.  For every logger, level,
    message and metadata: above the threshold [write] returns with the world
    unchanged (no output on any destination); at or below it, [write]
    returns and the one record it built went out once to each configured
    destination ([EmittedOnce]).  In particular, for a logger constructed
    with level [WARN]: an [info] call changes nothing, and an [error] call
    puts out exactly one record, whose [level] field reads ["ERROR"] unless
    the metadata of the call has a [level] key of its own, which then
    replaces it. *)
Theorem write_emits_iff_within_threshold
    (af : Fault) (lg : Logger) (lvl : nat) (message : string) (meta : JsObj)
    (w : World) :
  (level lg < lvl → write host af lg lvl message meta w = Normal w) ∧
  (lvl ≤ level lg →
   ∃ w', write host af lg lvl message meta w = Normal w' ∧
         EmittedOnce host af (outputs lg) lvl
           (formatMessage host lg lvl message meta w) w w') ∧
  (∀ cfg, cfg_level cfg = Some WARN →
     let warnLogger := Logger_fields host cfg in
     let entry := formatMessage host warnLogger ERROR message meta w in
     info host af warnLogger message meta w = Normal w ∧
     (∃ w', error host af warnLogger message meta w = Normal w' ∧
            EmittedOnce host af (outputs warnLogger) ERROR entry w w') ∧
     (Map_get "level" meta = None → obj_get "level" entry = VStr "ERROR") ∧
     (∀ v, NoDup meta.*1 → Map_get "level" meta = Some v →
           obj_get "level" entry = v)).
Proof.
  split_and!.
  - apply write_skips.
  - apply write_emits.
  - intros cfg Hcfg warnLogger entry.
    assert (level warnLogger = WARN) as Hlevel.
    { unfold warnLogger, Logger_fields. simpl. by rewrite Hcfg. }
    split_and!.
    + apply write_skips. rewrite Hlevel. unfold INFO, WARN. lia.
    + apply write_emits. unfold ERROR. lia.
    + intros Hmeta. by apply formatMessage_level.
    + intros v Hnd Hmeta. by apply formatMessage_level_override.
Qed.

(** A failed append never leaves [write]: the [catch] turns it into one
    [console.error] call, and the file is as it was. *)
Lemma append_fault_caught
    (e : string) (lg : Logger) (lvl : nat) (message : string) (meta : JsObj)
    (w : World) :
  lvl ≤ level lg → "file" ∈ outputs lg →
  ∃ w', write host (Some e) lg lvl message meta w = Normal w' ∧
        last (console w') = Some (fallbackNotice e) ∧
        logdir w' = logdir w.
Proof.
  intros Hle Hfile.
  destruct (write_emits (Some e) lg lvl message meta w Hle) as (w' & Hw & _ & Hem).
  rewrite bool_decide_eq_true_2 in Hem by done. destruct Hem as [Hd Hc].
  exists w'. split_and!; [done | | done].
  rewrite Hc, app_assoc. apply last_snoc.
Qed.

(** C2. An I/O fault is not always kept from the caller: when the log
    directory is missing and cannot be created, [mkdirSync] throws inside
    [ensureLogDirectory], nothing catches it, and the constructor (and with
    it [initialize], [getLogger], [child] and [createLogger]) ends by
    throwing that very error; nothing is printed on the console. *)
Theorem mkdir_fault_escapes_constructor
    (cfg : Config) (msg : string) (t : nat) (lg : Logger) (moduleName : string)
    (rf : RotationFaults) :
  Logger_new host (Some msg) rf cfg (freshWorld t) = Throw msg ∧
  child host (Some msg) rf lg moduleName (freshWorld t) = Throw msg.
Proof. done. Qed.

(** C9. A configured level of [ERROR] (numerically 0) is not kept: the
    constructor reads [config.level || INFO], so the logger it returns has
    threshold [INFO], and [info] and [warn] calls on it are emitted.  Any
    other supplied level from 1 to 4 is kept as given.  (The constructor
    returns when no file-system call of its rotation check fails, and
    whenever it returns, that is the logger it returns.) *)
Theorem error_level_config_becomes_info
    (cfg : Config) (n : nat) (w : World) :
  cfg_level cfg = Some n → n ≤ 4 →
  ∃ w0, Logger_new host None noFaults cfg w
        = Normal (Logger_fields host cfg, w0) ∧
    (∀ mf rf lg w', Logger_new host mf rf cfg w = Normal (lg, w') →
                    lg = Logger_fields host cfg) ∧
    (1 ≤ n → level (Logger_fields host cfg) = n) ∧
    (n = ERROR →
     level (Logger_fields host cfg) = INFO ∧
     ∀ af lvl message meta w1, lvl = INFO ∨ lvl = WARN →
       ∃ w', write host af (Logger_fields host cfg) lvl message meta w1 = Normal w' ∧
             EmittedOnce host af (outputs (Logger_fields host cfg)) lvl
               (formatMessage host (Logger_fields host cfg) lvl message meta w1)
               w1 w').
Proof.
  intros Hcfg Hn. destruct (Logger_new_returns cfg w) as [w0 Hw0].
  exists w0. split; [done|]. split; [|split].
  - intros mf rf lg w'. unfold Logger_new.
    destruct (ensureLogDirectory mf w) as [w1|e]; [|done]. simpl.
    destruct (rotateLogs rf (Logger_fields host cfg) w1) as [w2|e]; [|done].
    simpl. by intros [= <- _].
  - intros Hpos. unfold Logger_fields. simpl. rewrite Hcfg.
    destruct n; [lia|done].
  - intros ->. assert (level (Logger_fields host cfg) = INFO) as Hlevel.
    { unfold Logger_fields. simpl. by rewrite Hcfg. }
    split; [done|]. intros af lvl message meta w1 Hlvl.
    apply write_emits. rewrite Hlevel. unfold INFO, WARN in *. lia.
Qed.

End WithHost.

Lemma write_emits_iff_within_threshold_witness :
  let lg := Logger_fields exampleHost (exampleConfig (Some WARN) ["console"] 100 2) in
  info exampleHost None lg "started" [] (freshWorld 7) = Normal (freshWorld 7) ∧
  error exampleHost None lg "crashed" [] (freshWorld 7) =
    Normal {| logdir := None;
              console :=
                [{| method := ConsoleError;
                    args := [esc +:+ "[31m[7] [ERROR] [app]" +:+ esc +:+ "[0m crashed"] |}];
              clock := 7 |} ∧
  obj_get "level" (formatMessage exampleHost lg ERROR "crashed" [] (freshWorld 7))
  = VStr "ERROR".
Proof.
  intros lg.
  destruct (write_emits_iff_within_threshold exampleHost None lg INFO
              "started" [] (freshWorld 7)) as (Hskip & _ & _).
  destruct (write_emits_iff_within_threshold exampleHost None lg ERROR
              "crashed" [] (freshWorld 7)) as (_ & _ & Hwarn).
  destruct (Hwarn (exampleConfig (Some WARN) ["console"] 100 2) eq_refl)
    as (_ & _ & Hlevel & _).
  split_and!; [apply Hskip; vm_compute; lia | reflexivity | exact (Hlevel eq_refl)].
Defined.

(** C6 as stated fails for an [error] call whose metadata has a [level]
    key: [formatMessage] spreads the metadata after the standard fields, so
    the one record that goes out carries the metadata's value in its [level]
    field, on the console line as well. *)
Lemma error_record_level_overridden :
  let lg := Logger_fields exampleHost (exampleConfig (Some WARN) ["console"] 100 2) in
  let meta := [("level", VStr "fatal")] in
  let entry := formatMessage exampleHost lg ERROR "crashed" meta (freshWorld 7) in
  error exampleHost None lg "crashed" meta (freshWorld 7) =
    Normal {| logdir := None;
              console :=
                [{| method := ConsoleError;
                    args := ["[7] [fatal] [app]" +:+ esc +:+ "[0m crashed"] |}];
              clock := 7 |} ∧
  obj_get "level" entry = VStr "fatal" ∧
  obj_get "level" entry ≠ VStr "ERROR".
Proof. split_and!; [reflexivity | reflexivity | discriminate]. Qed.

Lemma error_level_config_becomes_info_witness :
  cfg_level (exampleConfig (Some ERROR) ["console"] 100 2) = Some ERROR ∧
  ERROR ≤ 4 ∧
  level (Logger_fields exampleHost (exampleConfig (Some ERROR) ["console"] 100 2))
  = INFO.
Proof.
  split_and!; [reflexivity | unfold ERROR; lia |].
  destruct (error_level_config_becomes_info exampleHost
              (exampleConfig (Some ERROR) ["console"] 100 2) ERROR (freshWorld 0)
              eq_refl) as (w0 & _ & _ & _ & Hzero).
  - unfold ERROR. lia.
  - exact (proj1 (Hzero eq_refl)).
Defined.

End LoggerFacts.

(* ===================================================================== *)
(** ** The logger: rotation                                               *)
(* ===================================================================== *)

Module RotationFacts.
Import Js JsFacts Logger LoggerFacts.

(** Case analysis on the slot tests, closing what arithmetic closes. *)
Ltac slots := repeat case_decide; try lia; try done.

(** What the loop of [rotateLogs] has done once the slots above [i] are
    processed, in terms of the generations [g0] it started from. *)
Lemma rotate_loop_lookup (N : nat) (g0 : gmap nat File) :
  (∀ k f, g0 !! k = Some f → k ≤ N - 1) →
  ∀ (i : nat) (g : gmap nat File),
    i ≤ N - 1 →
    (∀ k, g !! k = if decide (k ≤ i) then g0 !! k
                   else if decide (k = S i) then None
                   else if decide (k ≤ N - 1) then g0 !! (k - 1) else None) →
    ∀ k, rotate_loop N i g !! k =
         if decide (k = 0) then g0 !! 0
         else if decide (k = 1) then None
         else if decide (k ≤ N - 1) then g0 !! (k - 1) else None.
Proof.
  intros Hslots i. induction i as [|j IH]; intros g Hi Hg k.
  - simpl. rewrite Hg. destruct (decide (k ≤ 0)), (decide (k = 0)); try lia.
    + by subst.
    + done.
  - cbn [rotate_loop]. apply IH; [lia|]. clear k. intros k.
    pose proof (Hg (S j)) as Hcur. rewrite decide_True in Hcur by lia.
    pose proof (Hg k) as Hk.
    destruct (g !! S j) as [oldFile|] eqn:Hold.
    + destruct (decide (S j = N - 1)) as [Hlast|Hmid].
      * destruct (decide (k = S j)) as [->|Hne].
        { rewrite lookup_delete_eq. slots. }
        rewrite lookup_delete_ne by done. rewrite Hk. slots.
      * destruct (decide (k = S j + 1)) as [->|Hne1].
        { rewrite lookup_insert_eq. slots.
          replace (S j + 1 - 1) with (S j) by lia. done. }
        rewrite lookup_insert_ne by done.
        destruct (decide (k = S j)) as [->|Hne].
        { rewrite lookup_delete_eq. slots. }
        rewrite lookup_delete_ne by done. rewrite Hk. slots.
    + rewrite Hk. slots.
      * subst k. congruence.
      * replace (k - 1) with (S j) by lia. congruence.
Qed.

(** An empty slot above the loop's range stays empty, whatever the range
    holds: the loop writes no slot beyond [i + 1]. *)
Lemma rotate_loop_zero (N : nat) (g : gmap nat File) : rotate_loop N 0 g = g.
Proof. done. Qed.

Section Rotation.
Context (lg : Logger).
Local Abbreviation cap := (genCap (maxLogFiles lg)).

(** One triggered rotation, slot by slot: the active file becomes
    generation 1, generation [k - 1] becomes generation [k] up to the cap,
    nothing lies beyond. *)
Lemma rotateDir_gens (d : LogDir) (f : File) :
  (∀ i f', gens d !! i = Some f' → 1 ≤ i ≤ cap) →
  active d = Some f → maxLogSize lg < size_of f →
  active (rotateDir lg d) = None ∧
  nextBorn (rotateDir lg d) = nextBorn d ∧
  ∀ k, gens (rotateDir lg d) !! k =
       if decide (k = 1) then Some f
       else if decide (2 ≤ k ≤ cap) then gens d !! (k - 1) else None.
Proof.
  intros Hslots Hact Hbig. unfold rotateDir. rewrite Hact.
  rewrite decide_True by done. cbn [active gens nextBorn].
  split_and!; [done..|]. intros k.
  destruct (decide (k = 1)) as [->|Hk1]; [by rewrite lookup_insert_eq|].
  rewrite lookup_insert_ne by done.
  destruct (decide (maxLogFiles lg ≤ 1)) as [Hsmall|Hlarge].
  - replace (maxLogFiles lg - 1) with 0 by lia. rewrite rotate_loop_zero.
    assert (cap = 1) as Hcap by (unfold genCap; lia).
    rewrite decide_False by lia.
    destruct (gens d !! k) as [f'|] eqn:Hk; [|done].
    apply Hslots in Hk. lia.
  - assert (cap = maxLogFiles lg - 1) as Hcap by (unfold genCap; lia).
    rewrite (rotate_loop_lookup (maxLogFiles lg) (gens d)); [| |done|].
    + destruct (decide (k = 0)) as [->|Hk0].
      * rewrite decide_False by lia.
        destruct (gens d !! 0) as [f'|] eqn:H0; [|done].
        apply Hslots in H0. lia.
      * rewrite decide_False by done. rewrite Hcap.
        repeat case_decide; try lia; done.
    + intros k' f' Hk'. apply Hslots in Hk'. lia.
    + intros k'. destruct (decide (k' ≤ maxLogFiles lg - 1)); [done|].
      destruct (decide (k' = S (maxLogFiles lg - 1))).
      * destruct (gens d !! k') as [f'|] eqn:Hk'; [|done].
        apply Hslots in Hk'. lia.
      * destruct (gens d !! k') as [f'|] eqn:Hk'; [|done].
        apply Hslots in Hk'. lia.
Qed.

Lemma rotateDir_idle (d : LogDir) :
  (∀ f, active d = Some f → ¬ maxLogSize lg < size_of f) → rotateDir lg d = d.
Proof.
  intros Hsmall. unfold rotateDir. destruct (active d) as [f|] eqn:Hact; [|done].
  rewrite decide_False; [done|]. by apply Hsmall.
Qed.

(** A rotation check either leaves the directory alone or is a triggered
    rotation. *)
Lemma rotateDir_cases (d : LogDir) :
  rotateDir lg d = d ∨
  ∃ f, active d = Some f ∧ maxLogSize lg < size_of f.
Proof.
  destruct (active d) as [f|] eqn:Hact.
  - destruct (decide (maxLogSize lg < size_of f)); [right; eauto|].
    left. apply rotateDir_idle. intros f' Hf'. congruence.
  - left. apply rotateDir_idle. intros f' Hf'. congruence.
Qed.

Lemma Aged_empty : Aged cap emptyDir.
Proof. split; simpl; intros; simplify_map_eq. Qed.

Lemma Aged_rotateDir (d : LogDir) : Aged cap d → Aged cap (rotateDir lg d).
Proof.
  intros HA. destruct (rotateDir_cases d) as [->|(f & Hact & Hbig)]; [done|].
  destruct (rotateDir_gens d f (aged_slots _ _ HA) Hact Hbig)
    as (Hact' & Hnext' & Hgens).
  assert (1 ≤ cap) as Hcap1 by (unfold genCap; lia).
  (* where a file of the rotated directory comes from *)
  assert (Horigin : ∀ k fk, gens (rotateDir lg d) !! k = Some fk →
            1 ≤ k ≤ cap ∧
            ((k = 1 ∧ fk = f) ∨ (2 ≤ k ∧ gens d !! (k - 1) = Some fk))).
  { intros k fk. rewrite Hgens.
    destruct (decide (k = 1)) as [->|]; [intros [= <-]; split; [lia|by left]|].
    destruct (decide (2 ≤ k ≤ cap)); [|done].
    intros Hk. split; [lia|]. right. split; [lia|done]. }
  split.
  - intros i fi Hi. by apply Horigin in Hi as [? _].
  - intros i fi Hi. rewrite Hnext'.
    apply Horigin in Hi as [_ [[_ ->]|[_ Hi]]].
    + by apply (aged_active_born _ _ HA).
    + by apply (aged_gen_born _ _ HA) in Hi.
  - intros f'. by rewrite Hact'.
  - intros i j fi fj Hij Hi Hj.
    apply Horigin in Hi as [_ [[-> ->]|[Hi2 Hi]]];
      apply Horigin in Hj as [_ [[-> ->]|[Hj2 Hj]]]; try lia.
    + by apply (aged_active _ _ HA (j - 1)).
    + apply (aged_order _ _ HA (i - 1) (j - 1)); [lia|done..].
  - intros i fi fa _. by rewrite Hact'.
Qed.

Lemma Aged_appendActive (text : string) (d : LogDir) :
  Aged cap d → Aged cap (appendActive text d).
Proof.
  intros HA. unfold appendActive.
  destruct (active d) as [f|] eqn:Hact; split; cbn [active gens nextBorn born].
  - apply (aged_slots _ _ HA).
  - apply (aged_gen_born _ _ HA).
  - intros f' [= <-]. simpl. by apply (aged_active_born _ _ HA).
  - apply (aged_order _ _ HA).
  - intros i fi fa Hi [= <-]. simpl. by apply (aged_active _ _ HA i).
  - apply (aged_slots _ _ HA).
  - intros i fi Hi. apply (aged_gen_born _ _ HA) in Hi. lia.
  - intros f' [= <-]. simpl. lia.
  - apply (aged_order _ _ HA).
  - intros i fi fa Hi [= <-]. simpl. by apply (aged_gen_born _ _ HA) in Hi.
Qed.



End Rotation.


Lemma rotateDir_irrelevant (lg lg' : Logger) (d : LogDir) :
  maxLogSize lg = maxLogSize lg' → maxLogFiles lg = maxLogFiles lg' →
  rotateDir lg d = rotateDir lg' d.
Proof. intros Hs Hf. unfold rotateDir. by rewrite Hs, Hf. Qed.

Section Runs.
Context (host : Host) (N : nat).
Local Abbreviation cap := (genCap N).

(** A write changes the directory by an append at most, and does not make
    or remove the directory. *)
Lemma write_logdir af lg lvl message meta w w' :
  write host af lg lvl message meta w = Normal w' →
  logdir w' = logdir w ∨
  ∃ d text, logdir w = Some d ∧ logdir w' = Some (appendActive text d).
Proof.
  destruct (decide (level lg < lvl)) as [Hskip|Hemit].
  - rewrite write_skips by done. intros [= <-]. by left.
  - destruct (write_emits host af lg lvl message meta w) as (w1 & -> & _ & Hem);
      [lia|].
    intros [= <-].
    destruct (bool_decide ("file" ∈ outputs lg)), af, (logdir w) as [d|];
      destruct Hem as [Hd' _]; eauto.
Qed.

(** A step that returns keeps the directory arranged by age, whichever
    logger configured with [maxLogFiles = N] takes it. *)
Lemma step_Aged (lg : Logger) (op : Op) (w w' : World) :
  maxLogFiles lg = N →
  (∀ d, logdir w = Some d → Aged cap d) →
  step host lg op w = Normal w' →
  ∀ d', logdir w' = Some d' → Aged cap d'.
Proof.
  intros HN HA. destruct op as [af lvl message meta|mf rf|dt]; cbn [step].
  - intros Hw d' Hd'.
    apply write_logdir in Hw as [Hsame|(d & text & Hd & Hd1)].
    + apply HA. congruence.
    + rewrite Hd1 in Hd'. injection Hd' as <-.
      rewrite <-HN. apply Aged_appendActive. rewrite HN. by apply HA.
  - destruct (ensureLogDirectory mf w) as [w1|e] eqn:Hmk; [|done].
    cbn [mbind Completion_bind]. intros Hrot d' Hd'.
    apply rotateLogs_returns in Hrot as ->.
    assert (HA1 : ∀ d, logdir w1 = Some d → Aged cap d).
    { unfold ensureLogDirectory, mkdirSync in Hmk.
      destruct (logdir w) as [d0|] eqn:Hd0.
      - injection Hmk as <-. intros d Hd. apply HA. congruence.
      - destruct mf; [done|]. injection Hmk as <-. cbn [logdir default].
        intros d [= <-]. rewrite <-HN. apply Aged_empty. }
    unfold rotateWorld in Hd'.
    destruct (logdir w1) as [d1|] eqn:Hd1; [|congruence].
    cbn [logdir] in Hd'. injection Hd' as <-.
    rewrite <-HN. apply Aged_rotateDir. rewrite HN. by apply HA1.
  - intros [= <-]. cbn [logdir]. apply HA.
Qed.

Lemma runAll_Aged (steps : list (Logger * Op)) (w w' : World) :
  Forall (λ s, maxLogFiles s.1 = N) steps →
  (∀ d, logdir w = Some d → Aged cap d) →
  runAll host steps w = Normal w' →
  ∀ d', logdir w' = Some d' → Aged cap d'.
Proof.
  revert w. induction steps as [|[lg op] steps IH]; intros w Hall HA;
    cbn [runAll].
  - by intros [= <-].
  - apply Forall_cons in Hall as [HN Hall]. cbn [fst snd] in *.
    destruct (step host lg op w) as [w1|e] eqn:Hstep; [|done].
    cbn [mbind Completion_bind]. apply IH; [done|].
    by apply (step_Aged lg op w w1).
Qed.

(** A step that returns does not remove the directory. *)
Lemma step_keeps_directory (lg : Logger) (op : Op) (w w' : World) :
  is_Some (logdir w) → step host lg op w = Normal w' → is_Some (logdir w').
Proof.
  intros [d Hd]. destruct op as [af lvl message meta|mf rf|dt]; cbn [step].
  - intros Hw. apply write_logdir in Hw as [Hsame|(d0 & text & _ & ->)];
      [rewrite Hsame, Hd|]; by eexists.
  - unfold ensureLogDirectory. rewrite Hd. cbn [mbind Completion_bind].
    intros Hrot. apply rotateLogs_returns in Hrot as ->.
    unfold rotateWorld. rewrite Hd. by eexists.
  - intros [= <-]. cbn [logdir]. by eexists.
Qed.

End Runs.

Lemma run_runAll host lg ops w :
  run host lg ops w = runAll host ((λ op, (lg, op)) <$> ops) w.
Proof.
  revert w. induction ops as [|op ops IH]; intros w; [done|].
  cbn [run fmap list_fmap runAll fst snd].
  destruct (step host lg op w); [|done]. cbn [mbind Completion_bind]. apply IH.
Qed.

Lemma run_Aged host lg ops w w' :
  (∀ d, logdir w = Some d → Aged (genCap (maxLogFiles lg)) d) →
  run host lg ops w = Normal w' →
  ∀ d', logdir w' = Some d' → Aged (genCap (maxLogFiles lg)) d'.
Proof.
  intros HA. rewrite run_runAll. apply runAll_Aged; [|done].
  apply Forall_fmap, Forall_true. done.
Qed.

Lemma run_keeps_directory host lg ops w w' :
  is_Some (logdir w) → run host lg ops w = Normal w' → is_Some (logdir w').
Proof.
  revert w. induction ops as [|op ops IH]; intros w Hd; cbn [run].
  - by intros [= <-].
  - destruct (step host lg op w) as [w1|e] eqn:Hstep; [|done].
    cbn [mbind Completion_bind]. apply IH. by eapply step_keeps_directory.
Qed.

(** The constructor leaves a fresh machine with an empty log directory; the
    rotation check finds no file there and makes no call that could
    fail. *)
Lemma Logger_new_fresh host rf cfg t :
  Logger_new host None rf cfg (freshWorld t) =
  Normal (Logger_fields host cfg,
          {| logdir := Some emptyDir; console := []; clock := t |}).
Proof.
  unfold Logger_new, ensureLogDirectory, mkdirSync.
  cbn [freshWorld logdir default mbind Completion_bind console clock].
  rewrite rotateLogs_no_active; [done|]. by intros d [= <-].
Qed.


(** The scenario of the specification, run: [maxLogSize = 100],
    [maxLogFiles = 2], three rounds of writes each ended by a rotation
    check.  After the first round the file written first is generation 1;
    the second check deletes it although it is the only generation, and the
    third deletes the second: one generation file is left, the one created
    last, where two were to be kept. *)
Lemma rotation_scenario :
  let lg := Logger_fields exampleHost (exampleConfig None ["file"] 100 2) in
  let start := {| logdir := Some emptyDir; console := []; clock := 0 |} in
  (∃ w d, run exampleHost lg exampleRound start = Normal w ∧
          logdir w = Some d ∧ map_to_list (born <$> gens d) = [(1, 0)]) ∧
  (∃ w d, run exampleHost lg (exampleRound ++ exampleRound) start = Normal w ∧
          logdir w = Some d ∧ map_to_list (born <$> gens d) = [(1, 1)]) ∧
  (∃ w d, run exampleHost lg exampleOps start = Normal w ∧
          logdir w = Some d ∧ active d = None ∧
          map_to_list (born <$> gens d) = [(1, 2)] ∧ fileCount d = 1).
Proof. vm_compute. split_and!; eexists _, _; split_and!; reflexivity. Qed.

(** With [maxLogFiles = 5], seven rotations leave four generations, the
    four most recent files; a fifth generation is never written. *)
Lemma rotation_keeps_four_of_five :
  let lg := Logger_fields exampleHost (exampleConfig None ["file"] 100 5) in
  let start := {| logdir := Some emptyDir; console := []; clock := 0 |} in
  ∃ w d, run exampleHost lg (concat (replicate 7 exampleRound)) start = Normal w ∧
         logdir w = Some d ∧ active d = None ∧ size (gens d) = 4 ∧
         (λ k, born <$> gens d !! k) <$> [1; 2; 3; 4; 5]
         = [Some 6; Some 5; Some 4; Some 3; None].
Proof. vm_compute. eexists _, _. split_and!; reflexivity. Qed.


End RotationFacts.

(* ===================================================================== *)
(** ** The performance monitor                                            *)
(* ===================================================================== *)

Module MonitorFacts.
Import Js JsFacts PerformanceMonitor.

Lemma enabled_new (cfg : Config) :
  cfg_enabled cfg ≠ VBool false → enabled (PerformanceMonitor_new cfg) = true.
Proof. intros. simpl. by rewrite bool_decide_eq_false_2. Qed.

Lemma recordMetric_off now name v meta (m : Monitor) :
  enabled m = false → recordMetric now name v meta m = Normal m.
Proof. intros Hoff. unfold recordMetric. by rewrite Hoff. Qed.

(** On an enabled monitor a name every object inherits makes
    [recordMetric] throw. *)
Lemma recordMetric_inherited now name v meta (m : Monitor) :
  enabled m = true → name ∈ inheritedNames →
  recordMetric now name v meta m = Throw TypeError.
Proof. intros Hon Hin. unfold recordMetric. rewrite Hon. simpl. by rewrite decide_True. Qed.

Lemma recordMetric_on now name v meta (m : Monitor) :
  enabled m = true → name ∉ inheritedNames →
  ∃ m', recordMetric now name v meta m = Normal m' ∧
    enabled m' = true ∧ maxSamples m' = maxSamples m ∧
    metrics m' = metrics m ∧
    ∀ name',
      seriesOf name' m' =
      if decide (name = name')
      then push_bounded (maxSamples m)
             {| timestamp := now; value := v; metadata := meta |} (seriesOf name m)
      else seriesOf name' m.
Proof.
  intros Hon Hname. unfold recordMetric. rewrite Hon. simpl.
  rewrite decide_False by done. eexists. split; [done|]. simpl.
  split_and!; [done..|]. intros name'. unfold seriesOf. simpl.
  destruct (decide (name = name')) as [->|Hne].
  - by rewrite lookup_insert_eq.
  - by rewrite lookup_insert_ne.
Qed.

Lemma recordAll_snoc calls (c : MetricCall) (m : Monitor) :
  recordAll (calls ++ [c]) m =
  match recordMetric c.1.1.1 c.1.1.2 c.1.2 c.2 (recordAll calls m) with
  | Normal m' => m'
  | Throw _ => recordAll calls m
  end.
Proof. unfold recordAll. by rewrite foldl_snoc. Qed.

(** A disabled monitor records nothing. *)
Lemma recordAll_off calls (m : Monitor) : enabled m = false → recordAll calls m = m.
Proof.
  intros Hoff. induction calls as [|c calls IH] using rev_ind; [done|].
  rewrite recordAll_snoc, IH. by rewrite recordMetric_off.
Qed.

(** An enabled monitor holds, under each name that is not an inherited one,
    the most recent [maxSamples] samples recorded under that name; calls
    under an inherited name throw and store nothing. *)
Lemma recordAll_on (cfg : Config) (calls : list MetricCall) :
  cfg_enabled cfg ≠ VBool false →
  let m := recordAll calls (PerformanceMonitor_new cfg) in
  enabled m = true ∧
  maxSamples m = num_or (cfg_maxSamples cfg) 300 ∧
  ∀ name, name ∉ inheritedNames → HoldsMostRecent cfg name calls.
Proof.
  intros Hcfg. unfold HoldsMostRecent.
  induction calls as [|c calls IH] using rev_ind.
  - simpl. split_and!; [by rewrite bool_decide_eq_false_2 | done |].
    intros name _. by unfold seriesOf.
  - destruct IH as (Hon & Hcap & Hseries). rewrite recordAll_snoc.
    change c.1.1.2 with (nameOf c).
    destruct (decide (nameOf c ∈ inheritedNames)) as [Hin|Hout].
    + rewrite (recordMetric_inherited _ _ _ _ _ Hon Hin).
      split_and!; [done..|]. intros name Hname.
      unfold namedCalls. rewrite filter_app, fmap_app.
      rewrite filter_cons_False, filter_nil by (intros Heq; by subst name).
      rewrite fmap_nil, app_nil_r. by apply Hseries.
    + destruct (recordMetric_on c.1.1.1 (nameOf c) c.1.2 c.2 _ Hon Hout)
        as (m' & -> & Hon' & Hcap' & _ & Hseries').
      split_and!; [done | congruence |]. intros name Hname.
      rewrite Hseries', Hcap'. unfold namedCalls. rewrite filter_app, fmap_app.
      destruct (decide (nameOf c = name)) as [Hc|Hc].
      * rewrite filter_cons_True, filter_nil by done. simpl.
        rewrite Hc, (Hseries name Hname). unfold push_bounded.
        rewrite push_shift_slice. by destruct c as [[[now nm] v] meta].
      * rewrite filter_cons_False, filter_nil by done.
        rewrite fmap_nil, app_nil_r. by apply Hseries.
Qed.

(** *** Timing *)

Lemma performance_now_mono (t dt : nat) :
  (0 ≤ performance_now (t + dt) - performance_now t)%Qc.
Proof.
  unfold Qcminus.
  apply (proj1 (Qcle_minus_iff (performance_now t) (performance_now (t + dt)))).
  unfold performance_now, Qcdiv. apply Qcmult_le_compat_r.
  - unfold Qc_of_nat. apply (proj1 (Z2Qc_inj_le _ _)). lia.
  - apply Qclt_le_weak, Qcinv_pos. unfold Qc_of_nat.
    rewrite <-Z2Qc_inj_0. apply (proj1 (Z2Qc_inj_lt _ _)). lia.
Qed.

Section Measure.
Context (toFixed : nat → Qc → string) {E A : Type}.

(** What both wrappers do with an enabled monitor whose series respect the
    cap, under a name of its own. *)
Lemma records_and_passes (name : string) (fn : Run E A) (t : nat)
    (m m' : Monitor) (now : nat) (logs : list LogCall) :
  enabled m = true → name ∉ inheritedNames → 1 ≤ maxSamples m →
  length (seriesOf name m) ≤ maxSamples m →
  recordMetric now name
    (performance_now (t + took fn) - performance_now t)%Qc
    (match outcome fn with
     | Throw _ => [("error", VBool true)]
     | Normal _ => []
     end) m = Normal m' →
  RecordsAndPasses (passed (outcome fn), m', logs) name fn t m.
Proof.
  intros Hon Hname Hcap Hlen Hrec. split; [done|]. simpl.
  eexists {| timestamp := now; value := _; metadata := _ |}.
  destruct (recordMetric_on now name
              (performance_now (t + took fn) - performance_now t)%Qc
              (match outcome fn with
               | Throw _ => [("error", VBool true)]
               | Normal _ => []
               end) m Hon Hname) as (m0 & Hrec0 & _ & _ & _ & Hseries).
  rewrite Hrec in Hrec0. injection Hrec0 as <-.
  rewrite Hseries, decide_True by done. unfold push_bounded.
  rewrite push_shift_within by done.
  split_and!; [done | by apply last_slice_last_snoc | done | | ].
  - simpl. apply performance_now_mono.
  - simpl. by destruct (outcome fn).
Qed.

(** When the call of [recordMetric] returns, both wrappers pass the outcome
    of the function on. *)
Lemma measure_unfold (name : string) (fn : Run E A) (t : nat) (m m' : Monitor) :
  recordMetric (Date_now (t + took fn)) name
    (performance_now (t + took fn) - performance_now t)%Qc
    (match outcome fn with
     | Throw _ => [("error", VBool true)]
     | Normal _ => []
     end) m = Normal m' →
  ∃ logs, measure toFixed name fn t m = (passed (outcome fn), m', logs).
Proof.
  unfold measure, rethrow. destruct (outcome fn); intros ->; by eexists.
Qed.

Lemma measureAsync_unfold (name : string) (fn : Run E A) (t : nat)
    (m m' : Monitor) :
  recordMetric (Date_now (t + took fn)) name
    (performance_now (t + took fn) - performance_now t)%Qc
    (match outcome fn with
     | Throw _ => [("error", VBool true)]
     | Normal _ => []
     end) m = Normal m' →
  ∃ logs, measureAsync toFixed name fn t m = (passed (outcome fn), m', logs).
Proof.
  unfold measureAsync, rethrow. destruct (outcome fn); intros ->; by eexists.
Qed.

(** C4, as amended.  On an enabled monitor (one constructed with
    [enabled] other than [false], after any recordings), for every function
    and every name that is not the name of a property every object inherits:
    [measure] and [measureAsync] hand the caller the function's own outcome,
    the result when it succeeds and the very value it threw or rejected with
    when it fails, and add to the series of [name] one sample whose duration
    is non-negative and which carries [error: true] exactly when the
    function failed. *)
Theorem measure_records_and_passes
    (cfg : Config) (calls : list MetricCall) (name : string) (fn : Run E A)
    (t : nat) :
  cfg_enabled cfg ≠ VBool false →
  name ∉ inheritedNames →
  let m := recordAll calls (PerformanceMonitor_new cfg) in
  RecordsAndPasses (measure toFixed name fn t m) name fn t m ∧
  RecordsAndPasses (measureAsync toFixed name fn t m) name fn t m.
Proof.
  intros Hcfg Hname m.
  destruct (recordAll_on cfg calls Hcfg) as (Hon & Hcap & Hseries).
  fold m in Hon, Hcap.
  assert (1 ≤ maxSamples m) as Hpos by (rewrite Hcap; apply num_or_pos; lia).
  assert (length (seriesOf name m) ≤ maxSamples m) as Hlen.
  { unfold m. rewrite (Hseries name Hname), length_slice_last. fold m. lia. }
  destruct (recordMetric_on (Date_now (t + took fn)) name
              (performance_now (t + took fn) - performance_now t)%Qc
              (match outcome fn with
               | Throw _ => [("error", VBool true)]
               | Normal _ => []
               end) m Hon Hname) as (m' & Hrec & _).
  destruct (measure_unfold name fn t m m' Hrec) as [logs ->].
  destruct (measureAsync_unfold name fn t m m' Hrec) as [logs' ->].
  split; by eapply records_and_passes.
Qed.

(** With monitoring disabled the wrappers still pass the outcome through,
    and leave the monitor as it was. *)
Lemma measure_disabled (name : string) (fn : Run E A) (t : nat) (m : Monitor) :
  enabled m = false →
  (measure toFixed name fn t m).1 = (passed (outcome fn), m) ∧
  (measureAsync toFixed name fn t m).1 = (passed (outcome fn), m).
Proof.
  intros Hoff. unfold measure, measureAsync, rethrow.
  destruct (outcome fn); simpl; by rewrite recordMetric_off.
Qed.

(** Under an inherited name an enabled monitor records nothing and the
    caller gets a [TypeError] in place of the function's outcome:
    [recordMetric] throws in the [try] and again in the [catch]. *)
Lemma measure_inherited_name (name : string) (fn : Run E A) (t : nat)
    (m : Monitor) :
  enabled m = true → name ∈ inheritedNames →
  measure toFixed name fn t m = (Throw (inr TypeError), m, []) ∧
  measureAsync toFixed name fn t m = (Throw (inr TypeError), m, []).
Proof.
  intros Hon Hin. unfold measure, measureAsync, rethrow.
  destruct (outcome fn); by rewrite !recordMetric_inherited.
Qed.

End Measure.

Lemma measure_records_and_passes_witness :
  let cfg := exampleConfig VUndef 2 in
  let m := recordAll exampleMetricCalls (PerformanceMonitor_new cfg) in
  cfg_enabled cfg ≠ VBool false ∧
  RecordsAndPasses (measure exampleToFixed "op" exampleThrowing 1000 m)
    "op" exampleThrowing 1000 m ∧
  RecordsAndPasses (measureAsync exampleToFixed "op" exampleReturning 1000 m)
    "op" exampleReturning 1000 m.
Proof.
  intros cfg m.
  assert (cfg_enabled cfg ≠ VBool false) as Hon by discriminate.
  assert ("op" ∉ inheritedNames) as Hname
    by (apply (bool_decide_unpack _); vm_compute; exact I).
  split_and!; [exact Hon | |].
  - exact (proj1 (measure_records_and_passes exampleToFixed cfg
                    exampleMetricCalls "op" exampleThrowing 1000 Hon Hname)).
  - exact (proj2 (measure_records_and_passes exampleToFixed cfg
                    exampleMetricCalls "op" exampleReturning 1000 Hon Hname)).
Defined.

(** C4 as stated fails on a monitor constructed with [enabled: false]: the
    thrown value still reaches the caller, but [recordMetric] returns at its
    first line and no sample is recorded under the name. *)
Lemma measure_disabled_records_nothing :
  let m := PerformanceMonitor_new (exampleConfig (VBool false) 2) in
  (measure exampleToFixed "op" exampleThrowing 1000 m).1
    = (Throw (inl "boom"), m) ∧
  seriesOf "op" (measure exampleToFixed "op" exampleThrowing 1000 m).1.2 = [] ∧
  ¬ RecordsAndPasses (measure exampleToFixed "op" exampleThrowing 1000 m)
      "op" exampleThrowing 1000 m.
Proof.
  intros m. split_and!; [reflexivity | reflexivity |].
  intros (_ & s & _ & Hlast & _). vm_compute in Hlast. discriminate.
Qed.

(** *** Statistics *)

Lemma ascending_le (a b : Qc) : ascending a b = true ↔ (a ≤ b)%Qc.
Proof. unfold ascending. apply bool_decide_eq_true. Qed.


Lemma percentileIndex_lt (len hundredths : nat) :
  1 ≤ len → hundredths < 100 → percentileIndex len hundredths < len.
Proof.
  intros Hlen Hp. unfold percentileIndex.
  apply Nat.Div0.div_lt_upper_bound. nia.
Qed.



End MonitorFacts.

(* ===================================================================== *)
(** ** The error tracker                                                  *)
(* ===================================================================== *)

Module TrackerFacts.
Import Js JsFacts ErrorTracker.

Lemma trackError_off now error context (t : Tracker) :
  enabled t = false → trackError now error context t = (t, []).
Proof. intros Hoff. unfold trackError. by rewrite Hoff. Qed.

Lemma trackError_on now error context (t : Tracker) :
  enabled t = true →
  let record := errorRecord now error context in
  let key := obj_get "message" record in
  (trackError now error context t).1 =
  {| enabled := true; maxErrors := maxErrors t;
     errors :=
       if decide (maxErrors t < length (errors t ++ [record]))
       then shift (errors t ++ [record]) else errors t ++ [record];
     errorCounts :=
       Map_set key (default 0 (Map_get key (errorCounts t)) + 1) (errorCounts t) |}.
Proof. intros Hon. unfold trackError. by rewrite Hon. Qed.

Lemma trackAll_snoc calls (c : Call) (t : Tracker) :
  trackAll (calls ++ [c]) t = (trackError c.1.1 c.1.2 c.2 (trackAll calls t)).1.
Proof. unfold trackAll. by rewrite foldl_snoc. Qed.

(** A disabled tracker keeps no history and counts nothing. *)
Lemma trackAll_off calls (t : Tracker) : enabled t = false → trackAll calls t = t.
Proof.
  intros Hoff. induction calls as [|c calls IH] using rev_ind; [done|].
  rewrite trackAll_snoc, IH. by rewrite trackError_off.
Qed.

Lemma occurrences_snoc (msg : JsVal) (calls : list Call) (c : Call) :
  occurrences msg (calls ++ [c]) =
  occurrences msg calls + (if decide (keyOf c = msg) then 1 else 0).
Proof.
  unfold occurrences. rewrite filter_app, length_app. f_equal.
  rewrite filter_cons, filter_nil. by case_decide.
Qed.

Lemma firstSeen_snoc (keys : list JsVal) (k : JsVal) :
  firstSeen (keys ++ [k]) =
  if decide (k ∈ firstSeen keys) then firstSeen keys else firstSeen keys ++ [k].
Proof. unfold firstSeen. by rewrite foldl_snoc. Qed.

(** The state of an enabled tracker after any calls: the history is the
    most recent [maxErrors] records; every message is counted as often as it
    was tracked; the counts are kept in the order in which the messages
    first occurred. *)
Lemma trackAll_on (cfg : Config) (calls : list Call) :
  cfg_enabled cfg ≠ VBool false →
  let t := trackAll calls (ErrorTracker_new cfg) in
  enabled t = true ∧
  maxErrors t = num_or (cfg_maxErrors cfg) 100 ∧
  HistoryMostRecent cfg calls ∧
  (∀ msg, Map_get msg (errorCounts t) =
          if decide (occurrences msg calls = 0) then None
          else Some (occurrences msg calls)) ∧
  (errorCounts t).*1 = firstSeen (keyOf <$> calls).
Proof.
  intros Hcfg. unfold HistoryMostRecent.
  induction calls as [|c calls IH] using rev_ind.
  - simpl. split_and!; try done. by rewrite bool_decide_eq_false_2.
  - destruct IH as (Hon & Hcap & Hhist & Hcount & Hkeys).
    rewrite trackAll_snoc, trackError_on by done.
    cbn [enabled maxErrors errors errorCounts].
    change (errorRecord c.1.1 c.1.2 c.2) with (recordOf c).
    change (obj_get "message" (recordOf c)) with (keyOf c).
    split_and!; [done..| | |].
    + rewrite Hhist, fmap_app. simpl. apply push_shift_slice.
    + intros msg. rewrite Map_get_set, occurrences_snoc, !Hcount.
      destruct (decide (keyOf c = msg)) as [->|Hne].
      * rewrite (decide_False (P := _ + 1 = 0)) by lia. f_equal.
        case_decide; simpl; lia.
      * by rewrite Nat.add_0_r.
    + rewrite Map_set_keys, Hkeys, fmap_app. simpl. by rewrite firstSeen_snoc.
Qed.

Lemma firstSeen_NoDup (keys : list JsVal) : NoDup (firstSeen keys).
Proof.
  induction keys as [|k keys IH] using rev_ind; [constructor|].
  rewrite firstSeen_snoc. case_decide; [done|].
  apply NoDup_app. split_and!; [done | | apply NoDup_singleton].
  intros x Hx ->%list_elem_of_singleton. done.
Qed.

(** The message a record is counted under is the one it ends up with: a
    [message] key in the context object replaces the error's own. *)
Lemma context_message_replaces_key :
  keyOf (1, exampleError "boom", [("message", VStr "masked")]) = VStr "masked" ∧
  keyOf (1, exampleError "boom", [("module", VStr "terminal")]) = VStr "boom".
Proof. split; reflexivity. Qed.

(** *** The summary *)

Lemma byCountDesc_le (a b : JsVal * nat) : byCountDesc a b = true ↔ b.2 ≤ a.2.
Proof. unfold byCountDesc. apply bool_decide_eq_true. Qed.

#[local] Instance byCount_total : Total (λ a b : JsVal * nat, b.2 ≤ a.2).
Proof. intros a b. lia. Qed.
#[local] Instance byCount_trans : Transitive (λ a b : JsVal * nat, b.2 ≤ a.2).
Proof. intros a b c. lia. Qed.

(** The ranking behind [topErrors]: every counted message once, by
    descending count, messages with equal counts in the order the tracker
    first saw them. *)
Lemma ranking_spec (counts : list (JsVal * nat)) :
  let ranking := array_sort byCountDesc counts in
  ranking ≡ₚ counts ∧
  StronglySorted (λ a b, b.2 ≤ a.2) ranking ∧
  ∀ n, filter (λ e, e.2 = n) ranking = filter (λ e, e.2 = n) counts.
Proof.
  split_and!.
  - apply array_sort_Permutation.
  - apply array_sort_sorted; [apply _ .. | apply byCountDesc_le].
  - intros n. apply array_sort_stable. intros a b Ha Hb.
    apply byCountDesc_le. simpl in *. lia.
Qed.

Lemma slice_last_suffix {A} (n : nat) (l : list A) :
  ∃ older, l = older ++ slice_last n l ∧
           length (slice_last n l) = n `min` length l.
Proof.
  exists (take (length l - n) l). split.
  - unfold slice_last. by rewrite take_drop.
  - apply length_slice_last.
Qed.

(** C8, as amended.  For a tracker constructed with [enabled] other than
    [false], after any [trackError] calls: [getErrorSummary] gives the number
    of stored records, the last 10 of them in order, and the first 5 of the
    ranking of the counted messages, which lists each message once by
    descending count with equal counts in order of first occurrence; a
    message tracked N >= 1 times is counted N times; and with at most 5
    distinct messages it appears in [topErrors] with count N. *)
Theorem error_summary_ranks_messages (cfg : Config) (calls : list Call) :
  cfg_enabled cfg ≠ VBool false →
  let t := trackAll calls (ErrorTracker_new cfg) in
  let s := getErrorSummary t in
  totalErrors s = length (errors t) ∧
  (∃ older, errors t = older ++ recentErrors s ∧
            length (recentErrors s) = 10 `min` length (errors t)) ∧
  (∃ ranking,
     topErrors s = take 5 ranking ∧
     ranking ≡ₚ errorCounts t ∧
     StronglySorted (λ a b, b.2 ≤ a.2) ranking ∧
     ∀ n, filter (λ e, e.2 = n) ranking = filter (λ e, e.2 = n) (errorCounts t)) ∧
  (errorCounts t).*1 = firstSeen (keyOf <$> calls) ∧
  NoDup (errorCounts t).*1 ∧
  (∀ msg, 1 ≤ occurrences msg calls →
          Map_get msg (errorCounts t) = Some (occurrences msg calls)) ∧
  (∀ msg, 1 ≤ occurrences msg calls →
          length (firstSeen (keyOf <$> calls)) ≤ 5 →
          CountedAndListed cfg calls msg).
Proof.
  intros Hcfg t s.
  destruct (trackAll_on cfg calls Hcfg) as (_ & _ & _ & Hcount & Hkeys).
  fold t in Hcount, Hkeys.
  destruct (ranking_spec (errorCounts t)) as (Hperm & Hsorted & Hstable).
  assert (Hcounted : ∀ msg, 1 ≤ occurrences msg calls →
            Map_get msg (errorCounts t) = Some (occurrences msg calls)).
  { intros msg Hocc. rewrite Hcount. by rewrite decide_False by lia. }
  split_and!; [done | apply slice_last_suffix | | done | | done |].
  - by exists (array_sort byCountDesc (errorCounts t)).
  - rewrite Hkeys. apply firstSeen_NoDup.
  - intros msg Hocc Hdistinct. split; [by apply Hcounted|].
    fold t. unfold getErrorSummary. cbn [topErrors].
    rewrite take_ge.
    + rewrite Hperm. by apply Map_get_Some_elem, Hcounted.
    + rewrite array_sort_length.
      rewrite <-(length_fmap fst), Hkeys. done.
Qed.

Lemma error_summary_ranks_messages_witness :
  let cfg := exampleConfig VUndef 100 in
  cfg_enabled cfg ≠ VBool false ∧
  occurrences (VStr "boom") exampleCalls = 2 ∧
  length (firstSeen (keyOf <$> exampleCalls)) ≤ 5 ∧
  CountedAndListed cfg exampleCalls (VStr "boom") ∧
  topErrors (getErrorSummary (trackAll exampleCalls (ErrorTracker_new cfg)))
  = [(VStr "boom", 2); (VStr "bang", 1)].
Proof.
  intros cfg.
  assert (cfg_enabled cfg ≠ VBool false) as Hon by discriminate.
  assert (length (firstSeen (keyOf <$> exampleCalls)) ≤ 5) as Hfew
    by (vm_compute; lia).
  split_and!; [exact Hon | reflexivity | exact Hfew | | reflexivity].
  destruct (error_summary_ranks_messages cfg exampleCalls Hon)
    as (_ & _ & _ & _ & _ & _ & Hlisted).
  apply Hlisted; [vm_compute; lia | exact Hfew].
Defined.

(** C8 as stated fails on a tracker constructed with [enabled: false]:
    [trackError] returns at its first line, so a message tracked twice is not
    counted and [topErrors] stays empty. *)
Lemma disabled_tracker_counts_nothing :
  let cfg := exampleConfig (VBool false) 100 in
  let t := trackAll exampleCalls (ErrorTracker_new cfg) in
  occurrences (VStr "boom") exampleCalls = 2 ∧
  Map_get (VStr "boom") (errorCounts t) = None ∧
  topErrors (getErrorSummary t) = [] ∧
  ¬ CountedAndListed cfg exampleCalls (VStr "boom").
Proof.
  intros cfg t. split_and!; [reflexivity..|].
  intros [Hcount _]. vm_compute in Hcount. discriminate.
Qed.

End TrackerFacts.

(* ===================================================================== *)
(** ** Bounded collections                                                *)
(* ===================================================================== *)

Module BoundedFacts.
Import Js JsFacts.

(** C3, as amended.  With monitor and tracker enabled (constructed with
    [enabled] other than [false]), every bounded collection keeps insertion
    order and evicts the oldest entry first: after any [recordMetric] calls
    the series of a name, other than the names of the properties every
    object inherits, is exactly the most recent [maxSamples] samples
    recorded under it, in their original order, hence exactly [maxSamples]
    of them once that many were recorded; after any [trackError] calls the
    history is the most recent [maxErrors] records, hence never longer than
    the cap. *)
Theorem bounded_collections_keep_most_recent
    (mcfg : PerformanceMonitor.Config) (tcfg : ErrorTracker.Config)
    (name : string) (mcalls : list PerformanceMonitor.MetricCall)
    (tcalls : list ErrorTracker.Call) :
  PerformanceMonitor.cfg_enabled mcfg ≠ VBool false →
  ErrorTracker.cfg_enabled tcfg ≠ VBool false →
  name ∉ inheritedNames →
  let m := PerformanceMonitor.recordAll mcalls
             (PerformanceMonitor.PerformanceMonitor_new mcfg) in
  let t := ErrorTracker.trackAll tcalls (ErrorTracker.ErrorTracker_new tcfg) in
  PerformanceMonitor.HoldsMostRecent mcfg name mcalls ∧
  (PerformanceMonitor.maxSamples m
     ≤ length (PerformanceMonitor.namedCalls name mcalls) →
   length (PerformanceMonitor.seriesOf name m) = PerformanceMonitor.maxSamples m) ∧
  ErrorTracker.HistoryMostRecent tcfg tcalls ∧
  length (ErrorTracker.errors t) ≤ ErrorTracker.maxErrors t.
Proof.
  intros Hm Ht Hname m t.
  destruct (MonitorFacts.recordAll_on mcfg mcalls Hm) as (_ & _ & Hseries).
  destruct (TrackerFacts.trackAll_on tcfg tcalls Ht) as (_ & _ & Hhist & _).
  split_and!; [by apply Hseries | | done |].
  - intros Hmany. unfold m. rewrite (Hseries name Hname).
    rewrite length_slice_last, length_fmap. fold m. lia.
  - unfold t. rewrite Hhist, length_slice_last. lia.
Qed.

Lemma bounded_collections_keep_most_recent_witness :
  let mcfg := PerformanceMonitor.exampleConfig VUndef 2 in
  let tcfg := ErrorTracker.exampleConfig VUndef 2 in
  PerformanceMonitor.cfg_enabled mcfg ≠ VBool false ∧
  ErrorTracker.cfg_enabled tcfg ≠ VBool false ∧
  PerformanceMonitor.HoldsMostRecent mcfg "render"
    PerformanceMonitor.exampleMetricCalls ∧
  ErrorTracker.HistoryMostRecent tcfg ErrorTracker.exampleCalls ∧
  PerformanceMonitor.value <$>
    PerformanceMonitor.seriesOf "render"
      (PerformanceMonitor.recordAll PerformanceMonitor.exampleMetricCalls
         (PerformanceMonitor.PerformanceMonitor_new mcfg))
  = [PerformanceMonitor.Qc_of_nat 2; PerformanceMonitor.Qc_of_nat 3].
Proof.
  intros mcfg tcfg.
  assert (PerformanceMonitor.cfg_enabled mcfg ≠ VBool false) as Hm by discriminate.
  assert (ErrorTracker.cfg_enabled tcfg ≠ VBool false) as Ht by discriminate.
  assert ("render" ∉ inheritedNames) as Hname
    by (apply (bool_decide_unpack _); vm_compute; exact I).
  destruct (bounded_collections_keep_most_recent mcfg tcfg "render"
              PerformanceMonitor.exampleMetricCalls ErrorTracker.exampleCalls
              Hm Ht Hname) as (Hseries & _ & Hhist & _).
  split_and!; [exact Hm | exact Ht | exact Hseries | exact Hhist | reflexivity].
Defined.

(** C3 as stated fails with [enabled: false]: [recordMetric] and
    [trackError] return at their first line, so after three recordings with a
    cap of 2 the series is not the last two samples but empty, and likewise
    the error history. *)
Lemma disabled_collections_keep_nothing :
  let mcfg := PerformanceMonitor.exampleConfig (VBool false) 2 in
  let tcfg := ErrorTracker.exampleConfig (VBool false) 2 in
  PerformanceMonitor.seriesOf "render"
    (PerformanceMonitor.recordAll PerformanceMonitor.exampleMetricCalls
       (PerformanceMonitor.PerformanceMonitor_new mcfg)) = [] ∧
  ¬ PerformanceMonitor.HoldsMostRecent mcfg "render"
      PerformanceMonitor.exampleMetricCalls ∧
  ¬ ErrorTracker.HistoryMostRecent tcfg ErrorTracker.exampleCalls.
Proof.
  intros mcfg tcfg. split_and!; [reflexivity | |].
  - intros H. vm_compute in H. discriminate.
  - intros H. vm_compute in H. discriminate.
Qed.

End BoundedFacts.

(* ===================================================================== *)
(** ** The health-check registry                                          *)
(* ===================================================================== *)

Module HealthFacts.
Import Js JsFacts HealthCheck.

Lemma Map_set_elem {K V} `{EqDecision K} (k : K) (v : V) (m : list (K * V)) x :
  x ∈ Map_set k v m → x = (k, v) ∨ x ∈ m.
Proof.
  induction m as [|[k0 v0] m IH]; simpl.
  - intros ->%list_elem_of_singleton. by left.
  - destruct (decide (k0 = k)) as [->|Hne].
    + intros [->|Hx]%elem_of_cons; [by left|].
      right. by apply list_elem_of_further.
    + intros [->|Hx]%elem_of_cons.
      * right. apply list_elem_of_here.
      * destruct (IH Hx) as [->|?]; [by left|].
        right. by apply list_elem_of_further.
Qed.

(** Replacing the value of a present key leaves every function of the
    entries alone that cannot tell the old value from the new. *)
Lemma Map_set_fmap_same {K V B} `{EqDecision K} (f : K * V → B)
    (k : K) (v v' : V) (m : list (K * V)) :
  Map_get k m = Some v → f (k, v') = f (k, v) → f <$> Map_set k v' m = f <$> m.
Proof.
  intros Hget Hf. induction m as [|[k0 v0] m IH]; simpl in *; [done|].
  destruct (decide (k0 = k)) as [->|Hne].
  - injection Hget as ->. rewrite !fmap_cons. by rewrite Hf.
  - rewrite !fmap_cons. by rewrite IH.
Qed.

Section WithEnv.
Context {Env : Type}.
Implicit Types (sys : System Env) (e : ModuleEntry Env).

Lemma failuresOf_update nm e sys :
  failuresOf nm (update nm e sys) = Some (consecutiveFailures e).
Proof. unfold failuresOf, update. simpl. by rewrite Map_get_set_eq. Qed.

(** The check resolved: the status is cached, and the counter is reset or
    incremented according to [healthy !== false]. *)
Lemma checkModule_resolved sys nm e env now r :
  Map_get nm (modules sys) = Some e →
  settled (check e env) = Normal r →
  let h := negb (bool_decide (res_healthy r = VBool false)) in
  let later := now + took (check e env) in
  let status :=
    Checked nm later h (default [] (res_metrics r)) (res_message r) (later - now) in
  (checkModule nm env now sys).1 =
  (Normal (Some status),
   update nm {| name := name e; check := check e; lastCheck := Some later;
                lastStatus := Some status;
                consecutiveFailures :=
                  if h then 0 else consecutiveFailures e + 1 |} sys).
Proof.
  intros He Hr. unfold checkModule. rewrite He, Hr.
  by destruct (bool_decide (res_healthy r = VBool false)).
Qed.

(** The check threw or was rejected with a value whose [message] can be
    read: the failure status is returned, the counter incremented, the
    cached status left as it was. *)
Lemma checkModule_threw sys nm e env now err message :
  Map_get nm (modules sys) = Some e →
  settled (check e env) = Throw err →
  error_message err = Normal message →
  (checkModule nm env now sys).1 =
  (Normal (Some (Failed nm (now + took (check e env)) message
                   (consecutiveFailures e + 1))),
   update nm {| name := name e; check := check e; lastCheck := lastCheck e;
                lastStatus := lastStatus e;
                consecutiveFailures := consecutiveFailures e + 1 |} sys).
Proof. intros He Hr Hm. unfold checkModule. by rewrite He, Hr, Hm. Qed.

(** The check threw or was rejected with [undefined] or [null]: the read
    of [error.message] throws inside the [catch], and [checkModule] rejects
    with the registry untouched and nothing logged. *)
Lemma checkModule_rejects sys nm e env now err x :
  Map_get nm (modules sys) = Some e →
  settled (check e env) = Throw err →
  error_message err = Throw x →
  checkModule nm env now sys = (Throw x, sys, []).
Proof. intros He Hr Hm. unfold checkModule. by rewrite He, Hr, Hm. Qed.

Lemma error_message_throws err x :
  error_message err = Throw x ↔
  x = TypeError ∧ (err = ThrownValue VUndef ∨ err = ThrownValue VNull).
Proof.
  destruct x. split.
  - destruct err as [o|[]]; simpl; try discriminate; intros _; split; auto.
  - by intros [_ [-> | ->]].
Qed.

(** Repeated unhealthy answers add up. *)
Lemma checkRepeatedly_unhealthy nm (envs : list (Env * nat)) :
  ∀ sys e,
    Map_get nm (modules sys) = Some e →
    Forall (λ en, answers (check e) (VBool false) en.1) envs →
    ∃ e', Map_get nm (modules (checkRepeatedly nm envs sys)) = Some e' ∧
          check e' = check e ∧
          consecutiveFailures e' = consecutiveFailures e + length envs.
Proof.
  induction envs as [|[env now] envs IH]; intros sys e He Hall.
  - exists e. simpl. split_and!; [done..|lia].
  - apply Forall_cons in Hall as [(r & Hr & Hh) Hall]. simpl in Hr.
    unfold checkRepeatedly. cbn [foldl fst snd].
    rewrite (checkModule_resolved sys nm e env now r He Hr). cbn [fst snd].
    rewrite Hh, bool_decide_eq_true_2 by done. cbn [negb].
    match goal with
    | |- context [update nm ?e1 sys] =>
        destruct (IH (update nm e1 sys) e1) as (e' & He' & Hchk & Hcount);
          [apply Map_get_set_eq | exact Hall |]
    end.
    exists e'. split_and!; [exact He' | exact Hchk |].
    rewrite Hcount. simpl. lia.
Qed.

Lemma checkRepeatedly_snoc nm (envs : list (Env * nat)) (en : Env * nat) sys :
  checkRepeatedly nm (envs ++ [en]) sys =
  (checkModule nm en.1 en.2 (checkRepeatedly nm envs sys)).1.2.
Proof. unfold checkRepeatedly. by rewrite foldl_snoc. Qed.

(** C7.  The state machine of [checkModule], for a registered module: an
    answer without a [healthy] property counts as healthy; any healthy answer
    resets [consecutiveFailures] to zero; an answer with [healthy: false]
    increments it; so a freshly registered module whose check answers
    [{healthy: false}] three times has [consecutiveFailures = 3], and one
    answer [{healthy: true}] after that resets it to 0.  A check that throws
    or is rejected makes [checkModule] return a status with [healthy = false]
    that carries the error's message, and increments the counter, when the
    value thrown lets its [message] be read.  When the check throws or is
    rejected with [undefined] or [null], [checkModule] is itself rejected,
    with a [TypeError]: no status is returned, nothing is logged and the
    counter is not incremented. *)
Theorem checkModule_counts_failures sys nm e env now :
  Map_get nm (modules sys) = Some e →
  let result := (checkModule nm env now sys).1 in
  (answers (check e) VUndef env →
   (∃ s, result.1 = Normal (Some s) ∧ healthyOf s = VBool true) ∧
   failuresOf nm result.2 = Some 0) ∧
  (∀ h, h ≠ VBool false → answers (check e) h env →
   (∃ s, result.1 = Normal (Some s) ∧ healthyOf s = VBool true) ∧
   failuresOf nm result.2 = Some 0) ∧
  (answers (check e) (VBool false) env →
   (∃ s, result.1 = Normal (Some s) ∧ healthyOf s = VBool false) ∧
   failuresOf nm result.2 = Some (consecutiveFailures e + 1)) ∧
  (∀ err message, fails (check e) err env →
   error_message err = Normal message →
   result.1 = Normal (Some (Failed nm (now + took (check e env)) message
                              (consecutiveFailures e + 1))) ∧
   healthyOf (Failed nm (now + took (check e env)) message
                (consecutiveFailures e + 1)) = VBool false ∧
   failuresOf nm result.2 = Some (consecutiveFailures e + 1)) ∧
  (∀ err, fails (check e) err env →
   err = ThrownValue VUndef ∨ err = ThrownValue VNull →
   checkModule nm env now sys = (Throw TypeError, sys, []) ∧
   failuresOf nm result.2 = Some (consecutiveFailures e)) ∧
  (∀ (sys0 : System Env) chk (envs : list (Env * nat)) (en : Env * nat),
     length envs = 3 →
     Forall (λ en, answers chk (VBool false) en.1) envs →
     answers chk (VBool true) en.1 →
     let registered := (registerModule nm chk sys0).1 in
     failuresOf nm (checkRepeatedly nm envs registered) = Some 3 ∧
     failuresOf nm (checkRepeatedly nm (envs ++ [en]) registered) = Some 0).
Proof.
  intros He result.
  assert (Hhealthy : ∀ h, h ≠ VBool false → answers (check e) h env →
            (∃ s, result.1 = Normal (Some s) ∧ healthyOf s = VBool true) ∧
            failuresOf nm result.2 = Some 0).
  { intros h Hh (r & Hr & Hres). unfold result.
    rewrite (checkModule_resolved sys nm e env now r He Hr). cbn [fst snd].
    rewrite Hres, bool_decide_eq_false_2 by done. cbn [negb].
    rewrite failuresOf_update. split; [|done]. by eexists. }
  split_and!.
  - by apply Hhealthy.
  - done.
  - intros (r & Hr & Hres). unfold result.
    rewrite (checkModule_resolved sys nm e env now r He Hr). cbn [fst snd].
    rewrite Hres, bool_decide_eq_true_2 by done. cbn [negb].
    rewrite failuresOf_update. split; [|done]. by eexists.
  - intros err message Herr Hmsg. unfold result.
    rewrite (checkModule_threw sys nm e env now err message He Herr Hmsg).
    cbn [fst snd]. by rewrite failuresOf_update.
  - intros err Herr Hnull.
    assert (error_message err = Throw TypeError) as Hmsg
      by (by apply error_message_throws).
    unfold result.
    rewrite (checkModule_rejects sys nm e env now err _ He Herr Hmsg).
    cbn [fst snd]. split; [done|]. unfold failuresOf. by rewrite He.
  - intros sys0 chk envs en Hlen Hall (r & Hr & Hres) registered.
    set (fresh := {| name := nm; check := chk; lastCheck := None;
                     lastStatus := None; consecutiveFailures := 0 |}).
    assert (Map_get nm (modules registered) = Some fresh) as Hfresh
      by apply Map_get_set_eq.
    destruct (checkRepeatedly_unhealthy nm envs registered fresh Hfresh Hall)
      as (e' & He' & Hchk & Hcount).
    split.
    + unfold failuresOf. rewrite He'. simpl. rewrite Hcount, Hlen. done.
    + rewrite checkRepeatedly_snoc.
      change (check fresh) with chk in Hchk. rewrite <-Hchk in Hr.
      rewrite (checkModule_resolved _ nm e' en.1 en.2 r He' Hr). cbn [fst snd].
      rewrite Hres. cbn [bool_decide negb]. by rewrite failuresOf_update.
Qed.

(** *** What the cache can hold *)

Lemma Reachable_cache sys :
  Reachable sys →
  ∀ k e s, (k, e) ∈ modules sys → lastStatus e = Some s → ¬ isFailure s.
Proof.
  induction 1 as [interval | nm chk sys _ IH | nm sys _ IH | nm env now sys _ IH];
    intros k e s Hin Hs.
  - by apply elem_of_nil in Hin.
  - apply Map_set_elem in Hin as [[= -> ->]|Hin]; [done|]. by eapply IH.
  - unfold unregisterModule in Hin.
    destruct (Map_get nm (modules sys)); simpl in Hin; [|by eapply IH].
    unfold Map_delete in Hin. apply list_elem_of_filter in Hin as [_ Hin].
    by eapply IH.
  - unfold checkModule in Hin.
    destruct (Map_get nm (modules sys)) as [e0|] eqn:He0;
      [|by eapply IH].
    destruct (settled (check e0 env)) as [r|err]; simpl in Hin.
    + destruct (negb (bool_decide (res_healthy r = VBool false)));
        simpl in Hin;
        (apply Map_set_elem in Hin as [[= -> ->]|Hin]; [|by eapply IH]);
        simpl in Hs; injection Hs as <-; by intros [].
    + destruct (error_message err) as [message|x]; simpl in Hin;
        [|by eapply IH].
      apply Map_set_elem in Hin as [[= -> ->]|Hin]; [|by eapply IH].
      simpl in Hs. apply Map_get_Some_elem in He0. by eapply IH.
Qed.

(** C10.  When the check of a registered module throws or is rejected,
    [checkModule] leaves [lastCheck] and [lastStatus] as they were, and
    [getLastStatus] afterwards reports exactly what it reported before: for
    this module the status cached earlier, or [healthy: null] with the
    message ['Not yet checked'] when none was; and, on a registry built by
    registrations, removals and checks, never a failure status.  It
    increments [consecutiveFailures] and returns a status with
    [healthy = false] when the value thrown lets its [message] be read.
    When that value is [undefined] or [null], [checkModule] is itself
    rejected with a [TypeError]: it returns no status and the counter stays
    as it was. *)
Theorem failed_check_leaves_cache sys nm e env now err :
  Map_get nm (modules sys) = Some e →
  fails (check e) err env →
  let result := (checkModule nm env now sys).1 in
  (∀ message, error_message err = Normal message →
     (∃ s, result.1 = Normal (Some s) ∧ healthyOf s = VBool false) ∧
     ∃ e', Map_get nm (modules result.2) = Some e' ∧
           consecutiveFailures e' = consecutiveFailures e + 1 ∧
           lastCheck e' = lastCheck e ∧
           lastStatus e' = lastStatus e) ∧
  (err = ThrownValue VUndef ∨ err = ThrownValue VNull →
   result = (Throw TypeError, sys)) ∧
  (∀ now',
     ls_modules (getLastStatus now' result.2) = ls_modules (getLastStatus now' sys) ∧
     cachedStatus nm e ∈ ls_modules (getLastStatus now' result.2) ∧
     (Reachable sys →
      ∀ s, s ∈ ls_modules (getLastStatus now' result.2) → ¬ isFailure s)) ∧
  (lastStatus e = None →
   cachedStatus nm e = NotYetChecked nm ∧
   healthyOf (cachedStatus nm e) = VNull ∧
   messageOf (cachedStatus nm e) = VStr "Not yet checked").
Proof.
  intros He Herr result.
  set (e' := {| name := name e; check := check e; lastCheck := lastCheck e;
                lastStatus := lastStatus e;
                consecutiveFailures := consecutiveFailures e + 1 |}).
  assert (Hsame : ∀ now',
    ls_modules (getLastStatus now' result.2)
    = ls_modules (getLastStatus now' sys)).
  { intros now'. unfold result.
    destruct (error_message err) as [message|x] eqn:Hmsg.
    - rewrite (checkModule_threw sys nm e env now err message He Herr Hmsg).
      unfold getLastStatus, update. cbn [fst snd ls_modules modules].
      by apply Map_set_fmap_same with (v := e).
    - by rewrite (checkModule_rejects sys nm e env now err x He Herr Hmsg). }
  split_and!.
  - intros message Hmsg. unfold result.
    rewrite (checkModule_threw sys nm e env now err message He Herr Hmsg).
    cbn [fst snd]. split; [by eexists|].
    exists e'. split_and!; try done. apply Map_get_set_eq.
  - intros Hnull.
    assert (error_message err = Throw TypeError) as Hmsg
      by (by apply error_message_throws).
    unfold result.
    by rewrite (checkModule_rejects sys nm e env now err _ He Herr Hmsg).
  - intros now'. split_and!; [apply Hsame | |].
    + rewrite Hsame. unfold getLastStatus. cbn [ls_modules].
      apply list_elem_of_fmap. exists (nm, e). split; [done|].
      by apply Map_get_Some_elem.
    + intros Hreach s. rewrite Hsame. unfold getLastStatus. cbn [ls_modules].
      intros ([k e0] & -> & Hin)%list_elem_of_fmap. simpl.
      destruct (lastStatus e0) as [s0|] eqn:Hs0; [|by intros []].
      by eapply Reachable_cache.
  - intros Hnone. unfold cachedStatus. by rewrite Hnone.
Qed.

End WithEnv.

Lemma exampleCheck_answers (env : nat) :
  env ≠ 98 → env ≠ 99 →
  answers exampleCheck (VBool (bool_decide (3 ≤ env))) env.
Proof.
  intros H98 H99. unfold answers, exampleCheck. cbn [settled].
  rewrite !decide_False by done. by eexists.
Qed.

Lemma checkModule_counts_failures_witness :
  let fresh := {| name := "terminal"; check := exampleCheck; lastCheck := None;
                  lastStatus := None; consecutiveFailures := 0 |} in
  Map_get "terminal" (modules exampleSystem) = Some fresh ∧
  fails exampleCheck (ThrownValue VUndef) 98 ∧
  checkModule "terminal" 98 10 exampleSystem
    = (Throw TypeError, exampleSystem, []) ∧
  failuresOf "terminal" (checkModule "terminal" 98 10 exampleSystem).1.2
    = Some 0 ∧
  failuresOf "terminal"
    (checkRepeatedly "terminal" [(0, 10); (1, 20); (2, 30)] exampleSystem) = Some 3 ∧
  failuresOf "terminal"
    (checkRepeatedly "terminal" [(0, 10); (1, 20); (2, 30); (3, 40)] exampleSystem)
  = Some 0.
Proof.
  intros fresh.
  assert (Map_get "terminal" (modules exampleSystem) = Some fresh) as Hreg
    by reflexivity.
  assert (fails exampleCheck (ThrownValue VUndef) 98) as Hfail by reflexivity.
  split; [exact Hreg|]. split; [exact Hfail|].
  destruct (checkModule_counts_failures exampleSystem "terminal" fresh 98 10 Hreg)
    as (_ & _ & _ & _ & Hreject & Hscenario).
  destruct (Hreject (ThrownValue VUndef) Hfail (or_introl eq_refl))
    as [Hthrow Hcount].
  split; [exact Hthrow|]. split; [exact Hcount|].
  apply (Hscenario (HealthCheckSystem_new None) exampleCheck
           [(0, 10); (1, 20); (2, 30)] (3, 40)).
  - reflexivity.
  - constructor; [by apply (exampleCheck_answers 0)|].
    constructor; [by apply (exampleCheck_answers 1)|].
    constructor; [by apply (exampleCheck_answers 2)|]. constructor.
  - by apply (exampleCheck_answers 3).
Defined.

Lemma failed_check_leaves_cache_witness :
  let fresh := {| name := "terminal"; check := exampleCheck; lastCheck := None;
                  lastStatus := None; consecutiveFailures := 0 |} in
  let rejected := (checkModule "terminal" 98 10 exampleSystem).1 in
  Map_get "terminal" (modules exampleSystem) = Some fresh ∧
  fails exampleCheck (ThrownValue VUndef) 98 ∧
  rejected = (Throw TypeError, exampleSystem) ∧
  failuresOf "terminal" rejected.2 = Some 0 ∧
  ls_modules (getLastStatus 50 rejected.2) = [NotYetChecked "terminal"].
Proof.
  intros fresh rejected.
  assert (Map_get "terminal" (modules exampleSystem) = Some fresh) as Hreg
    by reflexivity.
  assert (fails exampleCheck (ThrownValue VUndef) 98) as Hfail by reflexivity.
  destruct (failed_check_leaves_cache exampleSystem "terminal" fresh 98 10 _
              Hreg Hfail) as (_ & Hreject & Hcache & _).
  fold rejected in Hreject, Hcache.
  specialize (Hreject (or_introl eq_refl)).
  destruct (Hcache 50) as (Hsame & _ & _).
  split_and!; [exact Hreg | exact Hfail | exact Hreject | | ].
  - rewrite Hreject. reflexivity.
  - rewrite Hsame. reflexivity.
Defined.

(** An error object is handled as intended: at 99 the example check throws
    one, and the module counts one failure while its cache stays empty. *)
Lemma thrown_error_object_is_counted :
  let after := (checkModule "terminal" 99 10 exampleSystem).1 in
  after.1 = Normal (Some (Failed "terminal" 14 (VStr "unreachable") 1)) ∧
  failuresOf "terminal" after.2 = Some 1 ∧
  ls_modules (getLastStatus 50 after.2) = [NotYetChecked "terminal"].
Proof. intros after. split_and!; reflexivity. Qed.

End HealthFacts.

(* ===================================================================== *)
(** ** More on the logger                                                 *)
(* ===================================================================== *)

Module LoggerMoreFacts.
Import Js JsFacts Logger LoggerFacts RotationFacts LoggerGlobal.

Lemma append_empty_r (s : string) : s +:+ EmptyString = s.
Proof.
  induction s as [|c s IH]; [done|].
  change (String c (s +:+ EmptyString) = String c s). by f_equal.
Qed.

Lemma num_or_Some (n d : nat) : 1 ≤ n → num_or (Some n) d = n.
Proof. intros. destruct n; [lia | done]. Qed.

Lemma str_or_idem (o : option string) (d : string) :
  str_or (Some (str_or o d)) d = str_or o d.
Proof.
  destruct o as [s|]; simpl.
  - destruct (String.eqb s EmptyString) eqn:Hs.
    + by destruct (String.eqb d EmptyString).
    + by rewrite Hs.
  - by destruct (String.eqb d EmptyString).
Qed.

Section WithHost.
Context (host : Host).

Lemma rotateWorld_console (lg : Logger) (w : World) :
  console (rotateWorld lg w) = console w.
Proof. unfold rotateWorld. by destruct (logdir w). Qed.

Lemma rotateWorld_logdir (lg : Logger) (w : World) (d : LogDir) :
  logdir w = Some d → logdir (rotateWorld lg w) = Some (rotateDir lg d).
Proof. intros Hd. unfold rotateWorld. by rewrite Hd. Qed.

(** The check reads two fields of the logger only. *)
Lemma rotateLogs_irrelevant (rf : RotationFaults) (lg lg' : Logger) (w : World) :
  maxLogSize lg = maxLogSize lg' → maxLogFiles lg = maxLogFiles lg' →
  rotateLogs rf lg w = rotateLogs rf lg' w.
Proof. intros Hs Hf. unfold rotateLogs. by rewrite Hs, Hf. Qed.

Lemma ensureLogDirectory_inv (mkdir_fault : Fault) (w w1 : World) :
  ensureLogDirectory mkdir_fault w = Normal w1 →
  console w1 = console w ∧ ∃ d, logdir w1 = Some d.
Proof.
  unfold ensureLogDirectory, mkdirSync.
  destruct (logdir w) as [d|] eqn:Hd.
  - intros [= <-]. eauto.
  - destruct mkdir_fault; [done|]. intros [= <-]. cbn [console logdir]. eauto.
Qed.

(** What a returning constructor call leaves behind. *)
Lemma Logger_new_inv (mkdir_fault : Fault) (rf : RotationFaults) (cfg : Config)
    (w w' : World) (lg : Logger) :
  Logger_new host mkdir_fault rf cfg w = Normal (lg, w') →
  lg = Logger_fields host cfg ∧ console w' = console w ∧
  (∃ d, logdir w' = Some d) ∧
  ∃ w1, ensureLogDirectory mkdir_fault w = Normal w1 ∧ w' = rotateWorld lg w1.
Proof.
  unfold Logger_new. generalize (Logger_fields host cfg). intros lg0.
  destruct (ensureLogDirectory mkdir_fault w) as [w1|e] eqn:Hmk; [|done].
  cbn [mbind Completion_bind].
  destruct (rotateLogs rf lg0 w1) as [w2|e] eqn:Hrot; [|done].
  cbn [mbind Completion_bind mret Completion_ret]. intros [= <- <-].
  apply rotateLogs_returns in Hrot as ->.
  apply ensureLogDirectory_inv in Hmk as Hinv. destruct Hinv as (Hc & d & Hd).
  split_and!; [done | by rewrite rotateWorld_console | | by exists w1].
  exists (rotateDir lg0 d). by apply rotateWorld_logdir.
Qed.

(** On an existing directory the constructor is a rotation check. *)
Lemma Logger_new_existing (mkdir_fault : Fault) (rf : RotationFaults)
    (cfg : Config) (w : World) (d : LogDir) :
  logdir w = Some d →
  Logger_new host mkdir_fault rf cfg w =
  (w' ← rotateLogs rf (Logger_fields host cfg) w;
   mret (Logger_fields host cfg, w')).
Proof. intros Hd. unfold Logger_new, ensureLogDirectory. by rewrite Hd. Qed.

(** The fields of a child of a constructed logger. *)
Lemma child_fields (cfg : Config) (moduleName : string) :
  let lg := Logger_fields host cfg in
  Logger_fields host
    {| cfg_level := Some (level lg); cfg_module := Some moduleName;
       cfg_outputs := Some (outputs lg); cfg_logDir := Some (logDir lg);
       cfg_maxLogSize := Some (maxLogSize lg);
       cfg_maxLogFiles := Some (maxLogFiles lg) |}
  = {| level := level lg; module := str_or (Some moduleName) "app";
       outputs := outputs lg; logDir := logDir lg;
       maxLogSize := maxLogSize lg; maxLogFiles := maxLogFiles lg |}.
Proof.
  intros lg. unfold Logger_fields at 1.
  cbn [cfg_level cfg_module cfg_outputs cfg_logDir cfg_maxLogSize
       cfg_maxLogFiles arr_or].
  rewrite !num_or_Some by (apply num_or_pos; unfold INFO; lia).
  f_equal. subst lg. unfold Logger_fields. cbn [logDir]. apply str_or_idem.
Qed.

Lemma child_existing (mkdir_fault : Fault) (rf : RotationFaults) (cfg : Config)
    (moduleName : string) (w : World) (d : LogDir) :
  logdir w = Some d →
  let lg := Logger_fields host cfg in
  child host mkdir_fault rf lg moduleName w =
  (w' ← rotateLogs rf lg w;
   mret ({| level := level lg; module := str_or (Some moduleName) "app";
            outputs := outputs lg; logDir := logDir lg;
            maxLogSize := maxLogSize lg; maxLogFiles := maxLogFiles lg |},
         w')).
Proof.
  intros Hd lg. unfold child. rewrite (Logger_new_existing _ _ _ _ d) by done.
  pose proof (child_fields cfg moduleName) as Hf. cbv zeta in Hf.
  subst lg. rewrite Hf.
  by rewrite (rotateLogs_irrelevant rf _ (Logger_fields host cfg)).
Qed.

(** X1. A rotation check leaves no active file above the size limit. *)
Theorem rotation_check_bounds_active (mkdir_fault : Fault)
    (rf : RotationFaults) (cfg : Config) (w w' : World) (lg : Logger) :
  Logger_new host mkdir_fault rf cfg w = Normal (lg, w') →
  ∃ d, logdir w' = Some d ∧
       ∀ f, active d = Some f → size_of f ≤ maxLogSize lg.
Proof.
  assert (Hrot : ∀ lg0 d f, active (rotateDir lg0 d) = Some f →
            size_of f ≤ maxLogSize lg0).
  { intros lg0 d f. unfold rotateDir. destruct (active d) as [fa|] eqn:Hact.
    - case_decide; [done|]. rewrite Hact. intros [= ->]. lia.
    - by rewrite Hact. }
  intros Hnew.
  apply Logger_new_inv in Hnew as (_ & _ & _ & w1 & Hmk & ->).
  apply ensureLogDirectory_inv in Hmk as (_ & d & Hd).
  exists (rotateDir lg d). split; [by apply rotateWorld_logdir|]. apply Hrot.
Qed.

(** X3. A [write] that returns has only appended: it did not create the
    directory, did not touch a generation file, and left what the active
    file held at the front of what it holds afterwards. *)
Theorem write_only_appends (af : Fault) (lg : Logger) (lvl : nat)
    (message : string) (meta : JsObj) (w w' : World) :
  write host af lg lvl message meta w = Normal w' →
  match logdir w with
  | None => logdir w' = None
  | Some d =>
      ∃ d', logdir w' = Some d' ∧ gens d' = gens d ∧
            ∀ f, active d = Some f →
                 ∃ suffix, active d' =
                           Some {| born := born f; data := data f +:+ suffix |}
  end.
Proof.
  intros Hw.
  apply (write_logdir host) in Hw as [Hsame|(d & text & Hd & Hd')].
  - rewrite Hsame. destruct (logdir w) as [d|]; [|done].
    exists d. split_and!; [done..|]. intros [b s] ->.
    exists EmptyString. simpl. by rewrite append_empty_r.
  - rewrite Hd. eexists. split_and!; [done | |].
    + unfold appendActive. by destruct (active d).
    + intros f Hf. unfold appendActive. rewrite Hf. by eexists.
Qed.

(** X2. A rotation that is due renumbers the files and keeps their content:
    the active file becomes generation 1, generation [k] becomes generation
    [k + 1] up to the cap, and the directory is left without an active
    file.  The generations found are those a logger with the same
    [maxLogFiles] leaves: numbered from 1 to the cap. *)
Theorem rotation_shifts_generations (lg : Logger) (d : LogDir) (f : File) :
  (∀ i g, gens d !! i = Some g → 1 ≤ i ≤ genCap (maxLogFiles lg)) →
  active d = Some f → maxLogSize lg < size_of f →
  active (rotateDir lg d) = None ∧
  gens (rotateDir lg d) !! 1 = Some f ∧
  (∀ k g, k < genCap (maxLogFiles lg) → gens d !! k = Some g →
          gens (rotateDir lg d) !! S k = Some g) ∧
  (∀ k, genCap (maxLogFiles lg) < k → gens (rotateDir lg d) !! k = None).
Proof.
  intros HA Hact Hbig.
  destruct (rotateDir_gens lg d f HA Hact Hbig) as (Hnone & _ & Hgens).
  split_and!; [done | by rewrite Hgens | |].
  - intros k g Hk Hg. pose proof (HA _ _ Hg).
    rewrite Hgens, decide_False, decide_True by lia.
    by replace (S k - 1) with k by lia.
  - intros k Hk. assert (1 ≤ genCap (maxLogFiles lg)) by (unfold genCap; lia).
    rewrite Hgens, !decide_False by lia. done.
Qed.

(** X5. On an existing directory, [child] of a constructed logger runs one
    rotation check and nothing else that can fail; it throws what the check
    throws, and when the check returns it returns a logger that shares the
    level, outputs, directory and rotation settings and differs in the
    module name only, an empty name giving ['app']. *)
Theorem child_shares_configuration (mkdir_fault : Fault) (rf : RotationFaults)
    (cfg : Config) (moduleName : string) (w : World) (d : LogDir) :
  logdir w = Some d →
  let lg := Logger_fields host cfg in
  child host mkdir_fault rf lg moduleName w =
  (w' ← rotateLogs rf lg w;
   mret ({| level := level lg; module := str_or (Some moduleName) "app";
            outputs := outputs lg; logDir := logDir lg;
            maxLogSize := maxLogSize lg; maxLogFiles := maxLogFiles lg |},
         w')).
Proof. apply child_existing. Qed.

(** X6. Once a logger has been constructed, which creates the log directory,
    [mkdirSync] is not called again: after any writes and constructions
    that returned, [child] behaves with a failing [mkdirSync] as it does
    with a working one, and it returns when no call of its rotation check
    fails. *)
Theorem child_skips_mkdir_after_construction
    (cfg : Config) (t : nat) (ops : list Op) (rf0 rf : RotationFaults)
    (mkdir_fault : Fault) (moduleName : string) (w0 w : World) :
  let lg := Logger_fields host cfg in
  Logger_new host None rf0 cfg (freshWorld t) = Normal (lg, w0) →
  run host lg ops w0 = Normal w →
  child host mkdir_fault rf lg moduleName w = child host None rf lg moduleName w ∧
  ∃ c w', child host mkdir_fault noFaults lg moduleName w = Normal (c, w').
Proof.
  intros lg Hnew Hrun.
  apply Logger_new_inv in Hnew as (_ & _ & Hd0 & _).
  destruct (run_keeps_directory host lg ops w0 w) as [d Hd];
    [by destruct Hd0 as [d0 ->]; eexists | done |].
  pose proof (child_existing mkdir_fault rf cfg moduleName w d Hd) as H1.
  pose proof (child_existing None rf cfg moduleName w d Hd) as H2.
  pose proof (child_existing mkdir_fault noFaults cfg moduleName w d Hd) as H3.
  cbv zeta in H1, H2, H3. fold lg in H1, H2, H3.
  split; [by rewrite H1, H2|].
  rewrite H3, rotateLogs_noFaults. by eexists _, _.
Qed.

(** X4. The console line of a record with metadata is the line of the same
    record without metadata, followed by a space and [JSON.stringify] of
    exactly the metadata, provided the metadata keys are none of the four
    standard ones. *)
Theorem console_line_appends_metadata (lg : Logger) (lvl : nat)
    (message : string) (meta : JsObj) (w : World) :
  NoDup meta.*1 → (∀ k, k ∈ meta.*1 → k ∉ standardKeys) → meta ≠ [] →
  formatForConsole host (formatMessage host lg lvl message meta w) =
  formatForConsole host (formatMessage host lg lvl message [] w)
    +:+ " " +:+ JSON_stringify host meta.
Proof.
  intros Hnd Hfresh Hne. unfold formatMessage.
  set (base := [("timestamp", VStr (toISOString host (clock w)));
                ("level", from_option VStr VUndef (LogLevelNames !! lvl));
                ("module", VStr (module lg)); ("message", VStr message)]).
  rewrite obj_spread_fresh by done.
  change (obj_spread base []) with base.
  assert (Hget : ∀ k, k ∈ standardKeys →
            obj_get k (base ++ meta) = obj_get k base).
  { intros k Hk. unfold obj_get.
    destruct (Map_get k base) as [v|] eqn:Hv.
    - by rewrite (Map_get_app_l _ v).
    - apply Map_get_None in Hv. done. }
  unfold formatForConsole.
  rewrite !Hget by (unfold standardKeys; set_solver).
  unfold obj_keys. rewrite fmap_app, length_app.
  rewrite decide_True by (destruct meta; [done | simpl; lia]).
  rewrite (decide_False (P := 4 < length base.*1)) by (simpl; lia).
  assert (obj_delete "message" (obj_delete "module"
            (obj_delete "level" (obj_delete "timestamp" (base ++ meta)))) = meta)
    as ->.
  { unfold obj_delete, Map_delete. rewrite !list_filter_filter.
    rewrite filter_app.
    assert (filter (λ kv : string * JsVal,
              (((kv.1 ≠ "message") ∧ kv.1 ≠ "module") ∧ kv.1 ≠ "level")
              ∧ kv.1 ≠ "timestamp") base = []) as -> by done.
    simpl. clear Hget Hne Hnd.
    induction meta as [|[k v] meta IH]; [done|].
    rewrite filter_cons_True.
    - f_equal. apply IH. intros k' Hk'. apply Hfresh. simpl.
      by apply list_elem_of_further.
    - assert (k ∉ standardKeys) as Hk by (apply Hfresh; simpl; left).
      unfold standardKeys in Hk. rewrite !not_elem_of_cons in Hk.
      simpl. naive_solver. }
  rewrite decide_True by (destruct meta; [done | simpl; lia]).
  done.
Qed.

Section WithEnvironment.
Context (toUpperCase : string → string).

Lemma envConfig_level (env : ProcessEnv) :
  let lv := level (Logger_fields host (envConfig toUpperCase env)) in
  1 ≤ lv ≤ 4 ∧
  (lv = INFO ∨
   ∃ s, LOG_LEVEL env = Some s ∧ s ≠ EmptyString ∧
        Map_get (toUpperCase s) LogLevel = Some lv).
Proof.
  unfold Logger_fields, envConfig. cbn [level cfg_level].
  destruct (LOG_LEVEL env) as [s|]; [|unfold INFO; simpl; lia].
  destruct (String.eqb s EmptyString) eqn:Hs; [unfold INFO; simpl; lia|].
  apply String.eqb_neq in Hs.
  destruct (Map_get (toUpperCase s) LogLevel) as [n|] eqn:Hn;
    [|unfold INFO; simpl; lia].
  assert (n ≤ 4) as Hle.
  { apply Map_get_Some_elem in Hn. unfold LogLevel in Hn.
    rewrite !elem_of_cons in Hn. rewrite elem_of_nil in Hn.
    unfold ERROR, WARN, INFO, DEBUG, TRACE in Hn.
    destruct Hn as [Hn|[Hn|[Hn|[Hn|[Hn|[]]]]]]; injection Hn as _ ->; lia. }
  destruct n as [|n]; [unfold INFO; simpl; lia|].
  simpl. split; [lia|]. right. by exists s.
Qed.

(** X7. The threshold [getLogger] takes from [LOG_LEVEL] is always one of WARN,
    INFO, DEBUG and TRACE: an unset, empty or unknown value gives INFO, and
    so does [ERROR], whose number is 0; a threshold other than INFO is the
    one the upper-cased variable names. *)
Theorem env_threshold_in_range (env : ProcessEnv) :
  let lv := level (Logger_fields host (envConfig toUpperCase env)) in
  WARN ≤ lv ≤ TRACE ∧
  (lv = INFO ∨
   ∃ s, LOG_LEVEL env = Some s ∧ s ≠ EmptyString ∧
        Map_get (toUpperCase s) LogLevel = Some lv).
Proof. apply envConfig_level. Qed.

(** X8. [getLogger] creates the process-wide logger once: after a call that
    returned, every later call returns the same logger and leaves the
    process as it is, whatever the environment and the file system have
    become. *)
Theorem getLogger_is_singleton (env env' : ProcessEnv) (mf mf' : Fault)
    (rf rf' : RotationFaults) (p p' : Process) (lg : Logger) :
  getLogger host toUpperCase env mf rf p = Normal (lg, p') →
  getLogger host toUpperCase env' mf' rf' p' = Normal (lg, p').
Proof.
  unfold getLogger. destruct (globalLogger p) as [g|] eqn:Hg.
  - intros [= <- <-]. by rewrite Hg.
  - destruct (Logger_new host mf rf _ (world p)) as [[lg0 w0]|e]; [|done].
    simpl. by intros [= <- <-].
Qed.

(** X9. [initialize] installs the logger its configuration describes, in place
    of whatever logger the process had: every later [getLogger] returns it,
    and the environment is not consulted. *)
Theorem initialize_overrides_environment (config : Config) (env' : ProcessEnv)
    (mf mf' : Fault) (rf rf' : RotationFaults) (p p' : Process) (lg : Logger) :
  initialize host mf rf config p = Normal (lg, p') →
  lg = Logger_fields host config ∧
  getLogger host toUpperCase env' mf' rf' p' = Normal (lg, p').
Proof.
  unfold initialize.
  destruct (Logger_new host mf rf config (world p)) as [[lg0 w0]|e] eqn:Hnew;
    [|done].
  apply Logger_new_inv in Hnew as (-> & _).
  cbn [mbind Completion_bind mret Completion_ret fst snd].
  intros Hinit. injection Hinit as Hlg Hp. subst lg p'. split; [done|].
  unfold getLogger. done.
Qed.

(** X10. In production the process-wide logger never prints a record: a call of
    [write] whose append succeeds leaves the console as it was. *)
Theorem production_logger_spares_console (env : ProcessEnv) (mf : Fault)
    (rf : RotationFaults) (p p' : Process) (lg : Logger) (lvl : nat)
    (message : string) (meta : JsObj) :
  NODE_ENV env = Some "production" → globalLogger p = None →
  getLogger host toUpperCase env mf rf p = Normal (lg, p') →
  ∃ w', write host None lg lvl message meta (world p') = Normal w' ∧
        console w' = console (world p').
Proof.
  intros Hprod Hnone. unfold getLogger. rewrite Hnone.
  destruct (Logger_new host mf rf _ (world p)) as [[lg0 w0]|e] eqn:Hnew; [|done].
  simpl. intros [= <- <-]. simpl.
  apply Logger_new_inv in Hnew as (-> & _ & (d & Hd) & _).
  set (lg := Logger_fields host (envConfig toUpperCase env)).
  assert (outputs lg = ["file"]) as Houts.
  { subst lg. unfold Logger_fields, envConfig. cbn [outputs cfg_outputs arr_or].
    by rewrite decide_True. }
  destruct (decide (level lg < lvl)) as [Hskip|Hemit].
  - rewrite write_skips by done. by exists w0.
  - destruct (write_emits host None lg lvl message meta w0)
      as (w' & -> & _ & Hem); [lia|].
    exists w'. split; [done|]. rewrite Houts, Hd in Hem.
    destruct Hem as [_ ->]. by rewrite app_nil_r.
Qed.

(** X11. The first [createLogger] of a process that returns has installed the
    logger configured from the environment and returns a child that shares
    its threshold, outputs, directory and rotation settings under the module
    name given.  Every later [createLogger] that returns keeps the
    installed logger and shares the same settings whatever the environment
    has become, and it does return when no call of its rotation check
    fails, also where [mkdirSync] would. *)
Theorem createLogger_shares_global_logger (env : ProcessEnv) (mf : Fault)
    (rf : RotationFaults) (moduleName : string) (p p' : Process) (c : Logger) :
  globalLogger p = None →
  createLogger host toUpperCase env mf rf moduleName p = Normal (c, p') →
  let g := Logger_fields host (envConfig toUpperCase env) in
  globalLogger p' = Some g ∧
  c = {| level := level g; module := str_or (Some moduleName) "app";
         outputs := outputs g; logDir := logDir g;
         maxLogSize := maxLogSize g; maxLogFiles := maxLogFiles g |} ∧
  (∀ env' mf' rf' moduleName' c' p'',
     createLogger host toUpperCase env' mf' rf' moduleName' p' = Normal (c', p'') →
     globalLogger p'' = Some g ∧
     level c' = level c ∧ outputs c' = outputs c ∧ logDir c' = logDir c ∧
     module c' = str_or (Some moduleName') "app") ∧
  (∀ env' mf' moduleName',
     ∃ c' p'', createLogger host toUpperCase env' mf' noFaults moduleName' p'
               = Normal (c', p'')).
Proof.
  intros Hnone. unfold createLogger at 1. unfold getLogger. rewrite Hnone.
  destruct (Logger_new host mf rf _ (world p)) as [[lg0 w0]|e] eqn:Hnew; [|done].
  apply Logger_new_inv in Hnew as (-> & _ & (d & Hd) & _).
  cbn [mbind Completion_bind mret Completion_ret fst snd world globalLogger].
  intros Hc. set (g := Logger_fields host (envConfig toUpperCase env)) in *.
  assert (Hchild : ∀ mf' rf' name' w1 d1, logdir w1 = Some d1 →
            child host mf' rf' g name' w1 =
            (w' ← rotateLogs rf' g w1;
             mret ({| level := level g; module := str_or (Some name') "app";
                      outputs := outputs g; logDir := logDir g;
                      maxLogSize := maxLogSize g;
                      maxLogFiles := maxLogFiles g |}, w'))).
  { intros mf' rf' name' w1 d1 Hd1.
    exact (child_existing mf' rf' (envConfig toUpperCase env) name' w1 d1 Hd1). }
  clearbody g.
  rewrite (Hchild mf rf moduleName w0 d Hd) in Hc.
  destruct (rotateLogs rf g w0) as [w1|e] eqn:Hrot; [|done].
  cbn [mbind Completion_bind mret Completion_ret fst snd] in Hc.
  injection Hc as Hc1 Hc2. subst c p'.
  apply rotateLogs_returns in Hrot as ->.
  pose proof (rotateWorld_logdir g w0 d Hd) as Hd1.
  split_and!; [reflexivity | reflexivity | |].
  - intros env' mf' rf' moduleName' c' p''. unfold createLogger, getLogger.
    cbn [globalLogger mbind Completion_bind mret Completion_ret fst snd world].
    rewrite (Hchild mf' rf' moduleName' _ _ Hd1).
    destruct (rotateLogs rf' g (rotateWorld g w0)) as [w2|e]; [|done].
    cbn [mbind Completion_bind mret Completion_ret fst snd].
    intros Hc'. injection Hc' as Hc1 Hc2. subst c' p''.
    split_and!; reflexivity.
  - intros env' mf' moduleName'. unfold createLogger, getLogger.
    cbn [globalLogger mbind Completion_bind mret Completion_ret fst snd world].
    rewrite (Hchild mf' noFaults moduleName' _ _ Hd1), rotateLogs_noFaults.
    cbn [mbind Completion_bind mret Completion_ret fst snd].
    by eexists _, _.
Qed.

End WithEnvironment.

Lemma rotate_files_empty (rf : RotationFaults) (maxFiles i : nat) :
  rotate_files rf maxFiles i ∅ = Normal ∅.
Proof.
  induction i as [|i IH]; [done|]. cbn [rotate_files].
  by rewrite lookup_empty.
Qed.

(** A rotation check that meets a fault throws it. *)
Lemma rotateLogs_fault (rf : RotationFaults) (lg : Logger) (w : World)
    (d : LogDir) (f : File) (msg : string) :
  logdir w = Some d → active d = Some f →
  statSync_fault rf = Some msg ∨
  (statSync_fault rf = None ∧ maxLogSize lg < size_of f ∧ gens d = ∅ ∧
   renameSync_fault rf = Some msg) →
  rotateLogs rf lg w = Throw msg.
Proof.
  intros Hd Hf Hfault. unfold rotateLogs. rewrite Hd, Hf.
  destruct Hfault as [-> | (-> & Hbig & -> & ->)]; [done|].
  cbn [fsCall mbind Completion_bind]. rewrite decide_True by done.
  by rewrite rotate_files_empty.
Qed.

(** X29. A file-system call that fails during the rotation check is not
    caught.  On an existing directory with an active file, a failing
    [statSync] makes the constructor throw the error to its caller, and so
    does a failing [renameSync] when the file is over the size limit (shown
    here where no generation exists yet); [child] throws with it. *)
Theorem rotation_fault_escapes_constructor (mf : Fault) (rf : RotationFaults)
    (cfg : Config) (moduleName : string) (w : World) (d : LogDir) (f : File)
    (msg : string) :
  logdir w = Some d → active d = Some f →
  statSync_fault rf = Some msg ∨
  (statSync_fault rf = None ∧
   maxLogSize (Logger_fields host cfg) < size_of f ∧ gens d = ∅ ∧
   renameSync_fault rf = Some msg) →
  Logger_new host mf rf cfg w = Throw msg ∧
  child host mf rf (Logger_fields host cfg) moduleName w = Throw msg.
Proof.
  intros Hd Hf Hfault.
  pose proof (child_existing mf rf cfg moduleName w d Hd) as Hchild.
  cbv zeta in Hchild.
  rewrite Hchild, (Logger_new_existing mf rf cfg w d Hd).
  by rewrite (rotateLogs_fault rf _ w d f msg Hd Hf Hfault).
Qed.

End WithHost.

Lemma rotation_check_bounds_active_witness :
  let cfg := exampleConfig (Some INFO) ["file"] 10 3 in
  let lg := Logger_fields exampleHost cfg in
  let w := {| logdir := Some {| active := Some {| born := 0;
                                                   data := "twelve bytes" |};
                                gens := ∅; nextBorn := 1 |};
              console := []; clock := 5 |} in
  ∃ d, logdir (rotateWorld lg w) = Some d ∧
       ∀ f, active d = Some f → size_of f ≤ maxLogSize lg.
Proof.
  intros cfg lg w.
  apply (rotation_check_bounds_active exampleHost (Some "EACCES") noFaults cfg w
           (rotateWorld lg w) lg).
  reflexivity.
Defined.

Lemma rotation_fault_escapes_constructor_witness :
  let cfg := exampleConfig (Some INFO) ["file"] 10 3 in
  let w := {| logdir := Some {| active := Some {| born := 0;
                                                   data := "twelve bytes" |};
                                gens := ∅; nextBorn := 1 |};
              console := []; clock := 5 |} in
  Logger_new exampleHost None
    {| statSync_fault := None; unlinkSync_fault := None;
       renameSync_fault := Some "EPERM: operation not permitted" |} cfg w
  = Throw "EPERM: operation not permitted".
Proof.
  intros cfg w.
  refine (proj1 (rotation_fault_escapes_constructor exampleHost None _ cfg
                   "terminal" w _ _ "EPERM: operation not permitted"
                   eq_refl eq_refl _)).
  right. split_and!; [reflexivity | vm_compute; lia | reflexivity | reflexivity].
Defined.

Lemma write_only_appends_witness :
  let lg := Logger_fields exampleHost (exampleConfig (Some INFO) ["file"] 10 3) in
  let w := {| logdir := Some {| active := Some {| born := 0; data := "old" |};
                                gens := ∅; nextBorn := 1 |};
              console := []; clock := 5 |} in
  ∃ w' d', write exampleHost None lg INFO "ready" [] w = Normal w' ∧
           logdir w' = Some d' ∧ gens d' = ∅ ∧
           ∃ suffix, active d' = Some {| born := 0; data := "old" +:+ suffix |}.
Proof.
  intros lg w.
  destruct (write exampleHost None lg INFO "ready" [] w) as [w'|e] eqn:Hw;
    [|vm_compute in Hw; discriminate Hw].
  destruct (write_only_appends exampleHost None lg INFO "ready" [] w w' Hw)
    as (d' & Hd' & Hgens & Hact).
  exists w', d'. split_and!; [reflexivity | exact Hd' | exact Hgens |].
  exact (Hact _ eq_refl).
Defined.

Lemma rotation_shifts_generations_witness :
  let lg := Logger_fields exampleHost (exampleConfig (Some INFO) ["file"] 10 3) in
  let old := {| born := 0; data := "an older file" |} in
  let cur := {| born := 1; data := "twelve bytes" |} in
  let d := {| active := Some cur; gens := {[1 := old]}; nextBorn := 2 |} in
  active (rotateDir lg d) = None ∧
  gens (rotateDir lg d) !! 1 = Some cur ∧
  gens (rotateDir lg d) !! 2 = Some old.
Proof.
  intros lg old cur d.
  destruct (rotation_shifts_generations lg d cur) as (Hact & Hone & Hshift & _).
  - intros i f Hi. subst d. cbn [gens] in Hi.
    apply lookup_singleton_Some in Hi as [<- _].
    unfold genCap. simpl. lia.
  - reflexivity.
  - vm_compute. lia.
  - split_and!; [exact Hact | exact Hone |].
    apply (Hshift 1 old); [vm_compute; lia | reflexivity].
Defined.

Lemma child_shares_configuration_witness :
  let cfg := exampleConfig (Some DEBUG) ["file"] 10 3 in
  let w := {| logdir := Some emptyDir; console := []; clock := 5 |} in
  let broken := {| statSync_fault := Some "EIO"; unlinkSync_fault := Some "EIO";
                   renameSync_fault := Some "EIO" |} in
  child exampleHost (Some "EACCES") broken (Logger_fields exampleHost cfg)
    "terminal" w
  = Normal ({| level := DEBUG; module := "terminal"; outputs := ["file"];
               logDir := "/var/log/edex"; maxLogSize := 10; maxLogFiles := 3 |},
            w).
Proof.
  intros cfg w broken.
  exact (child_shares_configuration exampleHost (Some "EACCES") broken cfg
           "terminal" w emptyDir eq_refl).
Defined.

Lemma child_skips_mkdir_after_construction_witness :
  let cfg := exampleConfig None ["file"] 100 2 in
  let lg := Logger_fields exampleHost cfg in
  let w0 := {| logdir := Some emptyDir; console := []; clock := 0 |} in
  ∃ w c w',
    run exampleHost lg exampleRound w0 = Normal w ∧
    child exampleHost (Some "EACCES") noFaults lg "terminal" w = Normal (c, w').
Proof.
  intros cfg lg w0.
  destruct (run exampleHost lg exampleRound w0) as [w|e] eqn:Hrun;
    [|vm_compute in Hrun; discriminate Hrun].
  destruct (child_skips_mkdir_after_construction exampleHost cfg 0 exampleRound
              noFaults noFaults (Some "EACCES") "terminal" w0 w eq_refl Hrun)
    as (_ & c & w' & Hchild).
  exists w, c, w'. split; [reflexivity | exact Hchild].
Defined.

Lemma console_line_appends_metadata_witness :
  let lg := Logger_fields exampleHost (exampleConfig (Some INFO) ["console"] 10 3) in
  formatForConsole exampleHost
    (formatMessage exampleHost lg INFO "ready" [("cols", VNum 80)] (freshWorld 7))
  = formatForConsole exampleHost
      (formatMessage exampleHost lg INFO "ready" [] (freshWorld 7))
    +:+ " " +:+ JSON_stringify exampleHost [("cols", VNum 80)].
Proof.
  intros lg.
  apply (console_line_appends_metadata exampleHost lg INFO "ready"
           [("cols", VNum 80)] (freshWorld 7)).
  - apply NoDup_singleton.
  - intros k Hk. apply list_elem_of_singleton in Hk as ->.
    unfold standardKeys. cbn [fst]. rewrite !not_elem_of_cons.
    split_and!; [done..|]. apply not_elem_of_nil.
  - done.
Defined.

Lemma getLogger_is_singleton_witness :
  ∃ lg p',
    getLogger exampleHost asciiUpper
      {| LOG_LEVEL := Some "debug"; NODE_ENV := None |} None noFaults
      (idleProcess 0)
      = Normal (lg, p') ∧
    level lg = DEBUG ∧
    getLogger exampleHost asciiUpper
      {| LOG_LEVEL := Some "trace"; NODE_ENV := Some "production" |}
      (Some "EACCES")
      {| statSync_fault := Some "EIO"; unlinkSync_fault := None;
         renameSync_fault := None |} p' = Normal (lg, p').
Proof.
  eexists _, _. split; [reflexivity|]. split; [reflexivity|].
  apply (getLogger_is_singleton exampleHost asciiUpper
           {| LOG_LEVEL := Some "debug"; NODE_ENV := None |} _ None _
           noFaults _ (idleProcess 0)).
  reflexivity.
Defined.

Lemma initialize_overrides_environment_witness :
  let cfg := exampleConfig (Some DEBUG) ["file"] 10 3 in
  let before := {| globalLogger := Some (Logger_fields exampleHost
                                           (exampleConfig None ["console"] 5 2));
                   world := freshWorld 0 |} in
  let after := {| globalLogger := Some (Logger_fields exampleHost cfg);
                  world := {| logdir := Some emptyDir; console := [];
                              clock := 0 |} |} in
  getLogger exampleHost asciiUpper
    {| LOG_LEVEL := Some "trace"; NODE_ENV := None |} (Some "EACCES") noFaults
    after
  = Normal (Logger_fields exampleHost cfg, after).
Proof.
  intros cfg before after.
  destruct (initialize_overrides_environment exampleHost asciiUpper cfg
              {| LOG_LEVEL := Some "trace"; NODE_ENV := None |}
              None (Some "EACCES") noFaults noFaults before after
              (Logger_fields exampleHost cfg) eq_refl) as [_ Hget].
  exact Hget.
Defined.

Lemma production_logger_spares_console_witness :
  let env := {| LOG_LEVEL := None; NODE_ENV := Some "production" |} in
  let lg := Logger_fields exampleHost (envConfig asciiUpper env) in
  let p' := {| globalLogger := Some lg;
               world := {| logdir := Some emptyDir; console := []; clock := 0 |} |} in
  ∃ w', write exampleHost None lg INFO "ready" [] (world p') = Normal w' ∧
        console w' = console (world p').
Proof.
  intros env lg p'.
  apply (production_logger_spares_console exampleHost asciiUpper env None
           noFaults (idleProcess 0) p' lg); reflexivity.
Defined.

Lemma createLogger_shares_global_logger_witness :
  let env := {| LOG_LEVEL := Some "warn"; NODE_ENV := None |} in
  ∃ c p', createLogger exampleHost asciiUpper env None noFaults "terminal"
            (idleProcess 0)
          = Normal (c, p') ∧
          level c = WARN ∧ module c = "terminal" ∧
          outputs c = ["console"; "file"].
Proof.
  intros env.
  destruct (createLogger exampleHost asciiUpper env None noFaults "terminal"
              (idleProcess 0)) as [[c p']|e] eqn:Hc; [|discriminate Hc].
  exists c, p'. split; [reflexivity|].
  destruct (createLogger_shares_global_logger exampleHost asciiUpper env None
              noFaults "terminal" (idleProcess 0) p' c eq_refl Hc)
    as (_ & -> & _).
  split_and!; reflexivity.
Defined.

End LoggerMoreFacts.

(* ===================================================================== *)
(** ** More on the error tracker                                          *)
(* ===================================================================== *)

Module TrackerMoreFacts.
Import Js JsFacts ErrorTracker TrackerFacts ErrorTrackerOps.


Lemma push_shift_within_last {A} (cap : nat) (x : A) (l : list A) :
  1 ≤ cap →
  last (if decide (cap < length (l ++ [x])) then shift (l ++ [x]) else l ++ [x])
  = Some x.
Proof.
  intros Hcap. case_decide as Hlen; [|apply last_snoc].
  destruct l as [|a l]; [simpl in Hlen; lia|]. simpl. apply last_snoc.
Qed.

Lemma trackAll_fields (cfg : Config) (calls : list Call) :
  let t := trackAll calls (ErrorTracker_new cfg) in
  enabled t = enabled (ErrorTracker_new cfg) ∧
  maxErrors t = maxErrors (ErrorTracker_new cfg).
Proof.
  destruct (decide (cfg_enabled cfg = VBool false)) as [Hoff|Hon].
  - rewrite trackAll_off; [done|]. simpl. by rewrite Hoff.
  - destruct (trackAll_on cfg calls Hon) as (He & Hm & _). simpl.
    rewrite He, Hm. by rewrite bool_decide_eq_false_2.
Qed.

(** X12. [clearErrors] brings a tracker back to the state it was constructed
    in, whatever it has tracked. *)
Theorem clearErrors_restores_new_tracker (cfg : Config) (calls : list Call) :
  (clearErrors (trackAll calls (ErrorTracker_new cfg))).1 = ErrorTracker_new cfg.
Proof.
  destruct (trackAll_fields cfg calls) as [He Hm].
  unfold clearErrors. cbn [fst]. rewrite He, Hm. done.
Qed.


(** X14. What the history keeps of a global error: the time, the message, the
    stack and the type.  The file, line and column of an [error] event, the
    code of an exception and the reason of a rejection are dropped, and an
    event without a message, as every rejection is, goes under the message
    ['[object Object]']. *)
Theorem global_error_record (now later : nat) (ev : Event) (t : Tracker) :
  enabled t = true → 1 ≤ maxErrors t →
  let r := handleGlobalError now later (errorInfoOf ev) t in
  last (errors r.1) =
    Some [("timestamp", VNum (Z.of_nat later)); ("message", eventKey ev);
          ("stack", obj_get "stack" (errorInfoOf ev));
          ("type", obj_get "type" (errorInfoOf ev))] ∧
  (surfaceOf ev ∈ [WindowRejection; ProcessRejection] →
   eventKey ev = VStr "[object Object]").
Proof.
  intros Hon Hcap r. split.
  - subst r. unfold handleGlobalError. cbn [fst].
    rewrite trackError_on by done. cbn [errors].
    rewrite push_shift_within_last by done.
    destruct ev; reflexivity.
  - by destruct ev; intros Hs; [set_solver | | set_solver |].
Qed.

Lemma filter_all {A} (P : A → Prop) `{!∀ x, Decision (P x)} (l : list A) :
  (∀ x, P x) → filter P l = l.
Proof.
  intros HP. induction l as [|x l IH]; [done|].
  rewrite filter_cons_True by done. by rewrite IH.
Qed.

Section Queries.
Context (stringToNumber : string → option Z).

(** What [getErrors] computes, criteria and limit apart. *)
Lemma getErrors_unfold (flt : Filter) (t : Tracker) :
  let all := filter (selected stringToNumber flt) (errors t) in
  getErrors stringToNumber flt t =
  match flt_limit flt with
  | Some (S n) => slice_last (S n) all
  | _ => all
  end.
Proof.
  intros all. unfold getErrors.
  assert ((let filtered :=
             if truthy (flt_type flt)
             then filter (λ e, obj_get "type" e = flt_type flt) (errors t)
             else errors t in
           match flt_since flt with
           | Some (S n) =>
               filter (λ e, ge_number stringToNumber (obj_get "timestamp" e) (S n)
                            = true) filtered
           | _ => filtered
           end) = all) as Hall.
  { subst all. cbv zeta.
    destruct (truthy (flt_type flt)) eqn:Ht;
      destruct (flt_since flt) as [[|n]|] eqn:Hs.
    - apply list_filter_iff. intros e. unfold selected. rewrite Hs.
      split; [|tauto]. intros He. split; [done|]. by intros ? [=].
    - rewrite list_filter_filter. apply list_filter_iff. intros e.
      unfold selected. rewrite Hs. split.
      + intros [H1 H2]. split; [done|]. by intros ? [= <-].
      + intros [H1 H2]. split; [by apply H2 | by apply H1].
    - apply list_filter_iff. intros e. unfold selected. rewrite Hs.
      split; [|tauto]. intros He. split; [done|]. by intros ? [=].
    - symmetry. apply filter_all. intros e. unfold selected. rewrite Ht, Hs.
      split; [done|]. by intros ? [=].
    - apply list_filter_iff. intros e. unfold selected. rewrite Ht, Hs. split.
      + intros H2. split; [done|]. by intros ? [= <-].
      + intros [_ H2]. by apply H2.
    - symmetry. apply filter_all. intros e. unfold selected. rewrite Ht, Hs.
      split; [done|]. by intros ? [=]. }
  cbv zeta in Hall. cbv zeta. rewrite Hall. done.
Qed.

(** X15. [getErrors] returns records of the history, in the order of the
    history, all of which pass the [type] and [since] criteria in force.
    Without a limit it returns every such record; with a limit, the most
    recent ones up to that number.  A limit of 0 is no limit, and a [since]
    of 0 or a falsy [type] is no criterion. *)
Theorem getErrors_selects_most_recent (flt : Filter) (t : Tracker) :
  let all := filter (selected stringToNumber flt) (errors t) in
  let result := getErrors stringToNumber flt t in
  result `sublist_of` errors t ∧
  Forall (selected stringToNumber flt) result ∧
  (∃ older, all = older ++ result) ∧
  length result = match flt_limit flt with
                  | Some (S n) => S n `min` length all
                  | _ => length all
                  end.
Proof.
  intros all result. subst result. rewrite getErrors_unfold. fold all.
  assert (all `sublist_of` errors t) as Hsub by apply sublist_filter.
  assert (Forall (selected stringToNumber flt) all) as Hall.
  { apply Forall_forall. intros e He. by apply list_elem_of_filter in He as [? _]. }
  destruct (flt_limit flt) as [[|n]|].
  - split_and!; [done | done | by exists [] | done].
  - split_and!.
    + etrans; [apply sublist_drop | done].
    + by apply Forall_drop.
    + exists (take (length all - S n) all). unfold slice_last.
      by rewrite take_drop.
    + apply length_slice_last.
  - split_and!; [done | done | by exists [] | done].
Qed.

End Queries.





Lemma global_error_record_witness :
  let t := ErrorTracker_new (ErrorTracker.exampleConfig VUndef 2) in
  let r := handleGlobalError 10 11
             (errorInfoOf (UnhandledRejection (VStr "disk full") VUndef)) t in
  last (errors r.1) =
    Some [("timestamp", VNum 11); ("message", VStr "[object Object]");
          ("stack", VUndef); ("type", VStr "unhandled-rejection")].
Proof.
  intros t r.
  destruct (global_error_record 10 11
              (UnhandledRejection (VStr "disk full") VUndef) t)
    as [Hlast _]; [reflexivity | vm_compute; lia |].
  exact Hlast.
Defined.



End TrackerMoreFacts.

(* ===================================================================== *)
(** ** More on the performance monitor                                    *)
(* ===================================================================== *)

Module MonitorMoreFacts.
Import Js JsFacts PerformanceMonitor MonitorFacts MonitorOps.

(** *** Statistics *)

Lemma Qc_min_spec (a b : Qc) :
  (Qc_min a b ≤ a)%Qc ∧ (Qc_min a b ≤ b)%Qc ∧ (Qc_min a b = a ∨ Qc_min a b = b).
Proof.
  unfold Qc_min. case_decide as Hab.
  - split_and!; [apply Qcle_refl | done | by left].
  - apply Qcnot_le_lt, Qclt_le_weak in Hab.
    split_and!; [done | apply Qcle_refl | by right].
Qed.

Lemma Qc_max_spec (a b : Qc) :
  (a ≤ Qc_max a b)%Qc ∧ (b ≤ Qc_max a b)%Qc ∧ (Qc_max a b = a ∨ Qc_max a b = b).
Proof.
  unfold Qc_max. case_decide as Hab.
  - split_and!; [done | apply Qcle_refl | by right].
  - apply Qcnot_le_lt, Qclt_le_weak in Hab.
    split_and!; [apply Qcle_refl | done | by left].
Qed.

(** [Math.min(...values)] is a value and a lower bound of the values. *)
Lemma foldl_min_spec (l : list Qc) (a : Qc) :
  foldl Qc_min a l ∈ a :: l ∧ Forall (Qcle (foldl Qc_min a l)) (a :: l).
Proof.
  revert a. induction l as [|x l IH]; intros a; cbn [foldl].
  - split; [apply list_elem_of_here|]. constructor; [apply Qcle_refl | constructor].
  - destruct (IH (Qc_min a x)) as [Hin Hle].
    destruct (Qc_min_spec a x) as (Ha & Hx & Hor).
    apply Forall_cons in Hle as [Hm Hl]. split.
    + apply elem_of_cons in Hin as [->|Hin].
      * destruct Hor as [->| ->]; [apply list_elem_of_here|].
        apply list_elem_of_further, list_elem_of_here.
      * by do 2 apply list_elem_of_further.
    + repeat constructor; [by etrans | by etrans | done].
Qed.

Lemma foldl_max_spec (l : list Qc) (a : Qc) :
  foldl Qc_max a l ∈ a :: l ∧ Forall (λ v, (v ≤ foldl Qc_max a l)%Qc) (a :: l).
Proof.
  revert a. induction l as [|x l IH]; intros a; cbn [foldl].
  - split; [apply list_elem_of_here|]. constructor; [apply Qcle_refl | constructor].
  - destruct (IH (Qc_max a x)) as [Hin Hle].
    destruct (Qc_max_spec a x) as (Ha & Hx & Hor).
    apply Forall_cons in Hle as [Hm Hl]. split.
    + apply elem_of_cons in Hin as [->|Hin].
      * destruct Hor as [->| ->]; [apply list_elem_of_here|].
        apply list_elem_of_further, list_elem_of_here.
      * by do 2 apply list_elem_of_further.
    + repeat constructor; [by etrans | by etrans | done].
Qed.

Lemma sorted_lookup_le (l : list Qc) (i j : nat) (x y : Qc) :
  StronglySorted Qcle l → i ≤ j → l !! i = Some x → l !! j = Some y → (x ≤ y)%Qc.
Proof.
  intros Hs. revert i j. induction Hs as [|a l Hs IH Hall]; intros i j Hij Hi Hj.
  - done.
  - destruct i as [|i], j as [|j]; simpl in *; try lia.
    + injection Hi as ->. injection Hj as ->. apply Qcle_refl.
    + injection Hi as ->. rewrite Forall_forall in Hall. apply Hall.
      by eapply list_elem_of_lookup_2.
    + apply (IH i j); [lia | done | done].
Qed.

Lemma Qc_of_nat_S (n : nat) : Qc_of_nat (S n) = (1 + Qc_of_nat n)%Qc.
Proof.
  unfold Qc_of_nat. rewrite Nat2Z.inj_succ, <-Z.add_1_l, Z2Qc_inj_add.
  by rewrite Z2Qc_inj_1.
Qed.

Lemma Qc_of_nat_pos (n : nat) : 1 ≤ n → (0 < Qc_of_nat n)%Qc.
Proof.
  intros Hn. unfold Qc_of_nat. rewrite <-Z2Qc_inj_0.
  apply (proj1 (Z2Qc_inj_lt _ _)). lia.
Qed.

Lemma div_times (x n : Qc) : (0 < n)%Qc → (x / n * n)%Qc = x.
Proof.
  intros Hn. rewrite Qcmult_comm. apply Qcmult_div_r.
  intros ->. by apply Qclt_not_eq in Hn.
Qed.

(** X17. The statistics of a non-empty series are in order: the minimum and the
    maximum are values of the series and bound all of them, and the median,
    the 95th and the 99th percentile lie between them in this order. *)
Theorem stats_are_ordered (samples : list Sample) (st : Stats) :
  calculateStats (Some samples) = Some st →
  min st ∈ value <$> samples ∧ max st ∈ value <$> samples ∧
  Forall (λ v, (min st ≤ v)%Qc ∧ (v ≤ max st)%Qc) (value <$> samples) ∧
  ∃ med q95 q99,
    median st = Some med ∧ p95 st = Some q95 ∧ p99 st = Some q99 ∧
    (min st ≤ med)%Qc ∧ (med ≤ q95)%Qc ∧ (q95 ≤ q99)%Qc ∧ (q99 ≤ max st)%Qc.
Proof.
  destruct samples as [|s rest]; [done|]. unfold calculateStats.
  intros [= <-]. cbn [min max avg median p95 p99].
  set (values := value <$> s :: rest).
  change (value s :: (value <$> rest)) with values.
  destruct (foldl_min_spec (value <$> rest) (value s)) as [Hmin_in Hmin_le].
  destruct (foldl_max_spec (value <$> rest) (value s)) as [Hmax_in Hmax_le].
  change (value s :: (value <$> rest)) with values in *.
  set (lo := foldl Qc_min (value s) (value <$> rest)) in *.
  set (hi := foldl Qc_max (value s) (value <$> rest)) in *.
  assert (Hn : 1 ≤ length values) by (simpl; lia).
  assert (Hbounds : Forall (λ v, (lo ≤ v)%Qc ∧ (v ≤ hi)%Qc) values).
  { rewrite Forall_forall in Hmin_le, Hmax_le. apply Forall_forall.
    intros v Hv. split; [by apply Hmin_le | by apply Hmax_le]. }
  split_and!; [done | done | done |].
  set (sorted := array_sort ascending values).
  assert (Hsorted : StronglySorted Qcle sorted)
    by (apply array_sort_sorted; [apply _ .. | apply ascending_le]).
  assert (Hperm : sorted ≡ₚ values) by apply array_sort_Permutation.
  assert (Hlen : length sorted = length values) by (by rewrite Hperm).
  assert (H50 : length sorted `div` 2 ≤ percentileIndex (length sorted) 95).
  { unfold percentileIndex.
    rewrite <-(Nat.Div0.div_mul_cancel_r (length sorted) 2 50) by lia.
    apply Nat.Div0.div_le_mono. lia. }
  assert (H95 : percentileIndex (length sorted) 95
                ≤ percentileIndex (length sorted) 99).
  { unfold percentileIndex. apply Nat.Div0.div_le_mono. lia. }
  assert (H99 : percentileIndex (length sorted) 99 < length sorted).
  { apply percentileIndex_lt; lia. }
  destruct (lookup_lt_is_Some_2 sorted (length sorted `div` 2)) as [med Hmed];
    [lia|].
  destruct (lookup_lt_is_Some_2 sorted (percentileIndex (length sorted) 95))
    as [q95 Hq95]; [lia|].
  destruct (lookup_lt_is_Some_2 sorted (percentileIndex (length sorted) 99))
    as [q99 Hq99]; [done|].
  exists med, q95, q99. split_and!; [done | done | done | | | |].
  - rewrite Forall_forall in Hbounds. apply Hbounds. rewrite <-Hperm.
    by eapply list_elem_of_lookup_2.
  - exact (sorted_lookup_le sorted _ _ med q95 Hsorted H50 Hmed Hq95).
  - exact (sorted_lookup_le sorted _ _ q95 q99 Hsorted H95 Hq95 Hq99).
  - rewrite Forall_forall in Hbounds. apply Hbounds. rewrite <-Hperm.
    by eapply list_elem_of_lookup_2.
Qed.

(** X18. The minimum, the maximum, the median, the percentiles and the count
    depend on the values only, not on the order in which the samples were
    recorded, nor on their times and metadata. *)
Theorem calculateStats_ignores_order (samples samples' : list Sample) :
  value <$> samples ≡ₚ value <$> samples' →
  match calculateStats (Some samples), calculateStats (Some samples') with
  | Some st, Some st' =>
      min st = min st' ∧ max st = max st' ∧ median st = median st' ∧
      p95 st = p95 st' ∧ p99 st = p99 st' ∧ count st = count st'
  | None, None => True
  | _, _ => False
  end.
Proof.
  intros Hperm.
  destruct samples as [|s rest], samples' as [|s' rest'].
  - done.
  - by apply Permutation_nil_cons in Hperm.
  - symmetry in Hperm. by apply Permutation_nil_cons in Hperm.
  - unfold calculateStats. cbn [min max median p95 p99 count].
    set (values := value <$> s :: rest) in *.
    set (values' := value <$> s' :: rest') in *.
    destruct (foldl_min_spec (value <$> rest) (value s)) as [Hmin_in Hmin_le].
    destruct (foldl_max_spec (value <$> rest) (value s)) as [Hmax_in Hmax_le].
    destruct (foldl_min_spec (value <$> rest') (value s')) as [Hmin_in' Hmin_le'].
    destruct (foldl_max_spec (value <$> rest') (value s')) as [Hmax_in' Hmax_le'].
    change (value s :: (value <$> rest)) with values in *.
    change (value s' :: (value <$> rest')) with values' in *.
    rewrite Forall_forall in Hmin_le, Hmax_le, Hmin_le', Hmax_le'.
    assert (foldl Qc_min (value s) (value <$> rest)
            = foldl Qc_min (value s') (value <$> rest')) as ->.
    { apply Qcle_antisym.
      - apply Hmin_le. by rewrite Hperm.
      - apply Hmin_le'. by rewrite <-Hperm. }
    assert (foldl Qc_max (value s) (value <$> rest)
            = foldl Qc_max (value s') (value <$> rest')) as ->.
    { apply Qcle_antisym.
      - apply Hmax_le'. by rewrite <-Hperm.
      - apply Hmax_le. by rewrite Hperm. }
    assert (array_sort ascending values = array_sort ascending values') as ->.
    { apply (StronglySorted_unique Qcle).
      - apply array_sort_sorted; [apply _ .. | apply ascending_le].
      - apply array_sort_sorted; [apply _ .. | apply ascending_le].
      - by rewrite !array_sort_Permutation. }
    assert (length values = length values') as -> by (by rewrite Hperm).
    done.
Qed.

(** *** Built-in series *)

Lemma builtinSeries_empty (name : string) :
  default [] (builtinSeries !! name) = [].
Proof.
  destruct (builtinSeries !! name) as [l|] eqn:Hl; [|done].
  unfold builtinSeries in Hl. apply elem_of_list_to_map_2 in Hl.
  rewrite !elem_of_cons in Hl. rewrite elem_of_nil in Hl.
  destruct Hl as [Hl|[Hl|[Hl|[Hl|[Hl|[]]]]]]; by injection Hl as _ ->.
Qed.

Lemma sampleAll_snoc calls (c : SampleCall) (m : Monitor) :
  sampleAll (calls ++ [c]) m =
  match recordSample c.1.1 c.1.2 c.2 (sampleAll calls m) with
  | Normal m' => m'
  | Throw _ => sampleAll calls m
  end.
Proof. unfold sampleAll. by rewrite foldl_snoc. Qed.

Lemma sampleAll_spec (cfg : Config) (calls : list SampleCall) :
  let m := sampleAll calls (PerformanceMonitor_new cfg) in
  (∀ name, name ≠ "custom" → name ∉ inheritedNames →
     default [] (metrics m !! name) =
       slice_last (maxSamples m) (storedSample <$> seriesCalls name calls)) ∧
  maxSamples m = maxSamples (PerformanceMonitor_new cfg) ∧
  enabled m = enabled (PerformanceMonitor_new cfg) ∧
  custom m = ∅.
Proof.
  induction calls as [|c calls IH] using rev_ind.
  - cbv zeta. split_and!; [|done..]. intros name _ _. apply builtinSeries_empty.
  - cbv zeta. rewrite sampleAll_snoc.
    destruct IH as (Hser & Hcap & Hen & Hcus).
    cbv zeta in Hser, Hcap, Hen, Hcus.
    unfold recordSample.
    destruct (decide (c.1.2 = "custom" ∨ c.1.2 ∈ inheritedNames)) as [Hbad|Hok].
    + split_and!; [|done..]. intros name Hn1 Hn2.
      unfold seriesCalls. rewrite filter_app, fmap_app.
      rewrite filter_cons_False, filter_nil
        by (intros Heq; subst name; by destruct Hbad).
      rewrite fmap_nil, app_nil_r. by apply Hser.
    + cbn [metrics maxSamples enabled custom].
      split_and!; [|done..]. intros name Hn1 Hn2.
      unfold seriesCalls. rewrite filter_app, fmap_app.
      destruct (decide (c.1.2 = name)) as [Hc|Hc].
      * rewrite filter_cons_True, filter_nil by done.
        rewrite Hc, lookup_insert_eq. cbn [default].
        rewrite (Hser name Hn1 Hn2). unfold push_bounded.
        rewrite push_shift_slice. by destruct c as [[now nm] v].
      * rewrite filter_cons_False, filter_nil by done.
        rewrite lookup_insert_ne by done. rewrite fmap_nil, app_nil_r.
        by apply Hser.
Qed.

(** X19. [recordSample] keeps, in every series it can keep (any name but
    ['custom'] and the names of the properties every object inherits), the
    most recent [maxSamples] samples recorded on it, in order.  It does not
    look at [enabled]: a monitor constructed with [enabled: false] stores
    them all the same.  The custom metrics are left alone. *)
Theorem recordSample_keeps_most_recent (cfg : Config) (calls : list SampleCall)
    (name : string) :
  name ≠ "custom" → name ∉ inheritedNames →
  let m := sampleAll calls (PerformanceMonitor_new cfg) in
  default [] (metrics m !! name) =
    slice_last (maxSamples m) (storedSample <$> seriesCalls name calls) ∧
  maxSamples m = maxSamples (PerformanceMonitor_new cfg) ∧
  enabled m = enabled (PerformanceMonitor_new cfg) ∧
  custom m = ∅.
Proof.
  intros Hn1 Hn2 m.
  destruct (sampleAll_spec cfg calls) as (Hser & Hcap & Hen & Hcus).
  split_and!; [|done..]. by apply Hser.
Qed.

(** *** Frames per second *)

Lemma Math_round_bounds (x : Qc) (c : Z) :
  (0 ≤ x)%Qc → (x ≤ Qc_of_Z c)%Qc →
  ∃ z : Z, Math_round x = Qc_of_Z z ∧ (0 ≤ z ≤ c)%Z.
Proof.
  intros H0 Hc. unfold Math_round. eexists. split; [done|].
  set (y := (x + Q2Qc (1 # 2))%Qc).
  assert (Hy : (this y == this x + (1 # 2))%Q).
  { subst y. unfold Qcplus, Q2Qc. cbn [this]. by rewrite !Qred_correct. }
  unfold Qcle in H0, Hc. cbn [this Q2Qc] in H0.
  change (this (Qc_of_Z c)) with (inject_Z c) in Hc.
  rewrite Qred_correct in H0. split.
  - change 0%Z with (Qfloor (inject_Z 0)). apply Qfloor_resp_le.
    rewrite Hy. change (inject_Z 0) with (0 + 0)%Q.
    apply Qplus_le_compat; [done | discriminate].
  - apply Z.lt_succ_r. rewrite <-Z.add_1_r. rewrite Zlt_Qlt.
    apply Qle_lt_trans with (this y); [apply Qfloor_le|].
    rewrite Hy, inject_Z_plus.
    rewrite (Qplus_comm (this x)), (Qplus_comm (inject_Z c)).
    apply Qplus_lt_le_compat; [reflexivity | done].
Qed.

(** ['fps'] is a series of its own, so the frame callback returns. *)
Lemma measureFPS_returns (t : nat) (fc : FrameClock) (m : Monitor) :
  ∃ r, measureFPS t fc m = Normal r.
Proof.
  unfold measureFPS. case_decide; [|by eexists].
  unfold recordSample.
  rewrite decide_False by (apply (bool_decide_unpack _); vm_compute; exact I).
  by eexists.
Qed.

(** X20. The frame callback counts frames and reports once a second has gone by
    since the last report.  Until then it only counts; then it stores one
    [fps] sample, a whole number between 0 and the number of frames counted
    since the last report, and starts counting again from this frame. *)
Theorem measureFPS_reports_each_second (t : nat) (fc : FrameClock) (m : Monitor) :
  let elapsed := (performance_now t - performance_now (lastFrameTime fc))%Qc in
  let r := measureFPS t fc m in
  ((elapsed < Qc_of_nat 1000)%Qc →
   r = Normal
         ({| lastFrameTime := lastFrameTime fc;
             frameCount := S (frameCount fc) |}, m)) ∧
  ((Qc_of_nat 1000 ≤ elapsed)%Qc →
   ∃ (fps : Z) (m' : Monitor),
     (0 ≤ fps ≤ Z.of_nat (S (frameCount fc)))%Z ∧
     recordSample (Date_now t) "fps" (Qc_of_Z fps) m = Normal m' ∧
     metrics m' =
       <["fps" := push_bounded (maxSamples m)
                    {| timestamp := Date_now t; value := Qc_of_Z fps;
                       metadata := [] |}
                    (default [] (metrics m !! "fps"))]> (metrics m) ∧
     r = Normal ({| lastFrameTime := t; frameCount := 0 |}, m')).
Proof.
  intros elapsed r. subst r. unfold measureFPS. fold elapsed. split.
  - intros Hlt. rewrite decide_False; [done|]. by apply Qclt_not_le.
  - intros Hge. rewrite decide_True by done.
    set (c := Qc_of_nat (S (frameCount fc))).
    assert (Hpos : (0 < elapsed)%Qc).
    { eapply Qclt_le_trans; [|exact Hge]. apply Qc_of_nat_pos. lia. }
    assert (Hc0 : (0 ≤ c)%Qc) by (apply Qclt_le_weak, Qc_of_nat_pos; lia).
    destruct (Math_round_bounds (c * Qc_of_nat 1000 / elapsed)%Qc
                (Z.of_nat (S (frameCount fc)))) as (z & Hz & Hbounds).
    + unfold Qcdiv. apply Qcmult_nonneg_nonneg.
      * apply Qcmult_nonneg_nonneg; [done|].
        apply Qclt_le_weak, Qc_of_nat_pos. lia.
      * by apply Qclt_le_weak, Qcinv_pos.
    + apply (Qcmult_lt_0_le_reg_r _ _ elapsed); [done|].
      rewrite div_times by done. fold (Qc_of_nat (S (frameCount fc))). fold c.
      rewrite (Qcmult_comm c (Qc_of_nat 1000)), (Qcmult_comm c elapsed).
      by apply Qcmult_le_compat_r.
    + exists z. rewrite Hz. unfold recordSample.
      rewrite decide_False
        by (apply (bool_decide_unpack _); vm_compute; exact I).
      eexists. split; [exact Hbounds|]. split; [reflexivity|].
      split; reflexivity.
Qed.

(** *** Names every object inherits *)

Lemma recordAll_inherited (calls : list MetricCall) (m : Monitor) (name : string) :
  name ∈ inheritedNames → seriesOf name (recordAll calls m) = seriesOf name m.
Proof.
  intros Hin. induction calls as [|c calls IH] using rev_ind; [done|].
  rewrite recordAll_snoc. unfold recordMetric.
  destruct (negb (enabled (recordAll calls m))); [done|].
  case_decide as Hc; [done|]. unfold seriesOf in *. cbn [custom].
  rewrite lookup_insert_ne; [done|]. intros Heq. apply Hc. by rewrite Heq.
Qed.

(** X30. Under the name of a property every object inherits, ['constructor']
    or ['toString'] say, an enabled monitor measures nothing: [measure] and
    [measureAsync] throw a [TypeError] in place of the function's result or
    failure, [recordMetric] having thrown in the [try] and again in the
    [catch], and no sample is ever stored under the name. *)
Theorem measure_throws_under_inherited_name {E A : Type}
    (toFixed : nat → Qc → string) (cfg : Config) (calls : list MetricCall)
    (name : string) (fn : Run E A) (t : nat) :
  cfg_enabled cfg ≠ VBool false → name ∈ inheritedNames →
  let m := recordAll calls (PerformanceMonitor_new cfg) in
  measure toFixed name fn t m = (Throw (inr TypeError), m, []) ∧
  measureAsync toFixed name fn t m = (Throw (inr TypeError), m, []) ∧
  seriesOf name m = [].
Proof.
  intros Hcfg Hin m.
  destruct (recordAll_on cfg calls Hcfg) as (Hon & _). fold m in Hon.
  destruct (measure_inherited_name toFixed name fn t m Hon Hin) as [H1 H2].
  split_and!; [exact H1 | exact H2 |].
  unfold m. by rewrite recordAll_inherited.
Qed.

(** *** Health and the periodic report *)

Lemma recordAll_metrics (calls : list MetricCall) (m : Monitor) :
  metrics (recordAll calls m) = metrics m.
Proof.
  induction calls as [|c calls IH] using rev_ind; [done|].
  rewrite recordAll_snoc. unfold recordMetric.
  destruct (negb (enabled (recordAll calls m))); [done|].
  by case_decide.
Qed.

Section Reports.
Context (toFixed : nat → Qc → string).

(** X21. The health status looks at the average of the [fps] and of the
    [memory] series and at nothing else: it is healthy exactly when no
    average of [fps] is below 30 and no average of [memory] above 500, a
    series without samples raising no issue; custom metrics never change
    it; and a monitor that was only constructed is healthy. *)
Theorem health_reads_fps_and_memory_only (now : nat) (m : Monitor) :
  let h := getHealthStatus toFixed now m in
  (healthy h = true ↔
     (∀ st, calculateStats (metrics m !! "fps") = Some st →
            (Qc_of_nat 30 ≤ avg st)%Qc) ∧
     (∀ st, calculateStats (metrics m !! "memory") = Some st →
            (avg st ≤ Qc_of_nat 500)%Qc)) ∧
  (healthy h = true ↔ issues h = []) ∧
  (∀ later calls, getHealthStatus toFixed later (recordAll calls m) = h) ∧
  (∀ cfg, getHealthStatus toFixed now (PerformanceMonitor_new cfg) =
          {| healthy := true; issues := []; health_fps := None;
             health_memory := None |}).
Proof.
  intros h. split_and!.
  - subst h. unfold getHealthStatus, getMetrics. cbn [rep_fps rep_memory healthy].
    rewrite bool_decide_eq_true, length_app, Nat.eq_add_0.
    destruct (calculateStats (metrics m !! "fps")) as [sf|];
      destruct (calculateStats (metrics m !! "memory")) as [sm|];
      repeat case_decide; cbn [length]; split;
      try (intros [? ?]; discriminate);
      try (intros _; split; intros st [= <-]; by apply Qcnot_lt_le);
      try (intros _; split; intros st Hst; try discriminate Hst;
           injection Hst as <-; by apply Qcnot_lt_le);
      try done;
      intros [Hf Hm]; exfalso;
      try (specialize (Hf _ eq_refl)); try (specialize (Hm _ eq_refl));
      first [ by apply (Qcle_not_lt _ _ Hf) | by apply (Qcle_not_lt _ _ Hm) ].
  - subst h. unfold getHealthStatus. cbn [healthy issues].
    rewrite bool_decide_eq_true. split.
    + intros Hlen. by apply nil_length_inv.
    + by intros ->.
  - intros later calls. subst h. unfold getHealthStatus, getMetrics.
    cbn [rep_fps rep_memory]. by rewrite recordAll_metrics.
  - intros cfg. reflexivity.
Qed.

(** X22. The periodic report of a monitor that has no [fps] and no [memory]
    samples, as one that was constructed and has recorded custom metrics
    only: [fps] is [undefined], and [memory] is the string ['undefinedMB'],
    the unit being appended to the missing average. *)
Theorem report_without_samples (now : nat) (cfg : Config)
    (calls : list MetricCall) :
  let m := recordAll calls (PerformanceMonitor_new cfg) in
  logCurrentMetrics toFixed now m =
  [(Logger.INFO, "Performance metrics",
    [("fps", VUndef); ("memory", VStr "undefinedMB");
     ("customMetrics", VNum (Z.of_nat (size (custom m))))])].
Proof.
  intros m. unfold logCurrentMetrics, getMetrics.
  cbn [rep_fps rep_memory rep_custom]. subst m.
  rewrite recordAll_metrics, map_size_fmap. reflexivity.
Qed.

End Reports.

(** *** Timers *)

Lemma clearIntervals_spec (hs : list nat) (tm : Timers.Timers) :
  let tm' := foldl (λ tm h, Timers.clearInterval h tm) tm hs in
  Timers.intervals tm' = Timers.intervals tm ∖ list_to_set hs ∧
  Timers.frames tm' = Timers.frames tm ∧
  Timers.nextHandle tm' = Timers.nextHandle tm.
Proof.
  revert tm. induction hs as [|h hs IH]; intros tm; cbn [foldl].
  - cbv zeta. split_and!; [|done..]. cbn [list_to_set]. set_solver.
  - destruct (IH (Timers.clearInterval h tm)) as (Hi & Hf & Hn).
    cbv zeta in *. rewrite Hi, Hf, Hn. cbn [Timers.clearInterval
      Timers.intervals Timers.frames Timers.nextHandle list_to_set].
    split_and!; [|done..]. set_solver.
Qed.

(** The state of a started monitor: the timers of the platform are in
    order, the one pending frame is the one [rafId] names, and the intervals
    beyond those of [tm0] are the ones kept in [this.intervals]. *)
Lemma start_invariant (hasMemory : bool) (m : Monitor) (t : nat)
    (tm0 : Timers.Timers) :
  enabled m = true → Timers.wf tm0 → Timers.frames tm0 = ∅ →
  let s := (start hasMemory (constructed m t) tm0).1 in
  Timers.wf s.2 ∧
  (∃ h, rafId s.1 = Some h ∧ 1 ≤ h ∧ Timers.frames s.2 = {[h]}) ∧
  Timers.intervals s.2 = Timers.intervals tm0 ∪ list_to_set (handles s.1) ∧
  (∀ x, x ∈ handles s.1 → x ∉ Timers.intervals tm0).
Proof.
  intros Hon [Hpos Hfresh] Hframes. unfold start, constructed.
  cbn [monitor]. rewrite Hon. cbn [negb fst snd handles frameClock].
  unfold Timers.wf.
  destruct hasMemory;
    cbn [Timers.requestAnimationFrame Timers.setInterval fst snd
         Timers.intervals Timers.frames Timers.nextHandle rafId handles app
         list_to_set];
    rewrite Hframes.
  - split_and!.
    + lia.
    + intros h Hh.
      assert (h = S (S (Timers.nextHandle tm0)) ∨ h = S (Timers.nextHandle tm0)
              ∨ h = Timers.nextHandle tm0 ∨ h ∈ Timers.intervals tm0) as Hc
        by set_solver.
      destruct Hc as [->|[->|[->|Hin]]]; try lia.
      assert (h < Timers.nextHandle tm0) by (apply Hfresh; set_solver). lia.
    + exists (Timers.nextHandle tm0). split_and!; [done | done | set_solver].
    + set_solver.
    + intros x Hx Hin.
      assert (x < Timers.nextHandle tm0) by (apply Hfresh; set_solver).
      rewrite !elem_of_cons in Hx. rewrite elem_of_nil in Hx.
      destruct Hx as [->|[->|[]]]; lia.
  - split_and!.
    + lia.
    + intros h Hh.
      assert (h = S (Timers.nextHandle tm0)
              ∨ h = Timers.nextHandle tm0 ∨ h ∈ Timers.intervals tm0) as Hc
        by set_solver.
      destruct Hc as [->|[->|Hin]]; try lia.
      assert (h < Timers.nextHandle tm0) by (apply Hfresh; set_solver). lia.
    + exists (Timers.nextHandle tm0). split_and!; [done | done | set_solver].
    + set_solver.
    + intros x Hx Hin.
      assert (x < Timers.nextHandle tm0) by (apply Hfresh; set_solver).
      rewrite !elem_of_cons in Hx. rewrite elem_of_nil in Hx.
      destruct Hx as [->|[]]; lia.
Qed.

Lemma runFrame_invariant (tm0 : Timers.Timers) (h t : nat)
    (s : Running * Timers.Timers) :
  Timers.wf s.2 ∧
  (∃ h, rafId s.1 = Some h ∧ 1 ≤ h ∧ Timers.frames s.2 = {[h]}) ∧
  Timers.intervals s.2 = Timers.intervals tm0 ∪ list_to_set (handles s.1) ∧
  (∀ x, x ∈ handles s.1 → x ∉ Timers.intervals tm0) →
  let s' := runFrame h t s in
  Timers.wf s'.2 ∧
  (∃ h, rafId s'.1 = Some h ∧ 1 ≤ h ∧ Timers.frames s'.2 = {[h]}) ∧
  Timers.intervals s'.2 = Timers.intervals tm0 ∪ list_to_set (handles s'.1) ∧
  (∀ x, x ∈ handles s'.1 → x ∉ Timers.intervals tm0).
Proof.
  intros ([Hpos Hfresh] & (h0 & Hraf & Hh0 & Hframes) & Hint & Hown).
  unfold runFrame. case_decide as Hin;
    [|split_and!; [by split | by exists h0 | done | done]].
  destruct (measureFPS_returns t (frameClock s.1) (monitor s.1)) as [r ->].
  cbn [fst snd Timers.requestAnimationFrame Timers.cancelAnimationFrame
       Timers.intervals Timers.frames Timers.nextHandle rafId handles].
  rewrite Hframes in Hin. apply elem_of_singleton in Hin as ->.
  unfold Timers.wf.
  cbn [Timers.intervals Timers.frames Timers.nextHandle].
  split_and!; [lia | | | done | done].
  - intros x Hx. rewrite Hframes in Hx.
    assert (x = Timers.nextHandle s.2 ∨ x ∈ Timers.intervals s.2) as Hc
      by set_solver.
    destruct Hc as [->|Hc]; [lia|].
    assert (x < Timers.nextHandle s.2) by (apply Hfresh; set_solver). lia.
  - exists (Timers.nextHandle s.2). split_and!; [done | done|].
    rewrite Hframes. set_solver.
Qed.

Lemma runFrames_invariant (tm0 : Timers.Timers) (fs : list (nat * nat))
    (s : Running * Timers.Timers) :
  Timers.wf s.2 ∧
  (∃ h, rafId s.1 = Some h ∧ 1 ≤ h ∧ Timers.frames s.2 = {[h]}) ∧
  Timers.intervals s.2 = Timers.intervals tm0 ∪ list_to_set (handles s.1) ∧
  (∀ x, x ∈ handles s.1 → x ∉ Timers.intervals tm0) →
  let s' := runFrames fs s in
  Timers.wf s'.2 ∧
  (∃ h, rafId s'.1 = Some h ∧ 1 ≤ h ∧ Timers.frames s'.2 = {[h]}) ∧
  Timers.intervals s'.2 = Timers.intervals tm0 ∪ list_to_set (handles s'.1) ∧
  (∀ x, x ∈ handles s'.1 → x ∉ Timers.intervals tm0).
Proof.
  revert s. induction fs as [|f fs IH]; intros s Hs; [done|].
  unfold runFrames. cbn [foldl]. apply IH. by apply runFrame_invariant.
Qed.

(** X23. [stop] after [start] gives back every timer: whatever frames have run
    in between, the intervals of the platform are those from before the
    start and no frame request is pending. *)
Theorem start_stop_releases_timers (hasMemory : bool) (m : Monitor) (t : nat)
    (tm0 : Timers.Timers) (fs : list (nat * nat)) :
  enabled m = true → Timers.wf tm0 → Timers.frames tm0 = ∅ →
  let started := (start hasMemory (constructed m t) tm0).1 in
  let ran := runFrames fs started in
  let stopped := (stop ran.1 ran.2).1 in
  Timers.intervals stopped.2 = Timers.intervals tm0 ∧
  Timers.frames stopped.2 = ∅ ∧
  handles stopped.1 = [] ∧ rafId stopped.1 = None.
Proof.
  intros Hon Hwf Hframes started ran stopped.
  destruct (runFrames_invariant tm0 fs started
              (start_invariant hasMemory m t tm0 Hon Hwf Hframes))
    as (_ & (h & Hraf & Hh & Hfr) & Hint & Hown).
  fold ran in Hraf, Hfr, Hint, Hown.
  subst stopped. unfold stop. cbn [fst snd handles rafId].
  destruct (clearIntervals_spec (handles ran.1) ran.2) as (Hi & Hf & _).
  cbv zeta in Hi, Hf. rewrite Hraf.
  destruct h as [|h]; [lia|]. cbn [Timers.live default].
  cbn [Timers.cancelAnimationFrame Timers.intervals Timers.frames].
  rewrite Hi, Hf, Hint, Hfr. split_and!; [|set_solver|done|done].
  apply set_eq. intros x. rewrite elem_of_difference, elem_of_union.
  rewrite !elem_of_list_to_set. specialize (Hown x). tauto.
Qed.

Lemma runFrame_keeps_one_frame (h t : nat) (s : Running * Timers.Timers) :
  Timers.wf s.2 ∧ size (Timers.frames s.2) = 1 →
  Timers.wf (runFrame h t s).2 ∧ size (Timers.frames (runFrame h t s).2) = 1.
Proof.
  intros [[Hpos Hfresh] Hsize]. unfold runFrame. case_decide as Hin; [|done].
  destruct (measureFPS_returns t (frameClock s.1) (monitor s.1)) as [r ->].
  cbn [fst snd Timers.requestAnimationFrame Timers.cancelAnimationFrame
       Timers.intervals Timers.frames Timers.nextHandle].
  apply size_1_elem_of in Hsize as [h0 Hh0].
  apply leibniz_equiv in Hh0.
  rewrite Hh0 in Hin. apply elem_of_singleton in Hin as ->.
  unfold Timers.wf. cbn [Timers.intervals Timers.frames Timers.nextHandle].
  rewrite Hh0. split_and!; [lia | |].
  - intros x Hx.
    assert (x = Timers.nextHandle s.2 ∨ x ∈ Timers.intervals s.2) as Hc
      by set_solver.
    destruct Hc as [->|Hc]; [lia|].
    assert (x < Timers.nextHandle s.2) by (apply Hfresh; set_solver). lia.
  - replace ({[Timers.nextHandle s.2]} ∪ ({[h0]} ∖ {[h0]}) : gset nat)
      with ({[Timers.nextHandle s.2]} : gset nat) by set_solver.
    apply size_singleton.
Qed.

(** X24. [start] on a monitor that is already started requests a second frame
    and forgets the handle of the first.  [stop] then clears every interval
    but cancels the second frame only: one frame request stays pending, and
    since each frame requests the next, one stays pending for good. *)
Theorem second_start_leaks_frame_loop (hasMemory hasMemory' : bool)
    (m : Monitor) (t : nat) (tm0 : Timers.Timers) (fs : list (nat * nat)) :
  enabled m = true → Timers.wf tm0 → Timers.frames tm0 = ∅ →
  let first := (start hasMemory (constructed m t) tm0).1 in
  let second := (start hasMemory' first.1 first.2).1 in
  let stopped := (stop second.1 second.2).1 in
  rafId stopped.1 = None ∧
  Timers.intervals stopped.2 = Timers.intervals tm0 ∧
  Timers.frames stopped.2 = {[Timers.nextHandle tm0]} ∧
  size (Timers.frames (runFrames fs stopped).2) = 1.
Proof.
  intros Hon [Hpos Hfresh] Hframes first second stopped.
  assert (Hstopped :
    Timers.wf stopped.2 ∧ rafId stopped.1 = None ∧
    Timers.intervals stopped.2 = Timers.intervals tm0 ∧
    Timers.frames stopped.2 = {[Timers.nextHandle tm0]}).
  { subst stopped second first. unfold start, constructed.
    cbn [monitor fst snd]. rewrite Hon. cbn [negb fst snd monitor].
    rewrite Hon. cbn [negb fst snd handles frameClock rafId].
    unfold stop. cbn [fst snd handles rafId].
    match goal with
    | |- context [foldl (λ tm h, Timers.clearInterval h tm) ?tm ?hs] =>
        destruct (clearIntervals_spec hs tm) as (Hi & Hf & Hn)
    end.
    cbv zeta in Hi, Hf, Hn. unfold Timers.wf.
    destruct hasMemory, hasMemory';
      cbn [Timers.requestAnimationFrame Timers.setInterval fst snd
           Timers.intervals Timers.frames Timers.nextHandle rafId handles app
           list_to_set Timers.live default Timers.cancelAnimationFrame] in *;
      destruct (Timers.nextHandle tm0) as [|n] eqn:Hnext; try lia;
      cbn [Timers.live default Timers.cancelAnimationFrame Timers.intervals
           Timers.frames Timers.nextHandle];
      rewrite ?Hi, ?Hf, ?Hn, ?Hframes;
      (split_and!;
       [ lia
       | intros x Hx;
         assert (x = S n ∨ x ∈ Timers.intervals tm0) as [->|Hx'] by set_solver;
         [lia | assert (x < S n) by (apply Hfresh; set_solver); lia]
       | done
       | apply set_eq; intros x; split;
         [ set_solver
         | intros Hx; assert (x < S n) by (apply Hfresh; set_solver);
           repeat (rewrite elem_of_difference || rewrite elem_of_union
                   || rewrite elem_of_singleton || rewrite elem_of_empty);
           repeat split; try tauto; lia ]
       | set_solver by lia ]). }
  destruct Hstopped as (Hwf & Hraf & Hint & Hfr).
  split_and!; [done..|].
  assert (Hone : Timers.wf stopped.2 ∧ size (Timers.frames stopped.2) = 1).
  { split; [done|]. rewrite Hfr. apply size_singleton. }
  clear -Hone. revert Hone. generalize stopped. clear stopped.
  induction fs as [|f fs IH]; intros s Hs; [by destruct Hs|].
  unfold runFrames. cbn [foldl]. apply IH. by apply runFrame_keeps_one_frame.
Qed.

Lemma stats_are_ordered_witness :
  let samples :=
    [{| timestamp := 1; value := Qc_of_nat 30; metadata := [] |};
     {| timestamp := 2; value := Qc_of_nat 10; metadata := [] |};
     {| timestamp := 3; value := Qc_of_nat 20; metadata := [] |}] in
  ∃ st, calculateStats (Some samples) = Some st ∧
        min st ∈ value <$> samples ∧ max st ∈ value <$> samples.
Proof.
  intros samples. eexists. split; [reflexivity|].
  destruct (stats_are_ordered samples _ eq_refl) as (Hlo & Hhi & _).
  split; [exact Hlo | exact Hhi].
Defined.

Lemma calculateStats_ignores_order_witness :
  let a := {| timestamp := 1; value := Qc_of_nat 30; metadata := [] |} in
  let b := {| timestamp := 2; value := Qc_of_nat 10; metadata := [] |} in
  match calculateStats (Some [a; b]),
        calculateStats (Some [{| timestamp := 7; value := value b;
                                 metadata := [("error", VBool true)] |}; a])
  with
  | Some st, Some st' =>
      min st = min st' ∧ max st = max st' ∧ median st = median st' ∧
      p95 st = p95 st' ∧ p99 st = p99 st' ∧ count st = count st'
  | None, None => True
  | _, _ => False
  end.
Proof.
  intros a b.
  apply (calculateStats_ignores_order [a; b]
           [{| timestamp := 7; value := value b;
               metadata := [("error", VBool true)] |}; a]).
  apply perm_swap.
Defined.

Lemma measure_throws_under_inherited_name_witness :
  let m := recordAll PerformanceMonitor.exampleMetricCalls
             (PerformanceMonitor_new (PerformanceMonitor.exampleConfig VUndef 2)) in
  measure exampleToFixed "constructor" exampleReturning 1000 m
  = (Throw (inr TypeError), m, []).
Proof.
  intros m.
  refine (proj1 (measure_throws_under_inherited_name exampleToFixed
                   (PerformanceMonitor.exampleConfig VUndef 2)
                   PerformanceMonitor.exampleMetricCalls "constructor"
                   exampleReturning 1000 _ _)).
  - discriminate.
  - apply (bool_decide_unpack _). vm_compute. exact I.
Defined.

Lemma recordSample_keeps_most_recent_witness :
  let calls := [(10, "memory", Qc_of_nat 100); (20, "toString", Qc_of_nat 1);
                (30, "memory", Qc_of_nat 200); (40, "memory", Qc_of_nat 300)] in
  let m := sampleAll calls
             (PerformanceMonitor_new (PerformanceMonitor.exampleConfig
                                        (VBool false) 2)) in
  value <$> default [] (metrics m !! "memory")
    = [Qc_of_nat 200; Qc_of_nat 300] ∧
  custom m = ∅.
Proof.
  intros calls m.
  destruct (recordSample_keeps_most_recent
              (PerformanceMonitor.exampleConfig (VBool false) 2) calls "memory")
    as (Hser & _ & _ & Hcus).
  - discriminate.
  - apply (bool_decide_unpack _). vm_compute. exact I.
  - cbv zeta in Hser. fold m in Hser. rewrite Hser. split; [reflexivity|].
    exact Hcus.
Defined.

Lemma start_stop_releases_timers_witness :
  let m := PerformanceMonitor_new (PerformanceMonitor.exampleConfig VUndef 3) in
  let started := (start true (constructed m 0) Timers.idle).1 in
  let ran := runFrames [(1, 500 * 1000); (4, 1200 * 1000)] started in
  let stopped := (stop ran.1 ran.2).1 in
  Timers.intervals stopped.2 = ∅ ∧ Timers.frames stopped.2 = ∅ ∧
  handles stopped.1 = [] ∧ rafId stopped.1 = None.
Proof.
  intros m started ran stopped. subst stopped ran started.
  apply (start_stop_releases_timers true m 0 Timers.idle
           [(1, 500 * 1000); (4, 1200 * 1000)]).
  - reflexivity.
  - split; [simpl; lia|]. intros h Hh. cbn [Timers.idle Timers.intervals
      Timers.frames] in Hh. set_solver.
  - reflexivity.
Defined.

Lemma second_start_leaks_frame_loop_witness :
  let m := PerformanceMonitor_new (PerformanceMonitor.exampleConfig VUndef 3) in
  let first := (start false (constructed m 0) Timers.idle).1 in
  let second := (start false first.1 first.2).1 in
  let stopped := (stop second.1 second.2).1 in
  rafId stopped.1 = None ∧ Timers.intervals stopped.2 = ∅ ∧
  Timers.frames stopped.2 = {[1]} ∧
  size (Timers.frames (runFrames [(1, 500 * 1000)] stopped).2) = 1.
Proof.
  intros m first second stopped. subst stopped second first.
  apply (second_start_leaks_frame_loop false false m 0 Timers.idle
           [(1, 500 * 1000)]).
  - reflexivity.
  - split; [simpl; lia|]. intros h Hh. cbn [Timers.idle Timers.intervals
      Timers.frames] in Hh. set_solver.
  - reflexivity.
Defined.

End MonitorMoreFacts.

(* ===================================================================== *)
(** ** More on the health-check registry                                  *)
(* ===================================================================== *)

Module RegistryFacts.
Import Js JsFacts HealthCheck HealthFacts RegistryOps.

Section WithEnv.
Context {Env : Type}.
Implicit Types (sys : System Env) (e : ModuleEntry Env).

Lemma Map_set_keys_present {K V} `{EqDecision K} (k : K) (v v' : V)
    (m : list (K * V)) :
  Map_get k m = Some v → (Map_set k v' m).*1 = m.*1.
Proof.
  intros Hget. rewrite Map_set_keys. rewrite decide_True; [done|].
  apply Map_get_Some_elem in Hget. apply list_elem_of_fmap. by exists (k, v).
Qed.

(** One check of a registered module whose thrown value, if any, lets
    its [message] be read: the status carries the module's name and the
    verdict of the run; the registry keeps its names, their order and every
    check function. *)
Lemma checkModule_registered sys nm e env now :
  Map_get nm (modules sys) = Some e →
  rejectsNullish (check e env) = false →
  let r := checkModule nm env now sys in
  (∃ s, r.1.1 = Normal (Some s) ∧ statusName s = nm ∧
        isHealthy s = healthyRun (check e env)) ∧
  (modules r.1.2).*1 = (modules sys).*1 ∧
  (∀ nm', check <$> Map_get nm' (modules r.1.2)
          = check <$> Map_get nm' (modules sys)).
Proof.
  intros He Hread r.
  assert (Hupd : ∀ e', check e' = check e →
    (modules (update nm e' sys)).*1 = (modules sys).*1 ∧
    ∀ nm', check <$> Map_get nm' (modules (update nm e' sys))
           = check <$> Map_get nm' (modules sys)).
  { intros e' Hchk. unfold update. cbn [modules]. split.
    - by apply Map_set_keys_present with (v := e).
    - intros nm'. rewrite Map_get_set.
      destruct (decide (nm = nm')) as [<-|]; [|done].
      rewrite He. simpl. by rewrite Hchk. }
  subst r. unfold healthyRun. unfold rejectsNullish in Hread.
  destruct (settled (check e env)) as [res|err] eqn:Hrun.
  - rewrite (surjective_pairing (checkModule nm env now sys)).
    rewrite (checkModule_resolved sys nm e env now res He Hrun). cbn [fst snd].
    split; [|by apply Hupd].
    eexists. split; [done|]. split; [done|].
    unfold isHealthy. cbn [healthyOf truthy]. done.
  - destruct (error_message err) as [message|x] eqn:Hmsg; [|done].
    rewrite (surjective_pairing (checkModule nm env now sys)).
    rewrite (checkModule_threw sys nm e env now err message He Hrun Hmsg).
    cbn [fst snd]. split; [|by apply Hupd].
    eexists. split; [done|]. split; done.
Qed.

Lemma checkEach_registered (names : list string) env :
  ∀ now sys,
    (∀ nm, nm ∈ names → is_Some (Map_get nm (modules sys))) →
    (∀ nm e, Map_get nm (modules sys) = Some e →
             rejectsNullish (check e env) = false) →
    let r := checkEach names env now sys in
    (modules r.1.2).*1 = (modules sys).*1 ∧
    (∀ nm, check <$> Map_get nm (modules r.1.2)
           = check <$> Map_get nm (modules sys)) ∧
    ∃ statuses,
      r.1.1 = Normal statuses ∧
      Forall2 (λ nm s, statusName s = nm ∧
                       ∃ e, Map_get nm (modules sys) = Some e ∧
                            isHealthy s = healthyRun (check e env))
              names statuses.
Proof.
  induction names as [|nm names IH]; intros now sys Hreg Hread.
  - cbv zeta. cbn [checkEach fst snd]. split_and!; [done | done |].
    exists []. split; [done | constructor].
  - destruct (Hreg nm) as [e He]; [apply list_elem_of_here|].
    destruct (checkModule_registered sys nm e env now He (Hread nm e He))
      as ((s & Hs & Hname & Hhealthy) & Hkeys & Hchecks).
    cbv zeta in Hs, Hkeys, Hchecks. cbv zeta. cbn [checkEach].
    set (one := checkModule nm env now sys) in *.
    rewrite Hs.
    set (later := from_option (λ s, timestampOf s now) now (Some s)).
    destruct (IH later one.1.2) as (Hkeys' & Hchecks' & statuses & Hst & Hall).
    { intros nm' Hin. specialize (Hchecks nm').
      destruct (Hreg nm') as [e' He']; [by apply list_elem_of_further|].
      rewrite He' in Hchecks.
      destruct (Map_get nm' (modules one.1.2)); [by eexists | done]. }
    { intros nm' e' He'. specialize (Hchecks nm'). rewrite He' in Hchecks.
      destruct (Map_get nm' (modules sys)) as [e0|] eqn:He0; [|done].
      simpl in Hchecks. injection Hchecks as ->. by eapply Hread. }
    cbv zeta in Hkeys', Hchecks', Hst, Hall. cbn [fst snd]. rewrite Hst.
    split_and!.
    + by rewrite Hkeys'.
    + intros nm'. by rewrite Hchecks'.
    + eexists. split; [done|]. cbn [option_list app]. constructor.
      * split; [done|]. by exists e.
      * eapply Forall2_impl; [exact Hall|].
        intros nm' s' (Hn & e' & He' & Hh). split; [done|].
        specialize (Hchecks nm'). rewrite He' in Hchecks.
        destruct (Map_get nm' (modules sys)) as [e0|] eqn:He0; [|done].
        exists e0. split; [done|]. simpl in Hchecks.
        injection Hchecks as Hc. by rewrite <-Hc.
Qed.

Lemma count_partition (checks : list Status) :
  length (filter (λ c, isHealthy c = true) checks)
  + length (filter (λ c, isHealthy c = false) checks) = length checks.
Proof.
  induction checks as [|c checks IH]; [done|].
  rewrite !filter_cons. destruct (isHealthy c) eqn:Hc.
  - rewrite decide_True, decide_False by done. simpl. lia.
  - rewrite decide_False, decide_True by done. simpl. lia.
Qed.

Lemma none_unhealthy (checks : list Status) :
  forallb isHealthy checks = true ↔
  length (filter (λ c, isHealthy c = false) checks) = 0.
Proof.
  induction checks as [|c checks IH]; [done|].
  cbn [forallb]. rewrite filter_cons. destruct (isHealthy c) eqn:Hc.
  - rewrite decide_False by done. by rewrite andb_true_l.
  - rewrite decide_True by done. simpl. split; [done | lia].
Qed.

(** X25. When no registered check throws or is rejected with [undefined] or
    [null], [getStatus] checks every registered module once, in the order
    of registration, and reports one status for each: the healthy and the
    unhealthy ones add up to the number of modules.  The overall verdict is
    ['healthy'] exactly when no status is unhealthy, which is the case
    exactly when the check of every registered module comes back with a
    result whose [healthy] is not [false]; a check that throws makes it
    ['degraded'].  An empty registry is healthy. *)
Theorem getStatus_reports_every_module env now sys :
  (∀ nm e, Map_get nm (modules sys) = Some e →
           rejectsNullish (check e env) = false) →
  let r := getStatus env now sys in
  ∃ summary,
    r.1.1 = Normal summary ∧
    statusName <$> sum_modules summary = (modules sys).*1 ∧
    (modules r.1.2).*1 = (modules sys).*1 ∧
    sum_totalModules summary = length (modules sys) ∧
    sum_healthyModules summary + sum_unhealthyModules summary
      = sum_totalModules summary ∧
    (sum_overall summary = "healthy" ↔ sum_unhealthyModules summary = 0) ∧
    (sum_overall summary = "healthy" ↔
     ∀ nm e, Map_get nm (modules sys) = Some e →
             healthyRun (check e env) = true) ∧
    (sum_overall summary = "healthy" ∨ sum_overall summary = "degraded").
Proof.
  intros Hread r. subst r. unfold getStatus, checkAll.
  destruct (checkEach_registered (modules sys).*1 env now sys)
    as (Hkeys & Hchecks & checks & Hst & Hall).
  { intros nm Hin. destruct (Map_get nm (modules sys)) eqn:Hget; [by eexists|].
    by apply Map_get_None in Hget. }
  { exact Hread. }
  cbv zeta in Hkeys, Hchecks, Hst, Hall.
  set (all := checkEach (modules sys).*1 env now sys) in *.
  rewrite Hst. eexists. split; [reflexivity|].
  cbn [fst snd summarize sum_modules sum_totalModules sum_healthyModules
       sum_unhealthyModules sum_overall].
  assert (Hlen : length checks = length (modules sys)).
  { apply Forall2_length in Hall. by rewrite length_fmap in Hall. }
  assert (Hverdict : forallb isHealthy checks = true ↔
            ∀ nm e, Map_get nm (modules sys) = Some e →
                    healthyRun (check e env) = true).
  { rewrite <-Is_true_true, forallb_True. split.
    - intros Hforall nm e He.
      assert (nm ∈ (modules sys).*1) as Hin.
      { apply Map_get_Some_elem in He. apply list_elem_of_fmap. by exists (nm, e). }
      apply list_elem_of_lookup in Hin as [i Hi].
      destruct (Forall2_lookup_l _ _ _ _ _ Hall Hi) as (s & Hs & _ & e' & He' & Hh).
      rewrite He in He'. injection He' as <-. rewrite <-Hh.
      rewrite Forall_forall in Hforall. apply Is_true_true, Hforall.
      by eapply list_elem_of_lookup_2.
    - intros Hruns. apply Forall_forall. intros s Hs.
      apply list_elem_of_lookup in Hs as [i Hi].
      destruct (Forall2_lookup_r _ _ _ _ _ Hall Hi) as (nm & _ & _ & e & He & Hh).
      apply Is_true_true. rewrite Hh. by eapply Hruns. }
  split_and!.
  - clear -Hall. induction Hall as [|nm s names ss [Hn _] _ IH]; [done|].
    rewrite fmap_cons. by rewrite Hn, IH.
  - done.
  - by rewrite <-!(length_fmap fst), Hkeys.
  - rewrite count_partition, Hlen. by rewrite <-!(length_fmap fst), Hkeys.
  - rewrite <-none_unhealthy. by destruct (forallb isHealthy checks).
  - rewrite <-Hverdict. by destruct (forallb isHealthy checks).
  - destruct (forallb isHealthy checks); [by left | by right].
Qed.

(** X26. Removing a module undoes its registration: a name that was not
    registered is gone again, with every other entry as it was.  Removing
    a name that is not registered changes nothing and logs nothing, so a
    second removal is idle. *)
Theorem unregister_undoes_register sys nm chk :
  nm ∉ (modules sys).*1 →
  (unregisterModule nm (registerModule nm chk sys).1).1 = sys ∧
  unregisterModule nm sys = (sys, []) ∧
  (∀ nm', unregisterModule nm (unregisterModule nm' sys).1
          = ((unregisterModule nm' sys).1, [])).
Proof.
  intros Hnew.
  assert (Hget : Map_get nm (modules sys) = None) by (by apply Map_get_None).
  split_and!.
  - unfold unregisterModule, registerModule. cbn [fst modules checkInterval].
    rewrite Map_get_set_eq. cbn [fst modules checkInterval].
    rewrite Map_delete_set by done. by destruct sys.
  - unfold unregisterModule. by rewrite Hget.
  - intros nm'. unfold unregisterModule at 1.
    assert (Map_get nm (modules (unregisterModule nm' sys).1) = None) as ->; [|done].
    unfold unregisterModule. destruct (Map_get nm' (modules sys)); [|done].
    cbn [fst modules]. rewrite Map_get_delete, Hget. by case_decide.
Qed.

(** X27. A registration starts the module afresh, also when the name was
    registered before: its failure count is 0 and it has no cached status,
    so [getLastStatus] reports it as not yet checked.  The other modules,
    and the position of a name registered before, stay as they were. *)
Theorem register_resets_module sys nm chk now :
  let after := (registerModule nm chk sys).1 in
  failuresOf nm after = Some 0 ∧
  NotYetChecked nm ∈ ls_modules (getLastStatus now after) ∧
  (∀ nm', nm' ≠ nm →
          Map_get nm' (modules after) = Map_get nm' (modules sys)) ∧
  (modules after).*1 =
    (if decide (nm ∈ (modules sys).*1) then (modules sys).*1
     else (modules sys).*1 ++ [nm]) ∧
  ls_overall (getLastStatus now after) ≠ "healthy".
Proof.
  intros after. subst after. unfold registerModule. cbn [fst modules].
  set (fresh := {| name := nm; check := chk; lastCheck := None;
                   lastStatus := None; consecutiveFailures := 0 |}).
  assert (Hin : (nm, fresh) ∈ Map_set nm fresh (modules sys)).
  { apply Map_get_Some_elem. apply Map_get_set_eq. }
  assert (Hlisted : NotYetChecked nm ∈
            ls_modules (getLastStatus now
              {| modules := Map_set nm fresh (modules sys);
                 checkInterval := checkInterval sys |})).
  { unfold getLastStatus. cbn [ls_modules modules].
    apply list_elem_of_fmap. by exists (nm, fresh). }
  split_and!.
  - unfold failuresOf. cbn [modules]. by rewrite Map_get_set_eq.
  - done.
  - intros nm' Hne. by rewrite Map_get_set_ne.
  - apply Map_set_keys.
  - unfold getLastStatus in *. cbn [ls_overall ls_modules modules] in *.
    set (statuses := _ <$> Map_set nm fresh (modules sys)) in *.
    destruct (forallb (λ s, bool_decide (healthyOf s = VBool true)) statuses)
      eqn:Hall.
    + exfalso. apply Is_true_true in Hall.
      rewrite forallb_True, Forall_forall in Hall.
      specialize (Hall _ Hlisted). by apply bool_decide_unpack in Hall.
    + by destruct (existsb _ statuses).
Qed.

End WithEnv.

(** X28. [startPeriodicChecks] starts one interval however often it is called,
    and [stopPeriodicChecks] clears it: the timers of the platform are back
    to what they were, and a second stop is idle. *)
Theorem periodic_checks_start_once (checkInterval : nat) (tm : Timers.Timers) :
  Timers.wf tm →
  let first := startPeriodicChecks checkInterval None tm in
  let second := startPeriodicChecks checkInterval first.1.1 first.1.2 in
  let stopped := stopPeriodicChecks second.1.1 second.1.2 in
  first.1.1 = Some (Timers.nextHandle tm) ∧
  Timers.intervals first.1.2 = {[Timers.nextHandle tm]} ∪ Timers.intervals tm ∧
  second.1 = first.1 ∧
  stopped.1.1 = None ∧
  Timers.intervals stopped.1.2 = Timers.intervals tm ∧
  stopPeriodicChecks stopped.1.1 stopped.1.2 = (None, stopped.1.2, []).
Proof.
  intros [Hpos Hfresh] first second stopped.
  subst stopped second first. unfold startPeriodicChecks at 3 4 5 6.
  cbn [Timers.live fst snd Timers.setInterval Timers.intervals].
  unfold startPeriodicChecks.
  cbn [Timers.live fst snd Timers.setInterval Timers.intervals].
  destruct (Timers.nextHandle tm) as [|n] eqn:Hn; [lia|].
  cbn [Timers.live fst snd]. unfold stopPeriodicChecks.
  cbn [Timers.live fst snd default Timers.clearInterval Timers.intervals].
  split_and!; try done.
  apply set_eq. intros x. rewrite elem_of_difference, elem_of_union.
  unfold id. rewrite !elem_of_singleton. split.
  - by intros [[Heq|Hin] Hne].
  - intros Hx. assert (x < S n) by (apply Hfresh; set_solver).
    split; [by right | lia].
Qed.

Lemma getStatus_reports_every_module_witness :
  let sys := (registerModule "network" alwaysThrows exampleSystem).1 in
  ∃ summary,
    (getStatus 5 100 sys).1.1 = Normal summary ∧
    statusName <$> sum_modules summary = ["terminal"; "network"] ∧
    sum_overall summary = "degraded" ∧
    sum_healthyModules summary = 1 ∧ sum_unhealthyModules summary = 1.
Proof.
  intros sys.
  destruct (getStatus_reports_every_module 5 100 sys)
    as (summary & Hsum & Hnames & _).
  - intros nm e He.
    assert ((nm, e) ∈ modules sys) as Hin by (by apply Map_get_Some_elem).
    vm_compute in Hin.
    apply elem_of_cons in Hin as [[= -> ->]|Hin]; [reflexivity|].
    apply elem_of_cons in Hin as [[= -> ->]|Hin]; [reflexivity|].
    by apply elem_of_nil in Hin.
  - exists summary. split; [exact Hsum|]. split; [exact Hnames|].
    vm_compute in Hsum. injection Hsum as <-. split_and!; reflexivity.
Defined.

(** One check rejected with [undefined] is enough for [getStatus] to be
    rejected: at 98 the example check is, and no summary results. *)
Lemma getStatus_rejected_with_check :
  getStatus 98 100 exampleSystem = (Throw TypeError, exampleSystem, []).
Proof. reflexivity. Qed.

Lemma unregister_undoes_register_witness :
  (unregisterModule "network"
     (registerModule "network" alwaysThrows exampleSystem).1).1 = exampleSystem.
Proof.
  destruct (unregister_undoes_register exampleSystem "network" alwaysThrows)
    as (Hback & _).
  - unfold exampleSystem. simpl. rewrite not_elem_of_cons.
    split; [done | apply not_elem_of_nil].
  - exact Hback.
Defined.

Lemma periodic_checks_start_once_witness :
  let first := startPeriodicChecks 500 None Timers.idle in
  let second := startPeriodicChecks 500 first.1.1 first.1.2 in
  let stopped := stopPeriodicChecks second.1.1 second.1.2 in
  first.1.1 = Some 1 ∧ second.1 = first.1 ∧
  Timers.intervals stopped.1.2 = ∅.
Proof.
  intros first second stopped. subst stopped second first.
  destruct (periodic_checks_start_once 500 Timers.idle)
    as (H1 & _ & H2 & _ & H3 & _).
  - split; [simpl; lia|]. intros h Hh.
    cbn [Timers.idle Timers.intervals Timers.frames] in Hh. set_solver.
  - split_and!; [exact H1 | exact H2 | exact H3].
Defined.

End RegistryFacts.
